(** * Expense_split: the expense store, the balance reducer and the
      settlement matcher of [services.py], embedded in Rocq.

    The Python code computes with [float] (IEEE 754 binary64).  The program is
    translated once, over an interface [PyFloat] of the float operations it
    uses; the instance [binary64] interprets the interface with Rocq's
    primitive floats, which are the same binary64 numbers with the same
    round-to-nearest-even operations. *)

From Stdlib Require Import ZArith List String Bool Lia Permutation Sorted.
From Stdlib Require Import Uint63 Floats.
Import ListNotations.

Set Implicit Arguments.
Set Warnings "-inexact-float".

(** ** The float operations used by the program *)

Class PyFloat (F : Type) : Type := {
  (** [float(n)] for a Python [int], as in mixed [int]/[float] arithmetic *)
  of_int : Z -> F;
  fadd : F -> F -> F;
  fsub : F -> F -> F;
  fdiv : F -> F -> F;
  fopp : F -> F;
  fabs : F -> F;
  (** [x < y] *)
  fltb : F -> F -> bool;
  (** [x <= y] *)
  fleb : F -> F -> bool;
  (** [round(x, 2)] *)
  round2 : F -> F;
  (** the literal [0.01] *)
  cent : F;
  (** the builtin [sum] over a non-empty sequence of floats *)
  py_sum : list F -> F
}.

(** Iteration order of a Python [set] of strings: unspecified by the language,
    it enumerates every element of the set exactly once. *)
Class PySet : Type := {
  set_iter : list string -> list string;
  set_iter_NoDup : forall l, NoDup (set_iter l);
  set_iter_In : forall l x, In x (set_iter l) <-> In x l
}.

(** ** models.py: the records *)

Definition datetime := Z.

Section Records.
Variable F : Type.

(** An entry of [ExpenseService.expenses] (a dict with these six keys). *)
Record Expense : Type := mkExpense {
  id : Z;
  amount : F;
  description : string;
  paid_by : string;
  created_at : datetime;
  updated_at : datetime
}.

Record ExpenseCreate : Type := mkExpenseCreate {
  create_amount : F;
  create_description : string;
  create_paid_by : string
}.

Record ExpenseUpdate : Type := mkExpenseUpdate {
  update_amount : option F;
  update_description : option string;
  update_paid_by : option string
}.

Inductive Status : Type := gets | owes | even.

Record BalanceResponse : Type := mkBalanceResponse {
  person : string;
  balance : F;
  status : Status
}.

Record SettlementResponse : Type := mkSettlementResponse {
  from_person : string;
  to_person : string;
  settlement_amount : F
}.

Record PersonResponse : Type := mkPersonResponse {
  name : string;
  total_paid : F;
  total_expenses : Z;
  person_balance : F
}.

(** The service object: the list of expenses and the id counter. *)
Record ExpenseService : Type := mkService {
  expenses : list Expense;
  next_id : Z
}.
End Records.

Arguments mkExpense {F}.
Arguments mkExpenseCreate {F}.
Arguments mkExpenseUpdate {F}.
Arguments mkBalanceResponse {F}.
Arguments mkSettlementResponse {F}.
Arguments mkPersonResponse {F}.
Arguments mkService {F}.

(** ** Exceptions *)

Inductive exn : Type :=
  | KeyError (expense_id : Z)
  | ZeroDivisionError.

Inductive result (A : Type) : Type :=
  | Ok (a : A)
  | Raise (e : exn).
Arguments Ok {A}.
Arguments Raise {A}.

Definition bind {A B : Type} (r : result A) (k : A -> result B) : result B :=
  match r with
  | Ok a => k a
  | Raise e => Raise e
  end.

Notation "x <- r ;; k" := (bind r (fun x => k))
  (at level 61, r at next level, right associativity).

(** ** Python dicts keyed by strings, in insertion order *)

Section Dict.
Variable V : Type.

Definition dict := list (string * V).

Fixpoint dict_get (d : dict) (k : string) : option V :=
  match d with
  | [] => None
  | (k', v) :: d' => if String.eqb k k' then Some v else dict_get d' k
  end.

(** [d.get(k, default)] *)
Definition dict_get_default (d : dict) (k : string) (default : V) : V :=
  match dict_get d k with
  | Some v => v
  | None => default
  end.

(** [d[k] = v]: an existing key keeps its position, a new key goes last. *)
Fixpoint dict_set (d : dict) (k : string) (v : V) : dict :=
  match d with
  | [] => [(k, v)]
  | (k', v') :: d' =>
      if String.eqb k k' then (k', v) :: d' else (k', v') :: dict_set d' k v
  end.

Definition dict_keys (d : dict) : list string := map fst d.
End Dict.

(** ** Stable sorting, as [sorted] and [list.sort] do it *)

Section Sorting.
Variable A : Type.
(** [before x y]: [x] has to come strictly before [y] *)
Variable before : A -> A -> bool.

Fixpoint insert_stable (x : A) (l : list A) : list A :=
  match l with
  | [] => [x]
  | y :: l' => if before y x then y :: insert_stable x l' else x :: y :: l'
  end.

(** Elements are inserted from the right, each before the first element that
    need not precede it: equal keys keep their original order. *)
Definition stable_sort (l : list A) : list A :=
  fold_right insert_stable [] l.
End Sorting.

(** Replace the element at index [n] of a list (nothing out of range). *)
Fixpoint list_update {A : Type} (l : list A) (n : nat) (x : A) : list A :=
  match l, n with
  | [], _ => []
  | _ :: l', O => x :: l'
  | y :: l', S n' => y :: list_update l' n' x
  end.

(** ** services.py *)

Section Service.
Context {F : Type} {num : PyFloat F} {sets : PySet}.

(** The literal [0] of the program, where it meets a float. *)
Definition int0 : F := of_int 0.

(** [min(a, b)]: the first argument unless the second is strictly less. *)
Definition py_min (a b : F) : F := if fltb b a then b else a.

(** [x / n] for a float [x] and an int [n]. *)
Definition py_div (x : F) (n : Z) : result F :=
  if (n =? 0)%Z then Raise ZeroDivisionError else Ok (fdiv x (of_int n)).

(** *** The expense store *)

(** [__init__] before [_initialize_test_data]. *)
Definition empty_service : ExpenseService F := mkService [] 1.

(** [add_expense]; [now] is the value of [datetime.now()]. *)
Definition add_expense (expense : ExpenseCreate F) (now : datetime)
    (self : ExpenseService F) : Expense F * ExpenseService F :=
  let new_expense :=
    mkExpense (next_id self) (create_amount expense)
              (create_description expense) (create_paid_by expense) now now in
  (new_expense,
   mkService (expenses self ++ [new_expense]) (next_id self + 1)).

(** [_initialize_test_data]: the five test expenses, as [ExpenseCreate]
    validates them ([amount] becomes [round(float(v), 2)]; the names and
    descriptions are already stripped and title-cased). *)
Definition test_expenses : list (ExpenseCreate F) :=
  [ mkExpenseCreate (round2 (of_int 600)) "Dinner" "Shantanu";
    mkExpenseCreate (round2 (of_int 450)) "Groceries" "Sanket";
    mkExpenseCreate (round2 (of_int 300)) "Petrol" "Om";
    mkExpenseCreate (round2 (of_int 500)) "Movie Tickets" "Shantanu";
    mkExpenseCreate (round2 (of_int 280)) "Pizza" "Sanket" ].

(** [clock k] is the value of the [k]-th call of [datetime.now()]. *)
Fixpoint add_all (l : list (ExpenseCreate F)) (clock : nat -> datetime)
    (k : nat) (self : ExpenseService F) : ExpenseService F :=
  match l with
  | [] => self
  | expense :: l' =>
      add_all l' clock (S k) (snd (add_expense expense (clock k) self))
  end.

(** [ExpenseService()] *)
Definition new_service (clock : nat -> datetime) : ExpenseService F :=
  add_all test_expenses clock 0 empty_service.

Definition get_all_expenses (self : ExpenseService F) : list (Expense F) :=
  expenses self.

Fixpoint find_expense (l : list (Expense F)) (expense_id : Z)
    : option (Expense F) :=
  match l with
  | [] => None
  | expense :: l' =>
      if (id expense =? expense_id)%Z then Some expense
      else find_expense l' expense_id
  end.

Definition get_expense_by_id (self : ExpenseService F) (expense_id : Z)
    : result (Expense F) :=
  match find_expense (expenses self) expense_id with
  | Some expense => Ok expense
  | None => Raise (KeyError expense_id)
  end.

(** The dict returned by [get_expense_by_id] is the object stored in the
    list: assigning to its keys changes the first stored expense with that
    id, in place. *)
Fixpoint store_first (l : list (Expense F)) (expense_id : Z)
    (expense' : Expense F) : list (Expense F) :=
  match l with
  | [] => []
  | expense :: l' =>
      if (id expense =? expense_id)%Z then expense' :: l'
      else expense :: store_first l' expense_id expense'
  end.

Definition option_default {A : Type} (o : option A) (a : A) : A :=
  match o with
  | Some a' => a'
  | None => a
  end.

(** A method that can raise returns its outcome and the service as the call
    leaves it. *)
Definition update_expense (expense_id : Z) (expense_update : ExpenseUpdate F)
    (now : datetime) (self : ExpenseService F)
    : result (Expense F) * ExpenseService F :=
  match get_expense_by_id self expense_id with
  | Raise e => (Raise e, self)
  | Ok expense =>
      let expense' :=
        mkExpense (id expense)
          (option_default (update_amount expense_update) (amount expense))
          (option_default (update_description expense_update)
                          (description expense))
          (option_default (update_paid_by expense_update) (paid_by expense))
          (created_at expense) now in
      (Ok expense',
       mkService (store_first (expenses self) expense_id expense')
                 (next_id self))
  end.

(** [self.expenses.remove(expense)] removes the first element that is
    [expense] or equals it.  [expense] is the first stored dict with the
    given id and every dict before it differs from it in its ["id"], so the
    element removed is the first one with that id. *)
Fixpoint remove_first (l : list (Expense F)) (expense_id : Z)
    : list (Expense F) :=
  match l with
  | [] => []
  | expense :: l' =>
      if (id expense =? expense_id)%Z then l'
      else expense :: remove_first l' expense_id
  end.

Definition delete_expense (expense_id : Z) (self : ExpenseService F)
    : result unit * ExpenseService F :=
  match get_expense_by_id self expense_id with
  | Raise e => (Raise e, self)
  | Ok _ =>
      (Ok tt,
       mkService (remove_first (expenses self) expense_id) (next_id self))
  end.

(** The calls that change the store, as main.py issues them. *)
Inductive Call : Type :=
  | CallAdd (expense : ExpenseCreate F) (now : datetime)
  | CallUpdate (expense_id : Z) (expense_update : ExpenseUpdate F)
               (now : datetime)
  | CallDelete (expense_id : Z).

Definition call (c : Call) (self : ExpenseService F) : ExpenseService F :=
  match c with
  | CallAdd expense now => snd (add_expense expense now self)
  | CallUpdate expense_id expense_update now =>
      snd (update_expense expense_id expense_update now self)
  | CallDelete expense_id => snd (delete_expense expense_id self)
  end.

(** The ids a call assigns. *)
Definition assigned (c : Call) (self : ExpenseService F) : list Z :=
  match c with
  | CallAdd expense now => [id (fst (add_expense expense now self))]
  | _ => []
  end.

(** The service after a sequence of calls, and the ids assigned on the
    way, in order. *)
Fixpoint run (cs : list Call) (self : ExpenseService F)
    : ExpenseService F * list Z :=
  match cs with
  | [] => (self, [])
  | c :: cs' =>
      let '(self', ids) := run cs' (call c self) in
      (self', assigned c self ++ ids)
  end.

(** *** The balance reducer *)

(** The loop filling [paid_by_person]. *)
Definition paid_by_person (l : list (Expense F)) : dict F :=
  fold_left
    (fun paid expense =>
       dict_set paid (paid_by expense)
         (fadd (dict_get_default paid (paid_by expense) int0)
               (amount expense)))
    l [].

Definition unique_people (l : list (Expense F)) : list string :=
  set_iter (map (@paid_by F) l).

(** The loop filling [balances], for a given share. *)
Definition balances_for (l : list (Expense F)) (per_person_share : F)
    : dict F :=
  fold_left
    (fun balances person =>
       let amount_paid := dict_get_default (paid_by_person l) person int0 in
       dict_set balances person (round2 (fsub amount_paid per_person_share)))
    (unique_people l) [].

Definition _calculate_individual_balances (self : ExpenseService F)
    : result (dict F) :=
  match expenses self with
  | [] => Ok []
  | _ =>
      let total_amount := py_sum (map (@amount F) (expenses self)) in
      let num_people := Z.of_nat (List.length (unique_people (expenses self))) in
      if (num_people =? 0)%Z then Ok []
      else
        per_person_share <- py_div total_amount num_people ;;
        Ok (balances_for (expenses self) per_person_share)
  end.

(** *** Balances *)

Definition neg_cent : F := fopp cent.

Definition status_of (b : F) : Status :=
  if fltb cent b then gets
  else if fltb b neg_cent then owes
  else even.

Definition calculate_balances (self : ExpenseService F)
    : result (list (BalanceResponse F)) :=
  balances <- _calculate_individual_balances self ;;
  let balance_responses :=
    map (fun pb : string * F =>
           mkBalanceResponse (fst pb) (fabs (snd pb)) (status_of (snd pb)))
        balances in
  Ok (stable_sort
        (fun x y => String.ltb (person x) (person y)) balance_responses).

(** *** People *)

(** The loop filling [people_data]: per payer, [total_paid] and
    [total_expenses], both starting from the int [0]. *)
Definition people_data (l : list (Expense F)) : dict (F * Z) :=
  fold_left
    (fun data expense =>
       let old := dict_get_default data (paid_by expense) (int0, 0%Z) in
       dict_set data (paid_by expense)
                (fadd (fst old) (amount expense), (snd old + 1)%Z))
    l [].

Definition get_all_people (self : ExpenseService F)
    : result (list (PersonResponse F)) :=
  let data := people_data (expenses self) in
  balances <- _calculate_individual_balances self ;;
  let people :=
    map (fun pd : string * (F * Z) =>
           mkPersonResponse (fst pd) (fst (snd pd)) (snd (snd pd))
                            (dict_get_default balances (fst pd) int0))
        data in
  Ok (stable_sort (fun x y => String.ltb (name x) (name y)) people).

(** *** The settlement matcher *)

(** An entry of [debtors] or [creditors]: a dict with the keys ["person"]
    and ["amount"]. *)
Record Party : Type := mkParty {
  party_person : string;
  party_amount : F
}.

(** The loop partitioning the balances. *)
Definition debtors_of (balances : dict F) : list Party :=
  flat_map
    (fun pb : string * F =>
       if fltb (snd pb) neg_cent then [mkParty (fst pb) (fabs (snd pb))]
       else [])
    balances.

Definition creditors_of (balances : dict F) : list Party :=
  flat_map
    (fun pb : string * F =>
       if fltb (snd pb) neg_cent then []
       else if fltb cent (snd pb) then [mkParty (fst pb) (snd pb)]
       else [])
    balances.

(** [l.sort(key=lambda x: x["amount"], reverse=True)]: descending, and
    entries with equal amounts keep their order. *)
Definition sort_by_amount_desc (l : list Party) : list Party :=
  stable_sort (fun x y => fltb (party_amount y) (party_amount x)) l.

(** The variables of the [while] loop. *)
Record Loop : Type := mkLoop {
  debtors : list Party;
  creditors : list Party;
  i : nat;
  j : nat;
  settlements : list (SettlementResponse F)
}.

(** [i < len(debtors) and j < len(creditors)] *)
Definition loop_cond (st : Loop) : bool :=
  (i st <? List.length (debtors st))%nat
  && (j st <? List.length (creditors st))%nat.

Definition loop_body (st : Loop) : Loop :=
  match nth_error (debtors st) (i st), nth_error (creditors st) (j st) with
  | Some debtor, Some creditor =>
      let amount := py_min (party_amount debtor) (party_amount creditor) in
      let '(debtor, creditor, settlements') :=
        if fltb cent amount then
          (mkParty (party_person debtor) (fsub (party_amount debtor) amount),
           mkParty (party_person creditor)
                   (fsub (party_amount creditor) amount),
           settlements st
             ++ [mkSettlementResponse (party_person debtor)
                   (party_person creditor) (round2 amount)])
        else (debtor, creditor, settlements st) in
      mkLoop (list_update (debtors st) (i st) debtor)
             (list_update (creditors st) (j st) creditor)
             (if fltb (party_amount debtor) cent then S (i st) else i st)
             (if fltb (party_amount creditor) cent then S (j st) else j st)
             settlements'
  | _, _ => st
  end.

(** The state after at most [n] iterations of the loop. *)
Fixpoint loop_iter (n : nat) (st : Loop) : Loop :=
  match n with
  | O => st
  | S n' => if loop_cond st then loop_iter n' (loop_body st) else st
  end.

(** The [while] loop with [fuel] iterations at hand: [None] when the loop
    is still running after them. *)
Definition while_loop (fuel : nat) (st : Loop) : option Loop :=
  let st' := loop_iter fuel st in
  if loop_cond st' then None else Some st'.

Definition loop_init (balances : dict F) : Loop :=
  mkLoop (sort_by_amount_desc (debtors_of balances))
         (sort_by_amount_desc (creditors_of balances)) 0 0 [].

(** The body of [calculate_settlements] after the balances are computed. *)
Definition settle (fuel : nat) (balances : dict F)
    : option (list (SettlementResponse F)) :=
  match balances with
  | [] => Some []
  | _ => option_map settlements (while_loop fuel (loop_init balances))
  end.

Definition calculate_settlements (fuel : nat) (self : ExpenseService F)
    : result (option (list (SettlementResponse F))) :=
  balances <- _calculate_individual_balances self ;;
  Ok (settle fuel balances).
End Service.

(** ** binary64: the floats of CPython *)

(** [n / d] rounded to the nearest integer, ties to the even one. *)
Definition div_half_even (n d : Z) : Z :=
  let q := (n / d)%Z in
  match (2 * (n mod d) ?= d)%Z with
  | Lt => q
  | Gt => (q + 1)%Z
  | Eq => if Z.even q then q else (q + 1)%Z
  end.

Module Binary64.

Definition float_of_Z (z : Z) : float :=
  if (z <? 0)%Z then (- of_uint63 (Uint63.of_Z (- z)))%float
  else of_uint63 (Uint63.of_Z z).

(** [round(x, 2)]: CPython rounds the exact value of [x] to two decimals,
    ties to even, and takes the double nearest to that decimal; infinities
    and nans round to themselves.  For [x = m * 2^e], the decimal is
    [k / 100] with [k] the integer nearest to [100 * m * 2^e].  When
    [e >= -6] the doubles around [x] are at least [1/64] apart, more than
    twice the distance from [x] to the decimal, so the nearest double is
    [x] itself; otherwise [k < 2^53] is a double and the correctly rounded
    quotient [k / 100] is the nearest double. *)
Definition round2 (x : float) : float :=
  match Prim2SF x with
  | S754_finite s m e =>
      if (-6 <=? e)%Z then x
      else
        let k := div_half_even (100 * Zpos m) (2 ^ (- e)) in
        let r := (float_of_Z k / 100)%float in
        if s then (- r)%float else r
  | _ => x
  end.

#[export] Instance binary64 : PyFloat float := {
  of_int := float_of_Z;
  fadd := PrimFloat.add;
  fsub := PrimFloat.sub;
  fdiv := PrimFloat.div;
  fopp := PrimFloat.opp;
  fabs := PrimFloat.abs;
  fltb := PrimFloat.ltb;
  fleb := PrimFloat.leb;
  round2 := round2;
  cent := 0.01%float;
  (* additions from the int [0], left to right *)
  py_sum := fun l => fold_left PrimFloat.add l (float_of_Z 0)
}.

End Binary64.

(** A set order to compute with: first occurrences, in order. *)
Module FirstSeen.

Fixpoint dedup (l : list string) : list string :=
  match l with
  | [] => []
  | x :: l' => x :: filter (fun y => negb (String.eqb x y)) (dedup l')
  end.

Lemma dedup_In (l : list string) (x : string) : In x (dedup l) <-> In x l.
Proof.
  induction l as [|a l IH]; simpl; [tauto|].
  rewrite filter_In, IH.
  destruct (String.eqb_spec a x) as [->|Hne]; simpl; intuition congruence.
Qed.

Lemma dedup_NoDup (l : list string) : NoDup (dedup l).
Proof.
  induction l as [|a l IH]; simpl; constructor.
  - rewrite filter_In, String.eqb_refl. simpl. intros [_ Hf]. discriminate.
  - now apply NoDup_filter.
Qed.

#[export] Instance first_seen : PySet := {
  set_iter := dedup;
  set_iter_NoDup := dedup_NoDup;
  set_iter_In := dedup_In
}.

End FirstSeen.

(** * Properties *)

(** ** The expense store *)

Section StoreProperties.
Context {F : Type} {num : PyFloat F}.

Local Open Scope Z_scope.

Definition ids (self : ExpenseService F) : list Z :=
  map (@id F) (expenses self).

Definition stored (self : ExpenseService F) (expense_id : Z) : Prop :=
  exists expense, In expense (expenses self) /\ id expense = expense_id.

(** The invariant of the store: distinct ids, all below the counter. *)
Definition store_ok (self : ExpenseService F) : Prop :=
  NoDup (ids self) /\ Forall (fun k => k < next_id self) (ids self).

Lemma find_expense_Some (l : list (Expense F)) (k : Z) (expense : Expense F) :
  find_expense l k = Some expense -> In expense l /\ id expense = k.
Proof.
  induction l as [|x l IH]; simpl; [discriminate|].
  destruct (Z.eqb_spec (id x) k) as [Hk|Hk].
  - intros [= <-]. auto.
  - intros Hf. destruct (IH Hf). auto.
Qed.

Lemma find_expense_None (l : list (Expense F)) (k : Z) :
  find_expense l k = None <-> ~ In k (map (@id F) l).
Proof.
  induction l as [|x l IH]; simpl; [tauto|].
  destruct (Z.eqb_spec (id x) k) as [Hk|Hk].
  - split; [discriminate|]. intros Hn. exfalso. auto.
  - rewrite IH. tauto.
Qed.

Lemma stored_ids (self : ExpenseService F) (k : Z) :
  stored self k <-> In k (ids self).
Proof.
  unfold stored, ids. rewrite in_map_iff. split; intros [x Hx]; exists x; tauto.
Qed.

Lemma store_first_ids (l : list (Expense F)) (k : Z) (expense' : Expense F) :
  id expense' = k -> map (@id F) (store_first l k expense') = map (@id F) l.
Proof.
  intros Hid. induction l as [|x l IH]; simpl; [reflexivity|].
  destruct (Z.eqb_spec (id x) k) as [Hk|Hk]; simpl; congruence.
Qed.

Lemma remove_first_incl (l : list (Expense F)) (k x : Z) :
  In x (map (@id F) (remove_first l k)) -> In x (map (@id F) l).
Proof.
  induction l as [|y l IH]; simpl; [tauto|].
  destruct (Z.eqb_spec (id y) k); simpl; tauto.
Qed.

Lemma remove_first_NoDup (l : list (Expense F)) (k : Z) :
  NoDup (map (@id F) l) -> NoDup (map (@id F) (remove_first l k)).
Proof.
  induction l as [|y l IH]; simpl; [auto|].
  intros Hnd. inversion Hnd as [|? ? Hy Hl]; subst.
  destruct (Z.eqb_spec (id y) k); simpl; [assumption|].
  constructor; [|auto]. intros Hin. apply Hy. eauto using remove_first_incl.
Qed.

Lemma add_expense_ok (expense : ExpenseCreate F) (now : datetime)
    (self : ExpenseService F) :
  store_ok self -> store_ok (snd (add_expense expense now self)).
Proof.
  intros [Hnd Hlt]. unfold store_ok, ids. simpl.
  rewrite map_app. simpl. split.
  - apply NoDup_app; [assumption|repeat constructor; simpl; tauto|].
    intros x Hx [<-|[]]. rewrite Forall_forall in Hlt.
    specialize (Hlt _ Hx). lia.
  - apply Forall_app. split.
    + eapply Forall_impl; [|exact Hlt]. simpl. intros. lia.
    + repeat constructor. lia.
Qed.

Lemma update_expense_ids (k : Z) (u : ExpenseUpdate F) (now : datetime)
    (self : ExpenseService F) :
  ids (snd (update_expense k u now self)) = ids self
  /\ next_id (snd (update_expense k u now self)) = next_id self.
Proof.
  unfold update_expense, get_expense_by_id, ids.
  destruct (find_expense (expenses self) k) as [x|] eqn:Hf; simpl; [|auto].
  split; [|reflexivity]. apply store_first_ids. simpl.
  now destruct (find_expense_Some _ _ Hf).
Qed.

Lemma call_ok (c : Call) (self : ExpenseService F) :
  store_ok self -> store_ok (call c self).
Proof.
  destruct c as [expense now|k u now|k]; simpl.
  - apply add_expense_ok.
  - unfold store_ok. destruct (update_expense_ids k u now self) as [-> ->].
    auto.
  - unfold delete_expense, get_expense_by_id.
    destruct (find_expense (expenses self) k); simpl; [|auto].
    intros [Hnd Hlt]. unfold store_ok, ids. simpl. split.
    + now apply remove_first_NoDup.
    + rewrite Forall_forall in *. intros x Hx.
      apply Hlt. eauto using remove_first_incl.
Qed.

Lemma call_next_id (c : Call) (self : ExpenseService F) :
  next_id self <= next_id (call c self)
  /\ Forall (fun k => next_id self <= k < next_id (call c self))
            (assigned c self).
Proof.
  destruct c as [expense now|k u now|k]; simpl.
  - split; [lia|]. repeat constructor; lia.
  - destruct (update_expense_ids k u now self) as [_ ->].
    split; [lia|constructor].
  - unfold delete_expense, get_expense_by_id.
    destruct (find_expense (expenses self) k); simpl; split;
      (lia || constructor).
Qed.

Lemma run_app (cs1 cs2 : list Call) (self : ExpenseService F) :
  run (cs1 ++ cs2) self
  = (fst (run cs2 (fst (run cs1 self))),
     snd (run cs1 self) ++ snd (run cs2 (fst (run cs1 self)))).
Proof.
  revert self. induction cs1 as [|c cs1 IH]; intros self; simpl.
  - now destruct (run cs2 self).
  - rewrite IH. destruct (run cs1 (call c self)). simpl.
    now rewrite app_assoc.
Qed.

Lemma run_ok (cs : list Call) (self : ExpenseService F) :
  store_ok self -> store_ok (fst (run cs self)).
Proof.
  revert self. induction cs as [|c cs IH]; intros self Hok; simpl; [auto|].
  specialize (IH _ (call_ok c Hok)).
  now destruct (run cs (call c self)).
Qed.

(** The ids assigned by a run start at the counter and increase. *)
Lemma run_assigned (cs : list Call) (self : ExpenseService F) :
  StronglySorted Z.lt (snd (run cs self))
  /\ Forall (fun k => next_id self <= k) (snd (run cs self)).
Proof.
  revert self. induction cs as [|c cs IH]; intros self; simpl.
  - split; constructor.
  - specialize (IH (call c self)).
    destruct (call_next_id c self) as [Hle Hc].
    destruct (run cs (call c self)) as [self' l]. simpl in *.
    destruct IH as [Hs Hf]. rewrite Forall_forall in Hf, Hc.
    split.
    + destruct c; simpl in *; try assumption.
      constructor; [assumption|]. rewrite Forall_forall.
      intros x Hx. specialize (Hf _ Hx). lia.
    + apply Forall_app. split; rewrite Forall_forall; intros x Hx.
      * specialize (Hc _ Hx). lia.
      * specialize (Hf _ Hx). lia.
Qed.

Lemma empty_service_ok : store_ok (@empty_service F).
Proof. split; constructor. Qed.

Lemma add_all_ok (l : list (ExpenseCreate F)) (clock : nat -> datetime)
    (k : nat) (self : ExpenseService F) :
  store_ok self -> store_ok (add_all l clock k self).
Proof.
  revert k self. induction l as [|x l IH]; intros k self Hok; simpl; [auto|].
  apply IH. now apply add_expense_ok.
Qed.

Lemma new_service_ok (clock : nat -> datetime) : store_ok (new_service clock).
Proof. apply add_all_ok, empty_service_ok. Qed.

(** The store of a fresh [ExpenseService()] is the empty store after five
    calls of [add_expense]. *)
Lemma new_service_run (clock : nat -> datetime) :
  new_service clock
  = fst (run (map (fun ke => CallAdd (snd ke) (clock (fst ke)))
                  (combine (seq 0 5) test_expenses))
             empty_service).
Proof. reflexivity. Qed.

Lemma call_stored (c : Call) (self : ExpenseService F) (k : Z) :
  In k (ids (call c self)) -> In k (ids self) \/ In k (assigned c self).
Proof.
  destruct c as [expense now|k' u now|k']; simpl.
  - unfold ids. simpl. rewrite map_app, in_app_iff. simpl. tauto.
  - destruct (update_expense_ids k' u now self) as [-> _]. tauto.
  - unfold delete_expense, get_expense_by_id.
    destruct (find_expense (expenses self) k'); simpl; [|tauto].
    intros Hin. left. eauto using remove_first_incl.
Qed.

Lemma run_stored (cs : list Call) (self : ExpenseService F) (k : Z) :
  In k (ids (fst (run cs self))) ->
  In k (ids self) \/ In k (snd (run cs self)).
Proof.
  revert self. induction cs as [|c cs IH]; intros self; simpl; [tauto|].
  specialize (IH (call c self)).
  destruct (run cs (call c self)) as [self' l]. simpl in *.
  intros Hin. rewrite in_app_iff.
  destruct (IH Hin) as [Hc|Hl]; [|tauto].
  destruct (call_stored _ _ _ Hc); tauto.
Qed.

(** C9. Along every sequence of calls on the store ([add_expense],
    [update_expense], [delete_expense], from the empty store that
    [ExpenseService()] fills with its test data): the stored ids are
    pairwise distinct; the ids assigned, in the order of their assignment,
    are strictly increasing, so each [add_expense] assigns an id greater
    than every id assigned before; and an id that was stored at some point,
    deleted since or not, is one of those assigned before and is never
    assigned again. *)
Theorem ids_unique_increasing_never_reused (cs1 cs2 : list Call) :
  let self1 := fst (run cs1 empty_service) in
  let ids1 := snd (run cs1 empty_service) in
  let self2 := fst (run cs2 self1) in
  let ids2 := snd (run cs2 self1) in
  NoDup (ids self2)
  /\ StronglySorted Z.lt (ids1 ++ ids2)
  /\ (forall k, In k (ids self1) -> In k ids1 /\ ~ In k ids2).
Proof.
  intros self1 ids1 self2 ids2.
  assert (Hok1 : store_ok self1) by apply run_ok, empty_service_ok.
  split; [|split].
  - apply (run_ok cs2 Hok1).
  - pose proof (run_assigned (cs1 ++ cs2) empty_service) as [Hs _].
    now rewrite run_app in Hs.
  - intros k Hk. split.
    + destruct (run_stored cs1 empty_service k Hk) as [[]|]; assumption.
    + intros Hin. destruct Hok1 as [_ Hlt].
      destruct (run_assigned cs2 self1) as [_ Hge].
      rewrite Forall_forall in Hlt, Hge.
      specialize (Hlt _ Hk). specialize (Hge _ Hin). lia.
Qed.

(** C10. [update_expense] and [delete_expense] raise [KeyError] exactly
    when no stored expense has the given id, they raise nothing else, and a
    call that raises leaves the service, so the stored list, as it was. *)
Theorem update_delete_raise_iff_absent (expense_id : Z)
    (expense_update : ExpenseUpdate F) (now : datetime)
    (self : ExpenseService F) :
  let updated := update_expense expense_id expense_update now self in
  let deleted := delete_expense expense_id self in
  (fst updated = Raise (KeyError expense_id) <-> ~ stored self expense_id)
  /\ (fst deleted = Raise (KeyError expense_id) <-> ~ stored self expense_id)
  /\ (forall e, fst updated = Raise e ->
                e = KeyError expense_id /\ snd updated = self)
  /\ (forall e, fst deleted = Raise e ->
                e = KeyError expense_id /\ snd deleted = self).
Proof.
  simpl. rewrite stored_ids. unfold ids.
  rewrite <- find_expense_None.
  unfold update_expense, delete_expense, get_expense_by_id.
  destruct (find_expense (expenses self) expense_id); simpl.
  - repeat split; intros; congruence.
  - repeat split; intros; congruence.
Qed.

End StoreProperties.

(** ** Dicts and sorting *)

Section DictProperties.
Variable V : Type.
Implicit Types (d : dict V) (k : string) (v : V).

Lemma dict_get_set d k v k' :
  dict_get (dict_set d k v) k'
  = if String.eqb k' k then Some v else dict_get d k'.
Proof.
  induction d as [|[k0 v0] d IH]; simpl.
  - reflexivity.
  - destruct (String.eqb_spec k k0) as [->|Hk]; simpl.
    + destruct (String.eqb_spec k' k0); reflexivity.
    + rewrite IH. destruct (String.eqb_spec k' k0) as [->|]; [|reflexivity].
      destruct (String.eqb_spec k0 k); congruence.
Qed.

Lemma dict_get_None d k : dict_get d k = None <-> ~ In k (dict_keys d).
Proof.
  induction d as [|[k0 v0] d IH]; simpl; [tauto|].
  destruct (String.eqb_spec k k0) as [->|Hk].
  - split; [discriminate|tauto].
  - rewrite IH. intuition congruence.
Qed.

Lemma dict_keys_set d k v :
  dict_keys (dict_set d k v)
  = if in_dec string_dec k (dict_keys d) then dict_keys d
    else dict_keys d ++ [k].
Proof.
  induction d as [|[k0 v0] d IH]; simpl; [reflexivity|].
  destruct (String.eqb_spec k k0) as [->|Hk]; simpl.
  - destruct (string_dec k0 k0); [reflexivity|congruence].
  - rewrite IH. destruct (string_dec k0 k); [congruence|].
    now destruct (in_dec string_dec k (dict_keys d)).
Qed.

Lemma dict_keys_set_In d k v k' :
  In k' (dict_keys (dict_set d k v)) <-> In k' (dict_keys d) \/ k' = k.
Proof.
  rewrite dict_keys_set.
  destruct (in_dec string_dec k (dict_keys d)) as [Hin|Hin].
  - intuition congruence.
  - rewrite in_app_iff. simpl. intuition congruence.
Qed.

Lemma dict_keys_set_NoDup d k v :
  NoDup (dict_keys d) -> NoDup (dict_keys (dict_set d k v)).
Proof.
  intros Hnd. rewrite dict_keys_set.
  destruct (in_dec string_dec k (dict_keys d)) as [Hin|Hin]; [assumption|].
  apply NoDup_app; [assumption|repeat constructor; simpl; tauto|].
  intros x Hx [<-|[]]. contradiction.
Qed.

(** A dict filled by a loop that assigns to one key per element. *)
Section Fill.
Variables (A : Type) (key : A -> string) (val : dict V -> A -> V).

Definition fill (l : list A) (d : dict V) : dict V :=
  fold_left (fun d x => dict_set d (key x) (val d x)) l d.

Lemma fill_cons x l d :
  fill (x :: l) d = fill l (dict_set d (key x) (val d x)).
Proof. reflexivity. Qed.

Lemma fill_keys_In l d k :
  In k (dict_keys (fill l d)) <-> In k (dict_keys d) \/ In k (map key l).
Proof.
  revert d. induction l as [|x l IH]; intros d; simpl; [tauto|].
  fold (fill l (dict_set d (key x) (val d x))).
  rewrite IH, dict_keys_set_In. intuition congruence.
Qed.

Lemma fill_keys_NoDup l d :
  NoDup (dict_keys d) -> NoDup (dict_keys (fill l d)).
Proof.
  revert d. induction l as [|x l IH]; intros d Hnd; simpl; [assumption|].
  apply IH. now apply dict_keys_set_NoDup.
Qed.
End Fill.

(** A dict filled from distinct keys lists them in order. *)
Lemma fill_keys_distinct (val : string -> V) (ks : list string) d :
  NoDup (dict_keys d ++ ks) ->
  dict_keys (fill (fun k => k) (fun _ k => val k) ks d) = dict_keys d ++ ks.
Proof.
  revert d. induction ks as [|k ks IH]; intros d Hnd; simpl.
  - now rewrite app_nil_r.
  - fold (fill (fun k => k) (fun _ k => val k) ks (dict_set d k (val k))).
    assert (Hk : dict_keys (dict_set d k (val k)) = dict_keys d ++ [k]).
    { rewrite dict_keys_set.
      destruct (in_dec string_dec k (dict_keys d)) as [Hin|]; [|reflexivity].
      apply NoDup_remove_2 in Hnd. exfalso. apply Hnd.
      rewrite in_app_iff. tauto. }
    rewrite IH; rewrite Hk, <- app_assoc; [reflexivity|assumption].
Qed.

Lemma fill_get_distinct (val : string -> V) (ks : list string) d k :
  dict_get (fill (fun k => k) (fun _ k => val k) ks d) k
  = if in_dec string_dec k ks then Some (val k) else dict_get d k.
Proof.
  revert d. induction ks as [|k0 ks IH]; intros d; simpl; [reflexivity|].
  fold (fill (fun k => k) (fun _ k => val k) ks (dict_set d k0 (val k0))).
  rewrite IH, dict_get_set.
  destruct (in_dec string_dec k ks) as [Hin|Hin].
  - now destruct (string_dec k0 k).
  - destruct (string_dec k0 k) as [->|Hne].
    + now rewrite String.eqb_refl.
    + destruct (String.eqb_spec k k0); congruence.
Qed.

Lemma fill_distinct (val : string -> V) (ks : list string) d :
  NoDup (dict_keys d ++ ks) ->
  fill (fun k => k) (fun _ k => val k) ks d
  = d ++ map (fun k => (k, val k)) ks.
Proof.
revert d. induction ks as [|k ks IH]; intros d Hnd.
- simpl. now rewrite app_nil_r.
- rewrite fill_cons.
  assert (Hk : dict_set d k (val k) = d ++ [(k, val k)]).
  { assert (Hin : ~ In k (dict_keys d)).
    { apply NoDup_remove_2 in Hnd. rewrite in_app_iff in Hnd. tauto. }
    clear -Hin. induction d as [|[k0 v0] d IHd]; simpl; [reflexivity|].
    simpl in Hin. destruct (String.eqb_spec k k0) as [->|_]; [tauto|].
    rewrite IHd; tauto. }
  rewrite Hk, IH.
  + now rewrite <- app_assoc.
  + unfold dict_keys in *. rewrite map_app. simpl. now rewrite <- app_assoc.
Qed.
End DictProperties.

Section SortingProperties.
Variables (A : Type) (before : A -> A -> bool).

Lemma insert_stable_perm (x : A) (l : list A) :
  Permutation (insert_stable before x l) (x :: l).
Proof.
  induction l as [|y l IH]; simpl; [reflexivity|].
  destruct (before y x); [|reflexivity].
  rewrite IH. apply perm_swap.
Qed.

Lemma stable_sort_perm (l : list A) : Permutation (stable_sort before l) l.
Proof.
  induction l as [|x l IH]; simpl; [reflexivity|].
  rewrite insert_stable_perm. now constructor.
Qed.

Lemma stable_sort_length (l : list A) :
  List.length (stable_sort before l) = List.length l.
Proof. apply Permutation_length, stable_sort_perm. Qed.

Lemma stable_sort_In (l : list A) (x : A) :
  In x (stable_sort before l) <-> In x l.
Proof.
  split; apply Permutation_in;
    [apply stable_sort_perm | symmetry; apply stable_sort_perm].
Qed.
End SortingProperties.

(** ** The balance reducer *)

Section ReducerProperties.
Context {F : Type} {num : PyFloat F} {sets : PySet}.

Definition payers (l : list (Expense F)) : list string :=
  map (@paid_by F) l.

(** The number of distinct payers. *)
Definition count_payers (l : list (Expense F)) : Z :=
  Z.of_nat (List.length (nodup string_dec (payers l))).

(** What [p] paid: the amounts of the expenses paid by [p], added up in
    order from the int [0]. *)
Definition paid_of (l : list (Expense F)) (p : string) : F :=
  fold_left fadd
    (map (@amount F) (filter (fun e => String.eqb (paid_by e) p) l)) int0.

Definition total_of (l : list (Expense F)) : F :=
  py_sum (map (@amount F) l).

(** [net[p]] as the specification writes it. *)
Definition net_of (l : list (Expense F)) (p : string) : F :=
  round2 (fsub (paid_of l p) (fdiv (total_of l) (of_int (count_payers l)))).

Lemma unique_people_In (l : list (Expense F)) (p : string) :
  In p (unique_people l) <-> In p (payers l).
Proof. apply set_iter_In. Qed.

Lemma unique_people_count (l : list (Expense F)) :
  Z.of_nat (List.length (unique_people l)) = count_payers l.
Proof.
  unfold count_payers. f_equal. apply Permutation_length.
  apply NoDup_Permutation.
  - apply set_iter_NoDup.
  - apply NoDup_nodup.
  - intros p. rewrite nodup_In. apply unique_people_In.
Qed.

Lemma count_payers_pos (e : Expense F) (l : list (Expense F)) :
  (1 <= count_payers (e :: l))%Z.
Proof.
  unfold count_payers.
  destruct (nodup string_dec (payers (e :: l))) as [|p ps] eqn:Hn.
  - exfalso. assert (Hin : In (paid_by e) (nodup string_dec (payers (e :: l))))
      by (apply nodup_In; simpl; auto).
    now rewrite Hn in Hin.
  - simpl List.length. lia.
Qed.

Lemma paid_loop_get (l : list (Expense F)) (d : dict F) (p : string) :
  dict_get_default
    (fill (@paid_by F)
          (fun d e => fadd (dict_get_default d (paid_by e) int0) (amount e))
          l d) p int0
  = fold_left fadd
      (map (@amount F) (filter (fun e => String.eqb (paid_by e) p) l))
      (dict_get_default d p int0).
Proof.
  revert d. induction l as [|x l IH]; intros d; [reflexivity|].
  rewrite fill_cons, IH. cbn [filter map].
  unfold dict_get_default at 1. rewrite dict_get_set.
  destruct (String.eqb_spec (paid_by x) p) as [->|Hne].
  - now rewrite String.eqb_refl.
  - destruct (String.eqb_spec p (paid_by x)); [congruence|reflexivity].
Qed.

Lemma paid_by_person_get (l : list (Expense F)) (p : string) :
  dict_get_default (paid_by_person l) p int0 = paid_of l p.
Proof. apply (paid_loop_get l [] p). Qed.

Lemma balances_for_get (l : list (Expense F)) (share : F) (p : string) :
  dict_get (balances_for l share) p
  = if in_dec string_dec p (payers l)
    then Some (round2 (fsub (paid_of l p) share)) else None.
Proof.
  unfold balances_for.
  change (fold_left _ (unique_people l) [])
    with (fill (fun k => k)
            (fun _ k =>
               round2 (fsub (dict_get_default (paid_by_person l) k int0) share))
            (unique_people l) []).
  rewrite fill_get_distinct, paid_by_person_get. simpl.
  destruct (in_dec string_dec p (unique_people l)) as [Hin|Hin];
    destruct (in_dec string_dec p (payers l)) as [Hin'|Hin'];
    try reflexivity; rewrite unique_people_In in Hin; contradiction.
Qed.

Lemma balances_for_keys (l : list (Expense F)) (share : F) :
  dict_keys (balances_for l share) = unique_people l.
Proof.
  unfold balances_for.
  change (fold_left _ (unique_people l) [])
    with (fill (fun k => k)
            (fun _ k =>
               round2 (fsub (dict_get_default (paid_by_person l) k int0) share))
            (unique_people l) []).
  rewrite fill_keys_distinct; [reflexivity|]. apply set_iter_NoDup.
Qed.

(** The reducer on a non-empty list: the division is defined and the
    balances are those of the last branch. *)
Lemma reducer_nonempty (e : Expense F) (l : list (Expense F)) (nid : Z) :
  _calculate_individual_balances (mkService (e :: l) nid)
  = Ok (balances_for (e :: l)
          (fdiv (total_of (e :: l)) (of_int (count_payers (e :: l))))).
Proof.
  unfold _calculate_individual_balances, py_div.
  cbn [expenses]. rewrite unique_people_count.
  pose proof (count_payers_pos e l) as Hpos.
  destruct (Z.eqb_spec (count_payers (e :: l)) 0) as [Hz|_]; [lia|].
  reflexivity.
Qed.

(** The balances of a service, whatever its list. *)
Definition balances_of (l : list (Expense F)) : dict F :=
  match l with
  | [] => []
  | _ => balances_for l (fdiv (total_of l) (of_int (count_payers l)))
  end.

Lemma reducer_total (self : ExpenseService F) :
  _calculate_individual_balances self = Ok (balances_of (expenses self)).
Proof.
  destruct self as [[|e l] nid]; [reflexivity|apply reducer_nonempty].
Qed.

Lemma balances_of_get (l : list (Expense F)) (p : string) :
  dict_get (balances_of l) p
  = if in_dec string_dec p (payers l) then Some (net_of l p) else None.
Proof.
  destruct l as [|e l]; [reflexivity|]. apply balances_for_get.
Qed.

Lemma balances_of_keys (l : list (Expense F)) :
  NoDup (dict_keys (balances_of l))
  /\ forall p, In p (dict_keys (balances_of l)) <-> In p (payers l).
Proof.
  destruct l as [|e l]; simpl.
  - split; [constructor|tauto].
  - rewrite balances_for_keys. split; [apply set_iter_NoDup|].
    intros p. apply unique_people_In.
Qed.

(** C1. On the empty list the reducer returns the empty mapping.  On a
    non-empty list it returns a mapping whose keys are the distinct payers,
    each once, and which gives every payer [p] the value
    [round(paid[p] - total / n, 2)], with [total] the sum of all amounts,
    [n] the number of distinct payers and [paid[p]] the sum of the amounts
    of the expenses paid by [p]. *)
Theorem reducer_returns_rounded_net (nid : Z) :
  _calculate_individual_balances (mkService (@nil (Expense F)) nid) = Ok []
  /\ forall (e : Expense F) (l : list (Expense F)),
       let es := e :: l in
       exists balances,
         _calculate_individual_balances (mkService es nid) = Ok balances
         /\ NoDup (dict_keys balances)
         /\ (forall p, In p (dict_keys balances) <-> In p (payers es))
         /\ (forall p, In p (payers es) ->
               dict_get balances p
               = Some (round2 (fsub (paid_of es p)
                                    (fdiv (total_of es)
                                          (of_int (count_payers es)))))).
Proof.
  split; [reflexivity|]. intros e l es.
  exists (balances_of es). split; [apply reducer_total|].
  destruct (balances_of_keys es) as [Hnd Hkeys].
  split; [assumption|]. split; [assumption|].
  intros p Hp. rewrite balances_of_get.
  destruct (in_dec string_dec p (payers es)); [reflexivity|contradiction].
Qed.

(** C8. A non-empty expense list has at least one distinct payer: the
    guard [num_people == 0] is false, the division by [num_people] is
    defined, and the reducer returns the balances of its last branch. *)
Theorem nonempty_list_has_payer (e : Expense F) (l : list (Expense F))
    (nid : Z) :
  let es := e :: l in
  let num_people := Z.of_nat (List.length (unique_people es)) in
  (1 <= num_people)%Z
  /\ (num_people =? 0)%Z = false
  /\ py_div (total_of es) num_people
     = Ok (fdiv (total_of es) (of_int num_people))
  /\ _calculate_individual_balances (mkService es nid)
     = Ok (balances_for es (fdiv (total_of es) (of_int num_people))).
Proof.
  intros es num_people.
  assert (Hn : num_people = count_payers es) by apply unique_people_count.
  pose proof (count_payers_pos e l) as Hpos. fold es in Hpos.
  assert (Hz : (num_people =? 0)%Z = false) by (apply Z.eqb_neq; lia).
  repeat split.
  - lia.
  - assumption.
  - unfold py_div. now rewrite Hz.
  - rewrite Hn. apply reducer_nonempty.
Qed.
Lemma calculate_balances_eq (self : ExpenseService F) :
  calculate_balances self
  = Ok (stable_sort (fun x y => String.ltb (person x) (person y))
          (map (fun pb : string * F =>
                  mkBalanceResponse (fst pb) (fabs (snd pb))
                                    (status_of (snd pb)))
               (balances_of (expenses self)))).
Proof. unfold calculate_balances. now rewrite reducer_total. Qed.

Lemma get_all_people_eq (self : ExpenseService F) :
  get_all_people self
  = Ok (stable_sort (fun x y => String.ltb (name x) (name y))
          (map (fun pd : string * (F * Z) =>
                  mkPersonResponse (fst pd) (fst (snd pd)) (snd (snd pd))
                    (dict_get_default (balances_of (expenses self))
                                      (fst pd) int0))
               (people_data (expenses self)))).
Proof. unfold get_all_people. now rewrite reducer_total. Qed.

Lemma people_data_keys (l : list (Expense F)) :
  NoDup (dict_keys (people_data l))
  /\ forall p, In p (dict_keys (people_data l)) <-> In p (payers l).
Proof.
  unfold people_data.
  change (fold_left _ l [])
    with (fill (@paid_by F)
            (fun data expense =>
               (fadd (fst (dict_get_default data (paid_by expense) (int0, 0%Z)))
                     (amount expense),
                (snd (dict_get_default data (paid_by expense) (int0, 0%Z)) + 1)%Z))
            l []).
  split.
  - apply fill_keys_NoDup. constructor.
  - intros p. rewrite fill_keys_In. simpl. tauto.
Qed.

(** C7. The names in the output of [calculate_balances] (GetBalances) and
    the names in the output of [get_all_people] (GetPeople) are, each
    once, the distinct payers of the stored expenses: a name that paid no
    expense is in neither output. *)
Theorem outputs_name_exactly_the_payers (self : ExpenseService F) :
  exists balances people,
    calculate_balances self = Ok balances
    /\ get_all_people self = Ok people
    /\ NoDup (map (@person F) balances)
    /\ NoDup (map (@name F) people)
    /\ forall p,
         (In p (map (@person F) balances) <-> In p (payers (expenses self)))
         /\ (In p (map (@name F) people) <-> In p (payers (expenses self))).
Proof.
  eexists. eexists.
  split; [apply calculate_balances_eq|].
  split; [apply get_all_people_eq|].
  destruct (balances_of_keys (expenses self)) as [Hnd Hkeys].
  destruct (people_data_keys (expenses self)) as [Hnd' Hkeys'].
  set (bs := map _ (balances_of (expenses self))).
  set (ps := map _ (people_data (expenses self))).
  assert (Hb : map (@person F) bs = dict_keys (balances_of (expenses self))).
  { unfold bs, dict_keys. rewrite map_map. reflexivity. }
  assert (Hp : map (@name F) ps = dict_keys (people_data (expenses self))).
  { unfold ps, dict_keys. rewrite map_map. reflexivity. }
  assert (Pb : Permutation (map (@person F) (stable_sort
                 (fun x y => String.ltb (person x) (person y)) bs))
                 (dict_keys (balances_of (expenses self)))).
  { rewrite <- Hb. apply Permutation_map, stable_sort_perm. }
  assert (Pp : Permutation (map (@name F) (stable_sort
                 (fun x y => String.ltb (name x) (name y)) ps))
                 (dict_keys (people_data (expenses self)))).
  { rewrite <- Hp. apply Permutation_map, stable_sort_perm. }
  split; [eapply Permutation_NoDup; [symmetry; exact Pb|exact Hnd]|].
  split; [eapply Permutation_NoDup; [symmetry; exact Pp|exact Hnd']|].
  intros p. rewrite <- Hkeys at 1. rewrite <- Hkeys'.
  split; split; apply Permutation_in; auto using Permutation_sym.
Qed.

End ReducerProperties.

(** ** The loop of the settlement matcher *)

Lemma list_update_length {A : Type} (l : list A) (n : nat) (x : A) :
  List.length (list_update l n x) = List.length l.
Proof.
revert n. induction l as [|y l IH]; intros [|n]; simpl; auto.
Qed.

Lemma nth_error_list_update {A : Type} (l : list A) (n k : nat) (x y : A) :
  nth_error l n = Some y ->
  nth_error (list_update l n x) k
  = if Nat.eqb k n then Some x else nth_error l k.
Proof.
revert n k. induction l as [|z l IH]; intros [|n] [|k]; simpl;
  try discriminate; try reflexivity.
apply IH.
Qed.

Lemma list_update_same {A : Type} (l : list A) (n : nat) (x : A) :
  nth_error l n = Some x -> list_update l n x = l.
Proof.
revert n. induction l as [|z l IH]; intros [|n]; simpl;
  try discriminate.
- now intros [= ->].
- intros Hn. now rewrite IH.
Qed.

Lemma map_list_update {A B : Type} (f : A -> B) (l : list A) (n : nat)
    (x y : A) :
  nth_error l n = Some y -> f x = f y ->
  map f (list_update l n x) = map f l.
Proof.
revert n. induction l as [|z l IH]; intros [|n]; simpl;
  try discriminate.
- intros [= ->] ->. reflexivity.
- intros Hn Hf. now rewrite IH.
Qed.

Section LoopProperties.
Context {F : Type} {num : PyFloat F}.

Definition people_of (l : list (@Party F)) : list string :=
  map (@party_person F) l.

(** What every iteration keeps: the names in the two lists, the cursors
    within the lists, settlements only from a listed debtor to a listed
    creditor, and an amount below 0.01 for everyone a cursor has passed. *)
Record loop_inv (D C : list (@Party F)) (st : @Loop F) : Prop := {
  inv_debtors : people_of (debtors st) = people_of D;
  inv_creditors : people_of (creditors st) = people_of C;
  inv_i : (i st <= List.length D)%nat;
  inv_j : (j st <= List.length C)%nat;
  inv_settlements :
    forall s, In s (settlements st) ->
      In (from_person s) (people_of D) /\ In (to_person s) (people_of C);
  inv_passed_debtors :
    forall k d, (k < i st)%nat -> nth_error (debtors st) k = Some d ->
      fltb (party_amount d) cent = true;
  inv_passed_creditors :
    forall k c, (k < j st)%nat -> nth_error (creditors st) k = Some c ->
      fltb (party_amount c) cent = true
}.

Lemma loop_cond_true (st : @Loop F) :
  loop_cond st = true ->
  exists d c, nth_error (debtors st) (i st) = Some d
              /\ nth_error (creditors st) (j st) = Some c.
Proof.
unfold loop_cond. rewrite andb_true_iff, !Nat.ltb_lt. intros [Hi Hj].
destruct (nth_error (debtors st) (i st)) as [d|] eqn:Hd;
  [|apply nth_error_None in Hd; lia].
destruct (nth_error (creditors st) (j st)) as [c|] eqn:Hc;
  [|apply nth_error_None in Hc; lia].
eauto.
Qed.

Lemma people_of_length (l l' : list (@Party F)) :
  people_of l = people_of l' -> List.length l = List.length l'.
Proof.
unfold people_of. intros Hp.
rewrite <- (length_map (@party_person F) l), Hp. apply length_map.
Qed.

Lemma loop_init_inv (D C : list (@Party F)) :
  loop_inv D C (mkLoop D C 0 0 []).
Proof.
constructor; simpl; try reflexivity; try lia; try tauto; intros; lia.
Qed.

Lemma loop_body_inv (D C : list (@Party F)) (st : @Loop F) :
  loop_inv D C st -> loop_cond st = true -> loop_inv D C (loop_body st).
Proof.
intros [HD HC Hi Hj Hs Hpd Hpc] Hcond.
destruct (loop_cond_true st Hcond) as (d & c & Hd & Hc).
assert (Hdin : In (party_person d) (people_of D)).
{ rewrite <- HD. apply in_map. eapply nth_error_In, Hd. }
assert (Hcin : In (party_person c) (people_of C)).
{ rewrite <- HC. apply in_map. eapply nth_error_In, Hc. }
unfold loop_cond in Hcond. rewrite andb_true_iff, !Nat.ltb_lt in Hcond.
rewrite (people_of_length _ _ HD), (people_of_length _ _ HC) in Hcond.
unfold loop_body. rewrite Hd, Hc.
set (amount := py_min (party_amount d) (party_amount c)).
destruct (fltb cent amount) eqn:Hamt.
- constructor; cbn [debtors creditors i j settlements party_amount].
  + unfold people_of. rewrite (map_list_update _ _ _ _ Hd); auto.
  + unfold people_of. rewrite (map_list_update _ _ _ _ Hc); auto.
  + destruct (fltb _ cent); lia.
  + destruct (fltb _ cent); lia.
  + intros s. rewrite in_app_iff. intros [Hin|[<-|[]]]; auto.
  + intros k d'. erewrite nth_error_list_update by exact Hd.
    destruct (Nat.eqb_spec k (i st)) as [->|Hne].
    * intros Hk [= <-]. simpl in *.
      destruct (fltb (fsub (party_amount d) amount) cent) eqn:Hlt;
        [reflexivity|lia].
    * intros Hk. apply Hpd. destruct (fltb _ cent); lia.
  + intros k c'. erewrite nth_error_list_update by exact Hc.
    destruct (Nat.eqb_spec k (j st)) as [->|Hne].
    * intros Hk [= <-]. simpl in *.
      destruct (fltb (fsub (party_amount c) amount) cent) eqn:Hlt;
        [reflexivity|lia].
    * intros Hk. apply Hpc. destruct (fltb _ cent); lia.
- rewrite (list_update_same _ _ Hd), (list_update_same _ _ Hc).
  constructor; cbn [debtors creditors i j settlements]; auto.
  + destruct (fltb _ cent); lia.
  + destruct (fltb _ cent); lia.
  + intros k d' Hk Hk'.
    destruct (Nat.eq_dec k (i st)) as [->|Hne].
    * rewrite Hd in Hk'. injection Hk' as <-.
      destruct (fltb (party_amount d) cent); [reflexivity|lia].
    * apply (Hpd k); [destruct (fltb _ cent); lia|assumption].
  + intros k c' Hk Hk'.
    destruct (Nat.eq_dec k (j st)) as [->|Hne].
    * rewrite Hc in Hk'. injection Hk' as <-.
      destruct (fltb (party_amount c) cent); [reflexivity|lia].
    * apply (Hpc k); [destruct (fltb _ cent); lia|assumption].
Qed.

Lemma loop_iter_inv (D C : list (@Party F)) (n : nat) (st : @Loop F) :
  loop_inv D C st -> loop_inv D C (loop_iter n st).
Proof.
revert st. induction n as [|n IH]; intros st Hinv; simpl; [assumption|].
destruct (loop_cond st) eqn:Hcond; [|assumption].
apply IH. now apply loop_body_inv.
Qed.

End LoopProperties.

(** ** The even band *)

(** What the comparisons with [0.01] and [-0.01] owe to the order of the
    numbers: a number whose absolute value is at most [0.01] is neither above
    [0.01] nor below [-0.01]. *)
Class EvenBand (F : Type) {num : PyFloat F} : Prop := {
  band_not_above : forall x, fleb (fabs x) cent = true -> fltb cent x = false;
  band_not_below :
    forall x, fleb (fabs x) cent = true -> fltb x (fopp cent) = false
}.

Module Binary64Facts.
Import Binary64.

Lemma SFcompare_finite_swap (m1 m2 : positive) (e1 e2 : Z) :
  SFcompare (S754_finite false m2 e2) (S754_finite false m1 e1)
  = option_map CompOpp
      (SFcompare (S754_finite false m1 e1) (S754_finite false m2 e2)).
Proof.
simpl. rewrite (Z.compare_antisym e1 e2).
change (Pos.compare_cont Eq m2 m1) with (Pos.compare m2 m1).
change (Pos.compare_cont Eq m1 m2) with (Pos.compare m1 m2).
rewrite (Pos.compare_antisym m1 m2).
destruct (e1 ?= e2)%Z; reflexivity.
Qed.

Lemma SF_band (mc : positive) (ec : Z) (x : spec_float) :
  SFleb (SFabs x) (S754_finite false mc ec) = true ->
  SFltb (S754_finite false mc ec) x = false
  /\ SFltb x (SFopp (S754_finite false mc ec)) = false.
Proof.
destruct x as [s|s| |s m e]; try (destruct s; simpl; auto; discriminate).
- simpl. discriminate.
- unfold SFleb, SFltb, SFabs, SFopp. destruct s.
  + intros Hle. split; [reflexivity|]. simpl in *.
    destruct (e ?= ec)%Z; try reflexivity; try discriminate.
    destruct (Pos.compare_cont Eq m mc); try reflexivity; discriminate.
  + intros Hle. split; [|reflexivity].
    rewrite SFcompare_finite_swap.
    destruct (SFcompare (S754_finite false m e) (S754_finite false mc ec))
      as [[| |]|]; try reflexivity; discriminate.
Qed.

#[export] Instance binary64_band : EvenBand (num := binary64).
Proof.
split; intros x; cbn [fleb fabs fltb fopp cent binary64];
  rewrite leb_spec, abs_spec, !ltb_spec, ?opp_spec;
  change (Prim2SF 0.01) with (S754_finite false 5764607523034235 (-59));
  intros Hle; now destruct (SF_band _ _ _ Hle).
Qed.

End Binary64Facts.

Section MatcherProperties.
Context {F : Type} {num : PyFloat F} {sets : PySet}.

Lemma dict_get_In (V : Type) (d : dict V) (k : string) (v : V) :
  NoDup (dict_keys d) -> In (k, v) d -> dict_get d k = Some v.
Proof.
induction d as [|[k0 v0] d IH]; simpl; [tauto|].
intros Hnd. inversion Hnd as [|? ? Hk0 Hd]; subst.
intros [[= -> ->]|Hin].
- now rewrite String.eqb_refl.
- destruct (String.eqb_spec k k0) as [->|_]; [|auto].
  exfalso. apply Hk0. change k0 with (fst (k0, v)). now apply in_map.
Qed.

Lemma dict_get_Some_In (V : Type) (d : dict V) (k : string) (v : V) :
  dict_get d k = Some v -> In (k, v) d.
Proof.
induction d as [|[k0 v0] d IH]; simpl; [discriminate|].
destruct (String.eqb_spec k k0) as [->|_]; [intros [= ->]|]; auto.
Qed.

Lemma debtors_of_In (balances : dict F) (q : string) :
  In q (people_of (debtors_of balances)) ->
  exists v, In (q, v) balances /\ fltb v neg_cent = true.
Proof.
unfold people_of, debtors_of. rewrite in_map_iff.
intros (d & <- & Hd). apply in_flat_map in Hd as ([k v] & Hin & Hd).
simpl in Hd. destruct (fltb v neg_cent) eqn:Hlt; [|destruct Hd].
destruct Hd as [<-|[]]. simpl. eauto.
Qed.

Lemma creditors_of_In (balances : dict F) (q : string) :
  In q (people_of (creditors_of balances)) ->
  exists v, In (q, v) balances /\ fltb cent v = true.
Proof.
unfold people_of, creditors_of. rewrite in_map_iff.
intros (c & <- & Hc). apply in_flat_map in Hc as ([k v] & Hin & Hc).
simpl in Hc. destruct (fltb v neg_cent); [destruct Hc|].
destruct (fltb cent v) eqn:Hlt; [|destruct Hc].
destruct Hc as [<-|[]]. simpl. eauto.
Qed.

Lemma sort_by_amount_desc_people (l : list (@Party F)) (q : string) :
  In q (people_of (sort_by_amount_desc l)) <-> In q (people_of l).
Proof.
unfold people_of, sort_by_amount_desc.
split; apply Permutation_in, Permutation_map;
  [|symmetry]; apply stable_sort_perm.
Qed.

(** The state of the loop after [n] iterations on given balances. *)
Definition matcher_state (n : nat) (balances : dict F) : @Loop F :=
  loop_iter n (loop_init balances).

Lemma matcher_state_inv (n : nat) (balances : dict F) :
  loop_inv (sort_by_amount_desc (debtors_of balances))
           (sort_by_amount_desc (creditors_of balances))
           (matcher_state n balances).
Proof. apply loop_iter_inv, loop_init_inv. Qed.

(** Every settlement goes from a participant below [-0.01] to one above
    [0.01]. *)
Lemma settlement_parties (n : nat) (balances : dict F)
    (s : SettlementResponse F) :
  In s (settlements (matcher_state n balances)) ->
  (exists v, In (from_person s, v) balances /\ fltb v neg_cent = true)
  /\ (exists v, In (to_person s, v) balances /\ fltb cent v = true).
Proof.
intros Hs.
destruct (inv_settlements (matcher_state_inv n balances) s Hs) as [Hf Ht].
rewrite sort_by_amount_desc_people in Hf, Ht.
split; [now apply debtors_of_In|now apply creditors_of_In].
Qed.

Lemma settle_settlements (fuel : nat) (balances : dict F)
    (l : list (SettlementResponse F)) (s : SettlementResponse F) :
  settle fuel balances = Some l -> In s l ->
  In s (settlements (matcher_state fuel balances)).
Proof.
unfold settle, while_loop, matcher_state. destruct balances as [|b bs].
- intros [= <-] [].
- destruct (loop_cond _); [discriminate|]. now intros [= <-].
Qed.

Context {band : EvenBand}.

Lemma even_band_no_settlement (n : nat) (balances : dict F) (p : string)
    (net : F) (s : SettlementResponse F) :
  NoDup (dict_keys balances) -> dict_get balances p = Some net ->
  fleb (fabs net) cent = true ->
  In s (settlements (matcher_state n balances)) ->
  from_person s <> p /\ to_person s <> p.
Proof.
intros Hnd Hp Hband Hs.
destruct (settlement_parties n balances s Hs) as [[v [Hv Hlt]] [w [Hw Hgt]]].
apply (dict_get_In _ _ _ Hnd) in Hv, Hw.
split; intros Heq; rewrite Heq in *.
- assert (v = net) by congruence. subst v.
  unfold neg_cent in Hlt. rewrite (band_not_below _ Hband) in Hlt.
  discriminate.
- assert (w = net) by congruence. subst w.
  rewrite (band_not_above _ Hband) in Hgt. discriminate.
Qed.

Lemma status_of_band (net : F) :
  fleb (fabs net) cent = true -> status_of net = even.
Proof.
intros Hband. unfold status_of, neg_cent.
now rewrite (band_not_above _ Hband), (band_not_below _ Hband).
Qed.

(** C6. A participant whose net balance [net] has [abs(net) <= 0.01] is
    named by no settlement, neither as [from_person] nor as [to_person],
    among those emitted after any number of iterations of the loop and among
    those [calculate_settlements] returns; and [calculate_balances] has an
    entry for them, which carries [abs(net)] and the status ["even"], as does
    every entry with their name. *)
Theorem even_band_excluded (self : ExpenseService F) (balances : dict F)
    (p : string) (net : F) :
  _calculate_individual_balances self = Ok balances ->
  dict_get balances p = Some net ->
  fleb (fabs net) cent = true ->
  (forall n s, In s (settlements (matcher_state n balances)) ->
     from_person s <> p /\ to_person s <> p)
  /\ (forall fuel result s,
        calculate_settlements fuel self = Ok (Some result) -> In s result ->
        from_person s <> p /\ to_person s <> p)
  /\ exists responses,
       calculate_balances self = Ok responses
       /\ In (mkBalanceResponse p (fabs net) even) responses
       /\ forall b, In b responses -> person b = p -> status b = even.
Proof.
intros Hred Hp Hband.
rewrite reducer_total in Hred. injection Hred as <-.
destruct (balances_of_keys (expenses self)) as [Hnd _].
split; [|split].
- intros n s. now apply even_band_no_settlement with (net := net).
- intros fuel result s. unfold calculate_settlements.
  rewrite reducer_total. simpl. intros [= Hset] Hin.
  apply even_band_no_settlement with (n := fuel) (net := net)
    (balances := balances_of (expenses self)); auto.
  eapply settle_settlements; eauto.
- eexists. split; [apply calculate_balances_eq|]. split.
  + apply stable_sort_In, in_map_iff. exists (p, net). simpl.
    rewrite (status_of_band net Hband). split; [reflexivity|].
    now apply dict_get_Some_In.
  + intros b Hb Hperson. apply stable_sort_In, in_map_iff in Hb.
    destruct Hb as ([k v] & <- & Hin). simpl in *. subst k.
    apply (dict_get_In _ _ _ Hnd) in Hin.
    assert (v = net) by congruence. subst v.
    now apply status_of_band.
Qed.

End MatcherProperties.

(** ** Zero sum and settlement closure, as properties of a snapshot *)

Section ClosureProperties.
Context {F : Type} {num : PyFloat F} {sets : PySet}.

(** "The sum of the net balances is 0 within 0.01". *)
Definition zero_sum (self : ExpenseService F) : Prop :=
  forall balances,
    _calculate_individual_balances self = Ok balances ->
    fleb (fabs (py_sum (map snd balances))) cent = true.

(** Applying a settlement as the property words it: the amount is
    subtracted from the balance of [from_person] and added to the balance of
    [to_person]. *)
Definition apply_settlement (balances : dict F) (s : SettlementResponse F)
    : dict F :=
  let balances' :=
    dict_set balances (from_person s)
      (fsub (dict_get_default balances (from_person s) int0)
            (settlement_amount s)) in
  dict_set balances' (to_person s)
    (fadd (dict_get_default balances' (to_person s) int0)
          (settlement_amount s)).

Definition apply_settlements (balances : dict F)
    (l : list (SettlementResponse F)) : dict F :=
  fold_left apply_settlement l balances.

(** "Applying every emitted settlement leaves every adjusted balance within
    0.01 of zero". *)
Definition settlement_closure (self : ExpenseService F) : Prop :=
  forall fuel balances result,
    _calculate_individual_balances self = Ok balances ->
    calculate_settlements fuel self = Ok (Some result) ->
    forall p v,
      dict_get (apply_settlements balances result) p = Some v ->
      fleb (fabs v) cent = true.




End ClosureProperties.

(** ** The number of settlements *)

Section SettlementCount.
Context {F : Type} {num : PyFloat F}.

(** A number no comparison holds for (a nan, among floats). *)
Definition unordered (z : F) : Prop :=
  forall w, fltb w z = false /\ fltb z w = false.

(** What the count of settlements needs from the numbers: subtracting a
    matched amount [m > 0.01] from itself leaves less than [0.01], unless it
    leaves both parties unordered. *)
Hypothesis min_settles :
  forall x y,
    fltb cent (py_min x y) = true ->
    fltb (fsub (py_min x y) (py_min x y)) cent = true
    \/ (unordered (fsub x (py_min x y)) /\ unordered (fsub y (py_min x y))).

Variables D C : list (@Party F).

(** Both current parties are unordered: the loop runs on without a change. *)
Definition stalled (st : @Loop F) : Prop :=
  exists d c,
    nth_error (debtors st) (i st) = Some d
    /\ nth_error (creditors st) (j st) = Some c
    /\ unordered (party_amount d) /\ unordered (party_amount c).

Definition emitted (st : @Loop F) : nat := List.length (settlements st).

(** Every settlement but at most one moved a cursor, and the one that did
    not stalled the loop. *)
Definition count_inv (st : @Loop F) : Prop :=
  List.length (debtors st) = List.length D
  /\ List.length (creditors st) = List.length C
  /\ (emitted st = 0 \/ emitted st + 1 <= List.length D + List.length C)%nat
  /\ ((emitted st <= i st + j st)%nat
      \/ (stalled st /\ (emitted st <= i st + j st + 1)%nat)).

Lemma stalled_loop_body (st : @Loop F) : stalled st -> loop_body st = st.
Proof.
intros (d & c & Hd & Hc & Ud & Uc).
unfold loop_body. rewrite Hd, Hc. unfold py_min.
destruct (Ud (party_amount c)) as [-> _].
destruct (Ud cent) as [-> ->].
destruct (Uc cent) as [_ ->].
rewrite (list_update_same _ _ Hd), (list_update_same _ _ Hc).
now destruct st.
Qed.

Lemma count_inv_body (st : @Loop F) :
  count_inv st -> loop_cond st = true -> count_inv (loop_body st).
Proof.
intros (HD & HC & Hb & Hij) Hcond.
destruct Hij as [Hij|[Hst Hij]];
  [|rewrite (stalled_loop_body Hst); unfold count_inv; tauto].
destruct (loop_cond_true st Hcond) as (d & c & Hd & Hc).
unfold loop_cond in Hcond. rewrite andb_true_iff, !Nat.ltb_lt in Hcond.
rewrite HD, HC in Hcond.
unfold loop_body. rewrite Hd, Hc.
set (m := py_min (party_amount d) (party_amount c)).
destruct (fltb cent m) eqn:Hamt.
- unfold count_inv, emitted, stalled.
  cbn [debtors creditors i j settlements party_amount].
  rewrite !list_update_length, length_app. simpl List.length.
  split; [assumption|]. split; [assumption|].
  unfold emitted in *. split; [right; lia|].
  destruct (min_settles (party_amount d) (party_amount c) Hamt)
    as [Hlt|[Ud Uc]]; fold m in Hlt || fold m in Ud, Uc.
  + left. unfold m, py_min in *.
    destruct (fltb (party_amount c) (party_amount d)).
    * rewrite Hlt.
      destruct (fltb (fsub (party_amount d) (party_amount c)) cent); lia.
    * rewrite Hlt.
      destruct (fltb (fsub (party_amount c) (party_amount d)) cent); lia.
  + destruct (Ud cent) as [_ ->]. destruct (Uc cent) as [_ ->].
    right. split; [|lia].
    exists (mkParty (party_person d) (fsub (party_amount d) m)).
    exists (mkParty (party_person c) (fsub (party_amount c) m)).
    erewrite !nth_error_list_update by eassumption.
    rewrite !Nat.eqb_refl.
    split; [reflexivity|]. split; [reflexivity|]. split; assumption.
- rewrite (list_update_same _ _ Hd), (list_update_same _ _ Hc).
  unfold count_inv, emitted in *.
  cbn [debtors creditors i j settlements].
  split; [assumption|]. split; [assumption|]. split; [assumption|].
  left. destruct (fltb (party_amount d) cent);
    destruct (fltb (party_amount c) cent); lia.
Qed.

Lemma count_inv_iter (n : nat) (st : @Loop F) :
  count_inv st -> count_inv (loop_iter n st).
Proof.
revert st. induction n as [|n IH]; intros st Hinv; simpl; [assumption|].
destruct (loop_cond st) eqn:Hcond; [|assumption].
apply IH. now apply count_inv_body.
Qed.

Lemma emitted_bound (n : nat) :
  (emitted (loop_iter n (mkLoop D C 0 0 []))
   <= List.length D + List.length C - 1)%nat.
Proof.
assert (Hinit : count_inv (mkLoop D C 0 0 [])).
{ unfold count_inv, emitted. simpl. auto. }
destruct (count_inv_iter n Hinit) as (_ & _ & Hb & _). lia.
Qed.

End SettlementCount.

Module Binary64Matcher.
Import Binary64 Binary64Facts.

Definition SFcent : spec_float := S754_finite false 5764607523034235 (-59).

Lemma Prim2SF_cent : Prim2SF 0.01 = SFcent.
Proof. reflexivity. Qed.

Lemma SFltb_cent (x : spec_float) :
  SFltb SFcent x = true ->
  x = S754_infinity false \/ exists m e, x = S754_finite false m e.
Proof.
destruct x as [s|[|]| |[|] m e]; try discriminate; eauto.
Qed.

Lemma SFsub_diag (s : bool) (m : positive) (e : Z) :
  SF64sub (S754_finite s m e) (S754_finite s m e) = S754_zero false.
Proof.
unfold SF64sub, SFsub. rewrite Z.min_id. unfold shl_align.
rewrite Z.sub_diag. cbn [fst].
replace (cond_Zopp s (Z.pos m) - cond_Zopp s (Z.pos m))%Z with 0%Z by lia.
reflexivity.
Qed.

Lemma nan_unordered (z : float) : Prim2SF z = S754_nan -> unordered z.
Proof.
intros Hz w. cbn [fltb binary64]. rewrite !ltb_spec, Hz.
unfold SFltb. now destruct (Prim2SF w).
Qed.

Lemma finite_sub_diag_small (x : float) (m : positive) (e : Z) :
  Prim2SF x = S754_finite false m e -> (x - x <? 0.01)%float = true.
Proof.
intros Hx. now rewrite ltb_spec, sub_spec, Hx, SFsub_diag.
Qed.

(** Among floats, an amount above 0.01 is a positive number, and its
    difference with itself is 0, or it is infinite; the smaller of two
    amounts is infinite only when both are infinite (or the second one a
    nan), and then both differences are nans. *)
Lemma float_min_settles (x y : float) :
  fltb cent (py_min x y) = true ->
  fltb (fsub (py_min x y) (py_min x y)) cent = true
  \/ (unordered (fsub x (py_min x y)) /\ unordered (fsub y (py_min x y))).
Proof.
unfold py_min. cbn [fltb fsub cent binary64].
destruct (y <? x)%float eqn:Hyx; intros Hgt;
  rewrite ltb_spec, Prim2SF_cent in Hgt;
  destruct (SFltb_cent _ Hgt) as [Hinf|(m & e & Hfin)];
  try (left; eapply finite_sub_diag_small; eassumption).
- rewrite ltb_spec, Hinf in Hyx. exfalso.
  now destruct (Prim2SF x) as [?|[|]| |[|] ? ?].
- right. rewrite ltb_spec, Hinf in Hyx.
  split; apply nan_unordered; rewrite sub_spec, Hinf; [reflexivity|].
  now destruct (Prim2SF y) as [?|[|]| |[|] ? ?].
Qed.

(** The participants with [net < -0.01] and those with [net > 0.01]. *)
Definition owing (balances : dict float) : list (string * float) :=
  filter (fun pb => (snd pb <? - 0.01)%float) balances.

Definition owed (balances : dict float) : list (string * float) :=
  filter (fun pb => (0.01 <? snd pb)%float) balances.

Lemma debtors_of_owing (balances : dict float) :
  List.length (debtors_of balances) = List.length (owing balances).
Proof.
induction balances as [|[k v] l IH]; [reflexivity|].
unfold debtors_of, owing in *. cbn [flat_map filter snd].
change (fltb v neg_cent) with (v <? - 0.01)%float.
rewrite length_app, IH. now destruct (v <? - 0.01)%float.
Qed.

Lemma creditors_of_owed (balances : dict float) :
  (List.length (creditors_of balances) <= List.length (owed balances))%nat.
Proof.
induction balances as [|[k v] l IH]; [reflexivity|].
unfold creditors_of, owed in *. cbn [flat_map filter snd].
change (fltb cent v) with (0.01 <? v)%float.
rewrite length_app.
destruct (fltb v neg_cent); destruct (0.01 <? v)%float;
  cbn [List.length Nat.add]; lia.
Qed.

(** The bound as the property words it, in integers: the settlements
    [calculate_settlements] returns number at most
    [|debtors| + |creditors| - 1]. *)
Definition settlement_count_below_parties (self : ExpenseService float)
    {sets : PySet} : Prop :=
  forall balances fuel result,
    _calculate_individual_balances self = Ok balances ->
    calculate_settlements fuel self = Ok (Some result) ->
    (Z.of_nat (List.length result)
     <= Z.of_nat (List.length (owing balances))
        + Z.of_nat (List.length (owed balances)) - 1)%Z.

(** C5, amended. On every balances mapping, the settlements emitted after
    any number of iterations of the loop, so also those the matcher returns,
    number at most [max(0, |debtors| + |creditors| - 1)], in integers: at
    most [|debtors| + |creditors| - 1] when there is a debtor or a creditor,
    and none when there is no debtor or no creditor; the debtors are the
    participants with [net < -0.01] and the creditors those with
    [net > 0.01]. *)
Theorem settlement_count_bound (balances : dict float) :
  (forall n,
     Z.of_nat (List.length (settlements (matcher_state n balances)))
     <= Z.max 0 (Z.of_nat (List.length (owing balances))
                 + Z.of_nat (List.length (owed balances)) - 1))%Z
  /\ (forall fuel result,
        settle fuel balances = Some result ->
        Z.of_nat (List.length result)
        <= Z.max 0 (Z.of_nat (List.length (owing balances))
                    + Z.of_nat (List.length (owed balances)) - 1))%Z
  /\ (forall n,
        debtors_of balances = [] \/ creditors_of balances = [] ->
        settlements (matcher_state n balances) = []).
Proof.
assert (Hn : forall n,
  (List.length (settlements (matcher_state n balances))
   <= List.length (owing balances) + List.length (owed balances) - 1)%nat).
{ intros n. unfold matcher_state, loop_init.
  pose proof (emitted_bound float_min_settles
                (sort_by_amount_desc (debtors_of balances))
                (sort_by_amount_desc (creditors_of balances)) n) as Hb.
  unfold emitted, sort_by_amount_desc in Hb.
  rewrite !stable_sort_length, debtors_of_owing in Hb.
  pose proof (creditors_of_owed balances).
  unfold sort_by_amount_desc. lia. }
split; [intros n; specialize (Hn n); lia|]. split.
- intros fuel result Hset. specialize (Hn fuel).
  unfold settle, while_loop, matcher_state in *.
  destruct balances as [|b bs]; [injection Hset as <-; simpl; lia|].
  destruct (loop_cond _); [discriminate|]. injection Hset as <-. lia.
- intros n Hempty. unfold matcher_state, loop_init.
  assert (Hc : loop_cond (mkLoop (sort_by_amount_desc (debtors_of balances))
                 (sort_by_amount_desc (creditors_of balances)) 0 0 [])
               = false).
  { unfold loop_cond, sort_by_amount_desc. cbn [debtors creditors i j].
    rewrite !stable_sort_length.
    destruct Hempty as [-> | ->]; simpl; [reflexivity|apply andb_false_r]. }
  destruct n; simpl; [reflexivity|]. now rewrite Hc.
Qed.

End Binary64Matcher.

(** ** Concrete snapshots *)

Module Examples.
Import Binary64 Binary64Facts.
Local Open Scope string_scope.

(** The set order used to compute: first occurrences. *)
Definition first_seen : PySet := FirstSeen.first_seen.
#[export] Existing Instance first_seen.

Definition snapshot (l : list (float * string)) : ExpenseService float :=
  add_all (map (fun ap => mkExpenseCreate (fst ap) "expense" (snd ap)) l)
          (fun k => Z.of_nat k) 0 empty_service.

(** Ann is owed 10, Bob is even, Cid owes 10. *)
Definition ann_bob_cid : ExpenseService float :=
  snapshot [(30, "Ann"); (20, "Bob"); (10, "Cid")]%float.

Lemma even_band_excluded_witness :
  (forall n s,
      In s (settlements
              (matcher_state n [("Ann"%string, 10%float);
                                ("Bob"%string, 0%float);
                                ("Cid"%string, (-10)%float)])) ->
      from_person s <> "Bob"%string /\ to_person s <> "Bob"%string)
  /\ (forall fuel result s,
        calculate_settlements fuel ann_bob_cid = Ok (Some result) ->
        In s result ->
        from_person s <> "Bob"%string /\ to_person s <> "Bob"%string)
  /\ exists responses,
       calculate_balances ann_bob_cid = Ok responses
       /\ In (mkBalanceResponse "Bob" (abs 0) even) responses
       /\ forall b, In b responses -> person b = "Bob"%string ->
                    status b = even.
Proof.
apply (@even_band_excluded float binary64 first_seen binary64_band
         ann_bob_cid
         [("Ann", 10%float); ("Bob", 0%float); ("Cid", (-10)%float)]
         "Bob" 0%float);
  vm_compute; reflexivity.
Defined.

Definition ann_bob_cid_balances : dict float :=
  [("Ann", 10); ("Bob", 0); ("Cid", -10)]%float.

Definition cid_pays_ann : list (SettlementResponse float) :=
  [mkSettlementResponse "Cid" "Ann" 10%float].

(** Ann paid 0.03 and Bob, Cid, Dan and Eve 0.01 each: the total 0.07 does
    not split five ways in cents. *)
Definition five_payers : ExpenseService float :=
  snapshot [(0.03, "Ann"); (0.01, "Bob"); (0.01, "Cid"); (0.01, "Dan");
            (0.01, "Eve")]%float.

Lemma five_payers_balances :
  _calculate_individual_balances five_payers
  = Ok [("Ann", 0.02); ("Bob", -0); ("Cid", -0); ("Dan", -0);
        ("Eve", -0)]%float.
Proof. vm_compute. reflexivity. Qed.


(** C2 fails on [five_payers]: the net balances are 0.02 for Ann and -0.0 for
    the others, and their sum 0.02 is further than 0.01 from 0. *)
Lemma five_payers_not_zero_sum : ~ zero_sum five_payers.
Proof.
intros Hz. specialize (Hz _ five_payers_balances).
vm_compute in Hz. discriminate.
Qed.


(** With the direction as the property words it (the amount subtracted from
    the balance of [from_person] and added to the balance of [to_person]),
    the balances move away from zero: after Cid pays Ann 10, Cid is at -20
    and Ann at 20. *)
Lemma ann_bob_cid_not_closed : ~ settlement_closure ann_bob_cid.
Proof.
intros Hc.
assert (Hb : _calculate_individual_balances ann_bob_cid
             = Ok ann_bob_cid_balances) by (vm_compute; reflexivity).
assert (Hs : calculate_settlements 2 ann_bob_cid = Ok (Some cid_pays_ann))
  by (vm_compute; reflexivity).
specialize (Hc 2%nat _ _ Hb Hs "Ann" 20%float eq_refl).
vm_compute in Hc. discriminate.
Qed.

(** Ann alone pays: her balance is 0, there is no debtor and no creditor. *)
Definition single_payer : ExpenseService float :=
  snapshot [(10, "Ann")]%float.

(** C5 fails on [single_payer] as it is worded: no settlement is returned,
    and with no debtor and no creditor the bound is [-1]. *)
Lemma single_payer_not_bounded :
  ~ Binary64Matcher.settlement_count_below_parties single_payer.
Proof.
intros Hc.
specialize (Hc [("Ann", 0%float)] 0%nat []
               ltac:(vm_compute; reflexivity) ltac:(vm_compute; reflexivity)).
vm_compute in Hc. now apply Hc.
Qed.

End Examples.

(** * More of services.py *)

(** ** add_expense, get_expense_by_id, update_expense, delete_expense *)

Section StoreOperations.
Context {F : Type} {num : PyFloat F}.

Local Open Scope Z_scope.

Lemma find_expense_app (l l' : list (Expense F)) (k : Z) :
  find_expense (l ++ l') k
  = match find_expense l k with
    | Some expense => Some expense
    | None => find_expense l' k
    end.
Proof.
induction l as [|x l IH]; simpl; [reflexivity|].
now destruct (id x =? k).
Qed.

Lemma find_store_first_same (l : list (Expense F)) (k : Z)
    (expense expense' : Expense F) :
  find_expense l k = Some expense -> id expense' = k ->
  find_expense (store_first l k expense') k = Some expense'.
Proof.
intros Hf Hid. induction l as [|x l IH]; simpl in *; [discriminate|].
destruct (Z.eqb_spec (id x) k) as [Hx|Hx]; simpl.
- rewrite Hid, Z.eqb_refl. reflexivity.
- destruct (Z.eqb_spec (id x) k); [contradiction|]. auto.
Qed.

Lemma find_store_first_other (l : list (Expense F)) (k k' : Z)
    (expense' : Expense F) :
  id expense' = k -> k' <> k ->
  find_expense (store_first l k expense') k' = find_expense l k'.
Proof.
intros Hid Hne. induction l as [|x l IH]; simpl; [reflexivity|].
destruct (Z.eqb_spec (id x) k) as [Hx|Hx]; simpl.
- rewrite Hid. destruct (Z.eqb_spec k k'); [congruence|].
  destruct (Z.eqb_spec (id x) k'); [congruence|reflexivity].
- now rewrite IH.
Qed.

Lemma find_remove_first_other (l : list (Expense F)) (k k' : Z) :
  k' <> k -> find_expense (remove_first l k) k' = find_expense l k'.
Proof.
intros Hne. induction l as [|x l IH]; simpl; [reflexivity|].
destruct (Z.eqb_spec (id x) k) as [Hx|Hx]; simpl.
- destruct (Z.eqb_spec (id x) k'); [congruence|reflexivity].
- now rewrite IH.
Qed.

Lemma find_remove_first_same (l : list (Expense F)) (k : Z) :
  NoDup (map (@id F) l) -> find_expense (remove_first l k) k = None.
Proof.
induction l as [|x l IH]; simpl; [reflexivity|].
intros Hnd. inversion Hnd as [|? ? Hx Hl]; subst.
destruct (Z.eqb_spec (id x) k) as [Hk|Hk]; simpl.
- apply find_expense_None. congruence.
- destruct (Z.eqb_spec (id x) k); [contradiction|auto].
Qed.

Lemma remove_first_length (l : list (Expense F)) (k : Z)
    (expense : Expense F) :
  find_expense l k = Some expense ->
  S (List.length (remove_first l k)) = List.length l.
Proof.
induction l as [|x l IH]; simpl; [discriminate|].
destruct (id x =? k); simpl; auto.
Qed.

Lemma remove_first_In (l : list (Expense F)) (k : Z) (x : Expense F) :
  NoDup (map (@id F) l) ->
  (In x (remove_first l k) <-> In x l /\ id x <> k).
Proof.
induction l as [|y l IH]; simpl; [tauto|].
intros Hnd. inversion Hnd as [|? ? Hy Hl]; subst.
destruct (Z.eqb_spec (id y) k) as [Hk|Hk]; simpl.
- split.
  + intros Hin. split; [auto|]. intros Hx. apply Hy.
    rewrite Hk, <- Hx. now apply in_map.
  + intros [[->|Hin] Hx]; [contradiction|assumption].
- rewrite (IH Hl). intuition congruence.
Qed.

(** X1. On the store reached by any sequence of calls, [add_expense]
    returns an expense that carries the given amount, description and payer
    and the time of the call as both timestamps; the expense is appended to
    the stored list, [get_expense_by_id] finds it under its id, and every
    other id is looked up as before. *)
Theorem add_expense_then_get (cs : list Call) (expense : ExpenseCreate F)
    (now : datetime) :
  let self := fst (run cs empty_service) in
  let new_expense := fst (add_expense expense now self) in
  let self' := snd (add_expense expense now self) in
  new_expense
  = mkExpense (next_id self) (create_amount expense)
              (create_description expense) (create_paid_by expense) now now
  /\ get_all_expenses self' = get_all_expenses self ++ [new_expense]
  /\ get_expense_by_id self' (id new_expense) = Ok new_expense
  /\ forall k, k <> id new_expense ->
               get_expense_by_id self' k = get_expense_by_id self k.
Proof.
intros self new_expense self'.
assert (Hok : store_ok self) by apply run_ok, empty_service_ok.
destruct Hok as [_ Hlt].
assert (Hnew : find_expense (expenses self) (next_id self) = None).
{ apply find_expense_None. intros Hin. rewrite Forall_forall in Hlt.
  specialize (Hlt _ Hin). lia. }
repeat split.
- unfold get_expense_by_id, self'. cbn [add_expense snd expenses].
  rewrite find_expense_app. cbn [id new_expense add_expense fst].
  rewrite Hnew. cbn [find_expense id]. now rewrite Z.eqb_refl.
- intros k Hk. unfold get_expense_by_id, self'.
  cbn [add_expense snd expenses]. rewrite find_expense_app.
  destruct (find_expense (expenses self) k); [reflexivity|].
  cbn [find_expense id]. cbn [new_expense add_expense fst id] in Hk.
  destruct (Z.eqb_spec (next_id self) k); [congruence|reflexivity].
Qed.

(** The expense [update_expense] leaves in place of [expense]. *)
Definition updated (expense : Expense F) (expense_update : ExpenseUpdate F)
    (now : datetime) : Expense F :=
  mkExpense (id expense)
    (option_default (update_amount expense_update) (amount expense))
    (option_default (update_description expense_update) (description expense))
    (option_default (update_paid_by expense_update) (paid_by expense))
    (created_at expense) now.

(** X2. When an expense with the given id is stored, [update_expense]
    returns it with the fields of the update that are given, the other
    fields, the id and [created_at] kept and [updated_at] set to the time of
    the call; afterwards [get_expense_by_id] returns this expense under the
    id and what it did before under every other id, and the ids of the
    stored expenses, in order, and the id counter are as before. *)
Theorem update_expense_then_get (expense_id : Z)
    (expense_update : ExpenseUpdate F) (now : datetime)
    (self : ExpenseService F) (expense : Expense F) :
  get_expense_by_id self expense_id = Ok expense ->
  let outcome := update_expense expense_id expense_update now self in
  fst outcome = Ok (updated expense expense_update now)
  /\ get_expense_by_id (snd outcome) expense_id
     = Ok (updated expense expense_update now)
  /\ (forall k, k <> expense_id ->
        get_expense_by_id (snd outcome) k = get_expense_by_id self k)
  /\ ids (snd outcome) = ids self
  /\ next_id (snd outcome) = next_id self.
Proof.
intros Hget outcome.
destruct (update_expense_ids expense_id expense_update now self) as [Hids Hn].
fold outcome in Hids, Hn.
unfold outcome, update_expense. rewrite Hget. cbn [fst snd].
unfold get_expense_by_id in *. cbn [expenses].
destruct (find_expense (expenses self) expense_id) as [x|] eqn:Hf;
  [|discriminate].
injection Hget as ->.
destruct (find_expense_Some _ _ Hf) as [_ Hid].
repeat split.
- erewrite find_store_first_same; eauto.
- intros k Hk. now rewrite find_store_first_other.
- unfold outcome, update_expense, get_expense_by_id in Hids.
  now rewrite Hf in Hids.
Qed.

(** X3. On the store reached by any sequence of calls, when an expense
    with the given id is stored, [delete_expense] returns normally and
    removes that expense and no other: the stored expenses are those stored
    before with another id, one fewer; [get_expense_by_id] then raises
    [KeyError] for the id and returns what it did before for every other
    id; the id counter is as before. *)
Theorem delete_expense_then_get (cs : list Call) (expense_id : Z)
    (expense : Expense F) :
  let self := fst (run cs empty_service) in
  get_expense_by_id self expense_id = Ok expense ->
  let outcome := delete_expense expense_id self in
  fst outcome = Ok tt
  /\ get_expense_by_id (snd outcome) expense_id = Raise (KeyError expense_id)
  /\ (forall k, k <> expense_id ->
        get_expense_by_id (snd outcome) k = get_expense_by_id self k)
  /\ (forall x, In x (expenses (snd outcome))
                <-> In x (expenses self) /\ id x <> expense_id)
  /\ S (List.length (expenses (snd outcome))) = List.length (expenses self)
  /\ next_id (snd outcome) = next_id self.
Proof.
intros self Hget outcome.
assert (Hok : store_ok self) by apply run_ok, empty_service_ok.
destruct Hok as [Hnd _]. unfold ids in Hnd.
unfold outcome, delete_expense. rewrite Hget. cbn [fst snd].
unfold get_expense_by_id in *. cbn [expenses next_id].
destruct (find_expense (expenses self) expense_id) as [x|] eqn:Hf;
  [|discriminate].
split; [reflexivity|].
split; [now rewrite find_remove_first_same|].
split; [intros k Hk; now rewrite find_remove_first_other|].
split; [intros x0; now apply remove_first_In|].
split; [eapply remove_first_length; eauto|reflexivity].
Qed.

End StoreOperations.

(** ** The order of the outputs *)

(** Strings are compared character by character, as Python compares [str]
    (by code point, which is the order of the UTF-8 bytes). *)
Section StringOrder.

Lemma ascii_compare_lt_trans (a b c : Ascii.ascii) :
  Ascii.compare a b = Lt -> Ascii.compare b c = Lt -> Ascii.compare a c = Lt.
Proof.
unfold Ascii.compare. rewrite !N.compare_lt_iff. apply N.lt_trans.
Qed.

Lemma string_compare_refl (a : string) : String.compare a a = Eq.
Proof.
induction a as [|x a IH]; simpl; [reflexivity|].
unfold Ascii.compare. now rewrite N.compare_refl.
Qed.

Lemma string_compare_lt_trans (a b c : string) :
  String.compare a b = Lt -> String.compare b c = Lt ->
  String.compare a c = Lt.
Proof.
revert b c. induction a as [|x a IH]; intros [|y b] [|z c]; simpl;
  try discriminate; try reflexivity.
destruct (Ascii.compare x y) eqn:Hxy; try discriminate;
  destruct (Ascii.compare y z) eqn:Hyz; try discriminate; intros Hab Hbc.
- apply Ascii.compare_eq_iff in Hxy, Hyz. subst.
  unfold Ascii.compare. rewrite N.compare_refl. eauto.
- apply Ascii.compare_eq_iff in Hxy. subst. now rewrite Hyz.
- apply Ascii.compare_eq_iff in Hyz. subst. now rewrite Hxy.
- now rewrite (ascii_compare_lt_trans _ _ _ Hxy Hyz).
Qed.

Lemma string_ltb_asym (a b : string) :
  String.ltb a b = true -> String.ltb b a = false.
Proof.
unfold String.ltb. rewrite (String.compare_antisym a b).
now destruct (String.compare b a).
Qed.

(** "not after" is transitive *)
Lemma string_ltb_false_trans (a b c : string) :
  String.ltb b a = false -> String.ltb c b = false -> String.ltb c a = false.
Proof.
unfold String.ltb.
destruct (String.compare b a) eqn:Hba; try discriminate;
  destruct (String.compare c b) eqn:Hcb; try discriminate; intros _ _.
- apply String.compare_eq_iff in Hba, Hcb. subst.
  now rewrite string_compare_refl.
- apply String.compare_eq_iff in Hba. subst. now rewrite Hcb.
- apply String.compare_eq_iff in Hcb. subst. now rewrite Hba.
- rewrite String.compare_antisym in Hba, Hcb.
  rewrite String.compare_antisym.
  destruct (String.compare a b) eqn:Hab; try discriminate.
  destruct (String.compare b c) eqn:Hbc; try discriminate.
  now rewrite (string_compare_lt_trans _ _ _ Hab Hbc).
Qed.

(** Different strings that are not in the wrong order are in the right
    one. *)
Lemma string_ltb_total (a b : string) :
  a <> b -> String.ltb b a = false -> String.ltb a b = true.
Proof.
unfold String.ltb. rewrite (String.compare_antisym b a).
destruct (String.compare a b) eqn:Hab; simpl; try discriminate;
  try reflexivity.
apply String.compare_eq_iff in Hab. contradiction.
Qed.

End StringOrder.

Section SortedOutput.
Variables (A : Type) (before : A -> A -> bool).
Hypothesis before_asym : forall x y, before x y = true -> before y x = false.
Hypothesis not_before_trans :
  forall x y z,
    before y x = false -> before z y = false -> before z x = false.

Lemma insert_stable_In (x y : A) (l : list A) :
  In y (insert_stable before x l) <-> y = x \/ In y l.
Proof.
split.
- intros Hin. apply (Permutation_in _ (insert_stable_perm before x l)) in Hin.
  simpl in Hin. intuition congruence.
- intros Hin.
  apply (Permutation_in _ (Permutation_sym (insert_stable_perm before x l))).
  simpl. intuition congruence.
Qed.

Lemma insert_stable_sorted (x : A) (l : list A) :
  StronglySorted (fun a b => before b a = false) l ->
  StronglySorted (fun a b => before b a = false) (insert_stable before x l).
Proof.
induction l as [|y l IH]; simpl; intros Hs.
- repeat constructor.
- inversion Hs as [|? ? Hl Hy]; subst. rewrite Forall_forall in Hy.
  destruct (before y x) eqn:Hyx.
  + constructor; [auto|]. rewrite Forall_forall. intros z Hz.
    apply insert_stable_In in Hz as [->|Hz]; auto.
  + constructor; [assumption|]. constructor; [assumption|].
    rewrite Forall_forall. intros z Hz.
    apply not_before_trans with y; auto.
Qed.

(** No element of a sorted list has to come before an earlier one. *)
Lemma stable_sort_sorted (l : list A) :
  StronglySorted (fun a b => before b a = false) (stable_sort before l).
Proof.
induction l as [|x l IH]; simpl; [constructor|].
now apply insert_stable_sorted.
Qed.

End SortedOutput.

(** Sorting records by a string-valued key with distinct values. *)
Lemma sorted_by_distinct_keys (A : Type) (key : A -> string) (l : list A) :
  NoDup (map key l) ->
  StronglySorted (fun a b => String.ltb (key a) (key b) = true)
    (stable_sort (fun x y => String.ltb (key x) (key y)) l).
Proof.
intros Hnd.
assert (Hs := @stable_sort_sorted A (fun x y => String.ltb (key x) (key y))
                (fun x y => string_ltb_asym (key x) (key y))
                (fun x y z => string_ltb_false_trans (key x) (key y) (key z))
                l).
assert (Hnd' : NoDup (map key
                 (stable_sort (fun x y => String.ltb (key x) (key y)) l))).
{ eapply Permutation_NoDup; [|exact Hnd].
  apply Permutation_map, Permutation_sym, stable_sort_perm. }
induction Hs as [|a l' Hl' IH Ha]; [constructor|].
inversion Hnd' as [|? ? Hna Hnl]; subst.
constructor; [auto|].
rewrite Forall_forall in *. intros b Hb.
apply string_ltb_total; [|auto].
intros Heq. apply Hna. rewrite Heq. now apply in_map.
Qed.

(** ** calculate_balances and get_all_people, entry by entry *)

Section Views.
Context {F : Type} {num : PyFloat F} {sets : PySet}.

(** The number of expenses [p] paid. *)
Definition count_of (l : list (Expense F)) (p : string) : Z :=
  Z.of_nat (List.length (filter (fun e => String.eqb (paid_by e) p) l)).

Lemma people_loop_get (l : list (Expense F)) (d : dict (F * Z)) (p : string) :
  dict_get_default
    (fill (@paid_by F)
       (fun data expense =>
          (fadd (fst (dict_get_default data (paid_by expense) (int0, 0%Z)))
                (amount expense),
           (snd (dict_get_default data (paid_by expense) (int0, 0%Z)) + 1)%Z))
       l d) p (int0, 0%Z)
  = (fold_left fadd
       (map (@amount F) (filter (fun e => String.eqb (paid_by e) p) l))
       (fst (dict_get_default d p (int0, 0%Z))),
     (snd (dict_get_default d p (int0, 0%Z)) + count_of l p)%Z).
Proof.
revert d. induction l as [|x l IH]; intros d.
- unfold count_of. cbn [fill fold_left filter map List.length Z.of_nat].
  rewrite Z.add_0_r. now destruct (dict_get_default d p (int0, 0%Z)).
- rewrite fill_cons, IH. unfold count_of. cbn [filter map].
  unfold dict_get_default at 1 4. rewrite dict_get_set.
  destruct (String.eqb_spec (paid_by x) p) as [->|Hne].
  + rewrite String.eqb_refl. cbn [fst snd map fold_left List.length].
    f_equal. lia.
  + destruct (String.eqb_spec p (paid_by x)); [congruence|reflexivity].
Qed.

Lemma people_data_get (l : list (Expense F)) (p : string) :
  dict_get_default (people_data l) p (int0, 0%Z)
  = (paid_of l p, count_of l p).
Proof.
unfold people_data.
change (fold_left _ l [])
  with (fill (@paid_by F)
          (fun data expense =>
             (fadd (fst (dict_get_default data (paid_by expense) (int0, 0%Z)))
                   (amount expense),
              (snd (dict_get_default data (paid_by expense) (int0, 0%Z)) + 1)%Z))
          l []).
rewrite people_loop_get. reflexivity.
Qed.

(** X4. [get_all_people] returns one entry per payer, in strictly
    increasing order of the names; an entry carries what the person paid
    (the amounts of their expenses added up in order), the number of their
    expenses, and the net balance the reducer gives them. *)
Theorem people_entries (self : ExpenseService F) :
  exists balances people,
    _calculate_individual_balances self = Ok balances
    /\ get_all_people self = Ok people
    /\ StronglySorted (fun a b => String.ltb (name a) (name b) = true) people
    /\ (forall p, In p (map (@name F) people) <-> In p (payers (expenses self)))
    /\ Forall (fun r =>
                 In (name r) (payers (expenses self))
                 /\ total_paid r = paid_of (expenses self) (name r)
                 /\ total_expenses r = count_of (expenses self) (name r)
                 /\ dict_get balances (name r) = Some (person_balance r))
              people.
Proof.
exists (balances_of (expenses self)). eexists.
split; [apply reducer_total|]. split; [apply get_all_people_eq|].
destruct (people_data_keys (expenses self)) as [Hnd Hkeys].
split; [|split].
- apply sorted_by_distinct_keys. rewrite map_map. exact Hnd.
- intros p. rewrite <- Hkeys. unfold dict_keys.
  split; apply Permutation_in.
  + rewrite (Permutation_map (@name F) (stable_sort_perm _ _)).
    now rewrite map_map.
  + rewrite (Permutation_map (@name F) (stable_sort_perm _ _)).
    now rewrite map_map.
- rewrite Forall_forall. intros r Hr.
  apply stable_sort_In, in_map_iff in Hr. destruct Hr as ([k v] & <- & Hin).
  cbn [name total_paid total_expenses person_balance fst snd].
  assert (Hk : In k (payers (expenses self))).
  { apply Hkeys. change k with (fst (k, v)). now apply in_map. }
  assert (Hv : v = (paid_of (expenses self) k, count_of (expenses self) k)).
  { rewrite <- people_data_get. unfold dict_get_default.
    now rewrite (dict_get_In _ _ _ Hnd Hin). }
  subst v. cbn [fst snd]. repeat split; try assumption.
  unfold dict_get_default. rewrite balances_of_get.
  now destruct (in_dec string_dec k (payers (expenses self))).
Qed.

(** X5. [calculate_balances] returns one entry per payer, in strictly
    increasing order of the names; an entry carries the absolute value of
    the person's net balance, and the status ["gets"] when the net balance is
    above 0.01, ["owes"] when it is below -0.01, ["even"] otherwise. *)
Theorem balance_entries (self : ExpenseService F) :
  exists balances responses,
    _calculate_individual_balances self = Ok balances
    /\ calculate_balances self = Ok responses
    /\ StronglySorted (fun a b => String.ltb (person a) (person b) = true)
         responses
    /\ (forall p, In p (map (@person F) responses)
                  <-> In p (payers (expenses self)))
    /\ Forall (fun b =>
                 exists net,
                   dict_get balances (person b) = Some net
                   /\ balance b = fabs net
                   /\ status b
                      = if fltb cent net then gets
                        else if fltb net (fopp cent) then owes else even)
              responses.
Proof.
exists (balances_of (expenses self)). eexists.
split; [apply reducer_total|]. split; [apply calculate_balances_eq|].
destruct (balances_of_keys (expenses self)) as [Hnd Hkeys].
split; [|split].
- apply sorted_by_distinct_keys. rewrite map_map. exact Hnd.
- intros p. rewrite <- Hkeys. unfold dict_keys.
  split; apply Permutation_in.
  + rewrite (Permutation_map (@person F) (stable_sort_perm _ _)).
    now rewrite map_map.
  + rewrite (Permutation_map (@person F) (stable_sort_perm _ _)).
    now rewrite map_map.
- rewrite Forall_forall. intros b Hb.
  apply stable_sort_In, in_map_iff in Hb. destruct Hb as ([k v] & <- & Hin).
  exists v. cbn [person balance status fst snd].
  split; [now apply dict_get_In|]. split; reflexivity.
Qed.

Lemma keys_of_payers (A : Type) (l : list (Expense F)) (d : dict A) :
  (forall p, In p (dict_keys d) <-> In p (payers l)) ->
  d = [] <-> l = [].
Proof.
intros Hkeys. split.
- intros ->. destruct l as [|e l]; [reflexivity|].
  destruct (proj2 (Hkeys (paid_by e))). simpl. auto.
- intros ->. destruct d as [|[k v] d]; [reflexivity|].
  destruct (proj1 (Hkeys k)). simpl. auto.
Qed.

Lemma stable_sort_map_nil (A B : Type) (before : B -> B -> bool)
    (f : A -> B) (l : list A) :
  stable_sort before (map f l) = [] <-> l = [].
Proof.
split.
- intros H. apply (f_equal (@List.length B)) in H.
  rewrite stable_sort_length, length_map in H.
  destruct l; [reflexivity|discriminate].
- now intros ->.
Qed.

(** X7. [calculate_balances] and [get_all_people] return an empty list
    exactly when no expense is stored, and with no expense stored
    [calculate_settlements] returns no settlement, whatever the number of
    iterations granted to the loop. *)
Theorem empty_ledger (fuel : nat) (self : ExpenseService F) :
  (calculate_balances self = Ok [] <-> expenses self = [])
  /\ (get_all_people self = Ok [] <-> expenses self = [])
  /\ (expenses self = [] -> calculate_settlements fuel self = Ok (Some [])).
Proof.
split; [|split].
- rewrite calculate_balances_eq. split.
  + intros [= H]. apply stable_sort_map_nil in H.
    now apply (@keys_of_payers _ _ _ (proj2 (balances_of_keys (expenses self)))).
  + intros H.
    apply (@keys_of_payers _ _ _ (proj2 (balances_of_keys (expenses self)))) in H.
    now rewrite H.
- rewrite get_all_people_eq. split.
  + intros [= H]. apply stable_sort_map_nil in H.
    now apply (@keys_of_payers _ _ _ (proj2 (people_data_keys (expenses self)))).
  + intros H.
    apply (@keys_of_payers _ _ _ (proj2 (people_data_keys (expenses self)))) in H.
    now rewrite H.
- destruct self as [l nid]. cbn [expenses]. intros ->. reflexivity.
Qed.

End Views.

(** ** The settlements, one by one *)

Section SettlementShape.
Context {F : Type} {num : PyFloat F} {sets : PySet}.

(** A settlement amount is [round(a, 2)] for a matched amount [a > 0.01]. *)
Definition rounded_match (s : SettlementResponse F) : Prop :=
  exists a, fltb cent a = true /\ settlement_amount s = round2 a.

Lemma loop_body_amounts (st : @Loop F) :
  Forall rounded_match (settlements st) ->
  Forall rounded_match (settlements (loop_body st)).
Proof.
intros Hst. unfold loop_body.
destruct (nth_error (debtors st) (i st)) as [d|]; [|assumption].
destruct (nth_error (creditors st) (j st)) as [c|]; [|assumption].
destruct (fltb cent (py_min (party_amount d) (party_amount c))) eqn:Hamt;
  cbn [settlements]; [|assumption].
apply Forall_app. split; [assumption|].
repeat constructor. unfold rounded_match. cbn [settlement_amount]. eauto.
Qed.

Lemma loop_iter_amounts (n : nat) (st : @Loop F) :
  Forall rounded_match (settlements st) ->
  Forall rounded_match (settlements (loop_iter n st)).
Proof.
revert st. induction n as [|n IH]; intros st Hst; simpl; [assumption|].
destruct (loop_cond st); [|assumption].
now apply IH, loop_body_amounts.
Qed.

(** A creditor is no debtor: the partition tests [balance < -0.01] first. *)
Lemma creditors_of_not_debtors (balances : dict F) (q : string) :
  In q (people_of (creditors_of balances)) ->
  exists v, In (q, v) balances /\ fltb v neg_cent = false.
Proof.
unfold people_of, creditors_of. rewrite in_map_iff.
intros (c & <- & Hc). apply in_flat_map in Hc as ([k v] & Hin & Hc).
simpl in Hc. destruct (fltb v neg_cent) eqn:Hlt; [destruct Hc|].
destruct (fltb cent v); [|destruct Hc].
destruct Hc as [<-|[]]. simpl. eauto.
Qed.

Lemma matcher_settlements_shape (n : nat) (balances : dict F) :
  NoDup (dict_keys balances) ->
  Forall (fun s => from_person s <> to_person s /\ rounded_match s)
         (settlements (matcher_state n balances)).
Proof.
intros Hnd.
assert (Ha : Forall rounded_match (settlements (matcher_state n balances)))
  by (apply loop_iter_amounts; constructor).
rewrite Forall_forall in *. intros s Hs. split; [|auto].
destruct (inv_settlements (matcher_state_inv n balances) s Hs) as [Hf Ht].
rewrite sort_by_amount_desc_people in Hf, Ht.
apply debtors_of_In in Hf as (v & Hv & Hlt).
apply creditors_of_not_debtors in Ht as (w & Hw & Hge).
intros Heq. rewrite Heq in Hv.
apply (dict_get_In _ _ _ Hnd) in Hv. apply (dict_get_In _ _ _ Hnd) in Hw.
congruence.
Qed.

(** X6. [calculate_settlements] raises nothing, and in every settlement it
    returns the payer and the payee are different people and the amount is
    [round(a, 2)] for some [a > 0.01]. *)
Theorem settlements_shape (fuel : nat) (self : ExpenseService F) :
  match calculate_settlements fuel self with
  | Ok (Some result) =>
      Forall (fun s => from_person s <> to_person s /\ rounded_match s) result
  | Ok None => True
  | Raise _ => False
  end.
Proof.
unfold calculate_settlements. rewrite reducer_total. cbn [bind].
destruct (balances_of_keys (expenses self)) as [Hnd _].
pose proof (@matcher_settlements_shape fuel _ Hnd) as Hshape.
unfold settle, while_loop, matcher_state in *.
destruct (balances_of (expenses self)) as [|b bs]; [constructor|].
now destruct (loop_cond _).
Qed.

End SettlementShape.

(** ** The expense counts *)

Section Counts.
Context {F : Type} {num : PyFloat F} {sets : PySet}.

Local Open Scope Z_scope.

Fixpoint Zsum (l : list Z) : Z :=
  match l with
  | [] => 0
  | x :: l' => x + Zsum l'
  end.

Lemma Zsum_perm (l l' : list Z) : Permutation l l' -> Zsum l = Zsum l'.
Proof. induction 1; simpl; lia. Qed.

Lemma Zsum_zero (A : Type) (f : A -> Z) (l : list A) :
  (forall x, In x l -> f x = 0) -> Zsum (map f l) = 0.
Proof.
induction l as [|x l IH]; intros Hf; cbn [map Zsum]; [reflexivity|].
rewrite IH by (intros; apply Hf; simpl; auto).
rewrite Hf by (simpl; auto). reflexivity.
Qed.

Lemma Zsum_plus (A : Type) (f g : A -> Z) (l : list A) :
  Zsum (map (fun x => f x + g x) l) = Zsum (map f l) + Zsum (map g l).
Proof.
induction l as [|x l IH]; cbn [map Zsum]; [reflexivity|]. rewrite IH. lia.
Qed.

Lemma Zsum_indicator (q : string) (U : list string) :
  NoDup U -> In q U ->
  Zsum (map (fun p => if String.eqb q p then 1 else 0) U) = 1.
Proof.
induction U as [|p U IH]; intros Hnd Hin; [destruct Hin|].
inversion Hnd as [|? ? Hp HU]; subst. cbn [map Zsum].
destruct (String.eqb_spec q p) as [->|Hne].
- rewrite Zsum_zero; [reflexivity|].
  intros x Hx. destruct (String.eqb_spec p x); [congruence|reflexivity].
- destruct Hin as [->|Hin]; [congruence|]. rewrite IH; auto.
Qed.

Lemma count_of_sum (U : list string) (l : list (Expense F)) :
  NoDup U -> (forall e, In e l -> In (paid_by e) U) ->
  Zsum (map (count_of l) U) = Z.of_nat (List.length l).
Proof.
intros Hnd. induction l as [|e l IH]; intros HU.
- now apply Zsum_zero.
- assert (Hs : map (count_of (e :: l)) U
               = map (fun p => (if String.eqb (paid_by e) p then 1 else 0)
                               + count_of l p) U).
  { apply map_ext. intros p. unfold count_of. cbn [filter].
    destruct (String.eqb (paid_by e) p); cbn [List.length]; lia. }
  rewrite Hs, Zsum_plus, Zsum_indicator, IH.
  + cbn [List.length]. lia.
  + intros e' He'. apply HU. simpl. auto.
  + assumption.
  + apply HU. simpl. auto.
Qed.

(** X9. The expense counts [get_all_people] reports add up to the number
    of stored expenses. *)
Theorem people_counts_add_up (self : ExpenseService F) :
  exists people,
    get_all_people self = Ok people
    /\ Zsum (map (@total_expenses F) people)
       = Z.of_nat (List.length (expenses self)).
Proof.
eexists. split; [apply get_all_people_eq|].
destruct (people_data_keys (expenses self)) as [Hnd Hkeys].
set (data := people_data (expenses self)) in *.
rewrite (Zsum_perm (Permutation_map _ (stable_sort_perm _ _))).
rewrite map_map. cbn [total_expenses].
transitivity (Zsum (map (count_of (expenses self)) (dict_keys data))).
- unfold dict_keys. rewrite map_map. f_equal. apply map_ext_in.
  intros [k v] Hin. cbn [fst snd].
  assert (Hv : v = (paid_of (expenses self) k, count_of (expenses self) k)).
  { rewrite <- people_data_get. unfold dict_get_default. fold data.
    now rewrite (dict_get_In _ _ _ Hnd Hin). }
  now subst v.
- apply count_of_sum; [assumption|].
  intros e He. apply Hkeys. unfold payers. now apply in_map.
Qed.

End Counts.

(** ** models.py: the validation of amounts *)

Module Validation.
Import Binary64.
Local Open Scope string_scope.

(** [validate_amount] of [ExpenseCreate]: the error message of the
    [ValueError] it raises, or the value it returns. *)
Definition validate_amount (v : float) : string + float :=
  if (v <=? 0)%float then inl "Amount must be positive"
  else if negb (round2 v =? v)%float
       then inl "Amount can have at most 2 decimal places"
       else inr (round2 v).

(** [validate_amount] of [ExpenseUpdate], where the amount is optional. *)
Definition validate_optional_amount (v : option float)
    : string + option float :=
  match v with
  | Some v' =>
      match validate_amount v' with
      | inl message => inl message
      | inr a => inr (Some a)
      end
  | None => inr None
  end.

Lemma SFleb_zero_SFltb (x : spec_float) :
  SFleb x (S754_zero false) = true -> SFltb (S754_zero false) x = false.
Proof. destruct x as [s|[|]| |[|] m e]; simpl; auto; discriminate. Qed.

Lemma SFcompare_pos_refl (x : spec_float) :
  SFltb (S754_zero false) x = true -> SFeqb x x = true.
Proof.
destruct x as [s|[|]| |[|] m e]; try discriminate; try reflexivity.
intros _. unfold SFeqb, SFcompare. rewrite Z.compare_refl.
now rewrite Pos.compare_cont_refl.
Qed.

Lemma SFeqb_pos_eq (x y : spec_float) :
  SFltb (S754_zero false) y = true -> SFeqb x y = true -> x = y.
Proof.
destruct y as [s|[|]| |[|] m e]; try discriminate; intros _.
- destruct x as [s|[|]| |[|] ? ?]; try discriminate. reflexivity.
- destruct x as [s|[|]| |[|] m' e']; try discriminate.
  unfold SFeqb, SFcompare.
  destruct (Z.compare_spec e' e) as [->| |]; try discriminate.
  destruct (Pos.compare_cont Eq m' m) eqn:Hm; try discriminate.
  apply Pos.compare_eq in Hm. now subst.
Qed.

Lemma Prim2SF_zero : Prim2SF 0 = S754_zero false.
Proof. reflexivity. Qed.

(** X8. [validate_amount] accepts exactly the amounts that are above 0 and
    equal to their rounding to 2 places, and returns an accepted amount as it
    is; every other amount (a nan among them) is refused. *)
Theorem validate_amount_accepts (v : float) :
  match validate_amount v with
  | inr a => a = v /\ (0 <? v)%float = true /\ round2 v = v
  | inl _ => (0 <? v)%float = false \/ round2 v <> v
  end.
Proof.
unfold validate_amount.
destruct (v <=? 0)%float eqn:Hle.
- left. rewrite leb_spec, Prim2SF_zero in Hle.
  rewrite ltb_spec, Prim2SF_zero. now apply SFleb_zero_SFltb.
- destruct (0 <? v)%float eqn:Hpos.
  + rewrite ltb_spec, Prim2SF_zero in Hpos.
    destruct (round2 v =? v)%float eqn:Heq; cbn [negb].
    * rewrite eqb_spec in Heq.
      apply (SFeqb_pos_eq _ _ Hpos), Prim2SF_inj in Heq. auto.
    * right. intros Hr. rewrite Hr, eqb_spec in Heq.
      now rewrite (SFcompare_pos_refl _ Hpos) in Heq.
  + destruct (negb (round2 v =? v)%float) eqn:Hneq; [now left|].
    exfalso. apply negb_false_iff in Hneq. rewrite eqb_spec in Hneq.
    rewrite leb_spec, Prim2SF_zero in Hle.
    rewrite ltb_spec, Prim2SF_zero in Hpos.
    unfold SFeqb, SFleb, SFltb in *.
    destruct (Prim2SF v) as [s|[|]| |[|] m e];
      destruct (Prim2SF (round2 v)) as [s'|[|]| |[|] m' e'];
      simpl in *; discriminate.
Qed.

End Validation.

(** ** The store operations on a small ledger *)

Module StoreExamples.
Import Binary64 Examples.
Local Open Scope string_scope.
Local Open Scope Z_scope.

(** Bob's expense of [ann_bob_cid], stored second. *)
Definition bob_expense : Expense float :=
  mkExpense 2 20%float "expense" "Bob" 1 1.

(** An update of the amount alone. *)
Definition amount_update : ExpenseUpdate float :=
  mkExpenseUpdate (Some 25%float) None None.

(** The calls that build [ann_bob_cid]. *)
Definition ann_bob_cid_calls : list (Call (F := float)) :=
  [ CallAdd (mkExpenseCreate 30%float "expense" "Ann") 0;
    CallAdd (mkExpenseCreate 20%float "expense" "Bob") 1;
    CallAdd (mkExpenseCreate 10%float "expense" "Cid") 2 ].

Lemma update_expense_then_get_witness :
  let outcome := update_expense 2 amount_update 7 ann_bob_cid in
  fst outcome = Ok (updated bob_expense amount_update 7)
  /\ get_expense_by_id (snd outcome) 2
     = Ok (updated bob_expense amount_update 7)
  /\ (forall k, k <> 2 ->
        get_expense_by_id (snd outcome) k = get_expense_by_id ann_bob_cid k)
  /\ ids (snd outcome) = ids ann_bob_cid
  /\ next_id (snd outcome) = next_id ann_bob_cid.
Proof.
apply (@update_expense_then_get float 2 amount_update 7 ann_bob_cid
         bob_expense).
vm_compute. reflexivity.
Defined.

Lemma delete_expense_then_get_witness :
  let self := fst (run ann_bob_cid_calls empty_service) in
  let outcome := delete_expense 2 self in
  fst outcome = Ok tt
  /\ get_expense_by_id (snd outcome) 2 = Raise (KeyError 2)
  /\ (forall k, k <> 2 ->
        get_expense_by_id (snd outcome) k = get_expense_by_id self k)
  /\ (forall x, In x (expenses (snd outcome))
                <-> In x (expenses self) /\ id x <> 2)
  /\ S (List.length (expenses (snd outcome))) = List.length (expenses self)
  /\ next_id (snd outcome) = next_id self.
Proof.
apply (@delete_expense_then_get float ann_bob_cid_calls 2
         bob_expense).
vm_compute. reflexivity.
Defined.

End StoreExamples.

(** * The loop of the matcher on binary64 floats *)

Unset Implicit Arguments.

(** ** When the loop ends, and when it does not *)

Section LoopProgress.
Context {F : Type} {num : PyFloat F}.

(** An iteration moves a cursor. *)
Definition advances (st : @Loop F) : Prop :=
  (i st + j st < i (loop_body st) + j (loop_body st))%nat.

Lemma loop_body_lengths (st : @Loop F) :
  List.length (debtors (loop_body st)) = List.length (debtors st)
  /\ List.length (creditors (loop_body st)) = List.length (creditors st).
Proof.
unfold loop_body.
destruct (nth_error (debtors st) (i st)) as [d|]; [|auto].
destruct (nth_error (creditors st) (j st)) as [c|]; [|auto].
destruct (fltb cent (py_min (party_amount d) (party_amount c)));
  cbn [debtors creditors]; now rewrite !list_update_length.
Qed.

Variable Inv : @Loop F -> Prop.

Hypothesis Inv_body :
  forall st, Inv st -> loop_cond st = true ->
             Inv (loop_body st) /\ advances st.

Lemma loop_iter_progress (n : nat) (st : @Loop F) :
  Inv st -> loop_cond (loop_iter n st) = true ->
  List.length (debtors (loop_iter n st)) = List.length (debtors st)
  /\ List.length (creditors (loop_iter n st)) = List.length (creditors st)
  /\ (i st + j st + n <= i (loop_iter n st) + j (loop_iter n st))%nat.
Proof.
revert st. induction n as [|n IH]; intros st Hinv Hcond; cbn [loop_iter] in *.
- repeat split; lia.
- destruct (loop_cond st) eqn:Hst; [|congruence].
  destruct (@Inv_body st Hinv Hst) as [Hinv' Hadv].
  destruct (IH (loop_body st) Hinv' Hcond) as (HD & HC & Hij).
  destruct (loop_body_lengths st) as [HD' HC'].
  unfold advances in Hadv. repeat split; lia.
Qed.

(** With an invariant under which every iteration moves a cursor, the loop
    ends before the iterations number the entries of the two lists. *)
Lemma loop_ends (fuel : nat) (st : @Loop F) :
  Inv st ->
  (List.length (debtors st) + List.length (creditors st)
   <= i st + j st + fuel + 1)%nat ->
  loop_cond (loop_iter fuel st) = false.
Proof.
intros Hinv Hfuel.
destruct (loop_cond (loop_iter fuel st)) eqn:Hcond; [|reflexivity].
destruct (@loop_iter_progress fuel st Hinv Hcond) as (HD & HC & Hij).
unfold loop_cond in Hcond. rewrite andb_true_iff, !Nat.ltb_lt in Hcond.
lia.
Qed.

End LoopProgress.

Section Stall.
Context {F : Type} {num : PyFloat F}.

(** A stalled loop runs for ever. *)
Lemma stalled_forever (st : @Loop F) :
  stalled st -> forall fuel, while_loop fuel st = None.
Proof.
intros Hst fuel.
assert (Hcond : loop_cond st = true).
{ destruct Hst as (d & c & Hd & Hc & _). unfold loop_cond.
  apply andb_true_iff. rewrite !Nat.ltb_lt.
  split; apply nth_error_Some; congruence. }
assert (Hiter : forall n, loop_iter n st = st).
{ induction n as [|n IH]; cbn [loop_iter]; [reflexivity|].
  now rewrite Hcond, (stalled_loop_body Hst). }
unfold while_loop. now rewrite Hiter, Hcond.
Qed.

Lemma debtors_of_intro (balances : dict F) (p : string) (v : F) :
  In (p, v) balances -> fltb v neg_cent = true ->
  In (mkParty p (fabs v)) (debtors_of balances).
Proof.
intros Hin Hlt. unfold debtors_of. apply in_flat_map.
exists (p, v). split; [assumption|]. cbn [fst snd]. rewrite Hlt. now left.
Qed.

Lemma creditors_of_intro (balances : dict F) (p : string) (v : F) :
  In (p, v) balances -> fltb v neg_cent = false -> fltb cent v = true ->
  In (mkParty p v) (creditors_of balances).
Proof.
intros Hin Hge Hlt. unfold creditors_of. apply in_flat_map.
exists (p, v). split; [assumption|]. cbn [fst snd]. rewrite Hge, Hlt.
now left.
Qed.

End Stall.

Section Parties.
Context {F : Type} {num : PyFloat F}.

Lemma debtors_of_party (balances : dict F) (d : @Party F) :
  In d (debtors_of balances) ->
  exists p v, In (p, v) balances /\ fltb v neg_cent = true
              /\ party_amount d = fabs v.
Proof.
unfold debtors_of. intros Hd.
apply in_flat_map in Hd as ([p v] & Hin & Hd). cbn [fst snd] in Hd.
destruct (fltb v neg_cent) eqn:Hlt; [|destruct Hd].
destruct Hd as [<-|[]]. exists p, v. auto.
Qed.

Lemma creditors_of_party (balances : dict F) (c : @Party F) :
  In c (creditors_of balances) ->
  exists p v, In (p, v) balances /\ fltb cent v = true
              /\ party_amount c = v.
Proof.
unfold creditors_of. intros Hc.
apply in_flat_map in Hc as ([p v] & Hin & Hc). cbn [fst snd] in Hc.
destruct (fltb v neg_cent); [destruct Hc|].
destruct (fltb cent v) eqn:Hlt; [|destruct Hc].
destruct Hc as [<-|[]]. exists p, v. auto.
Qed.

Lemma parties_length (balances : dict F) :
  (List.length (debtors_of balances) + List.length (creditors_of balances)
   <= List.length balances)%nat.
Proof.
unfold debtors_of, creditors_of.
induction balances as [|[p v] l IH]; cbn [flat_map List.length fst snd];
  [lia|].
rewrite !length_app.
destruct (fltb v neg_cent); [|destruct (fltb cent v)];
  cbn [List.length]; lia.
Qed.

End Parties.

(** ** Settlement closure on one side *)

Section SettlementClosure.
Context {F : Type} {num : PyFloat F}.








Section Tracking.
Variables D C : list (@Party F).
Hypothesis D_distinct : NoDup (people_of D).
Hypothesis C_distinct : NoDup (people_of C).








End Tracking.




Context {sets : PySet} {band : EvenBand (num := num)}.


End SettlementClosure.

Module ClosureExamples.
Import Binary64 Binary64Facts Examples.
Local Open Scope string_scope.


End ClosureExamples.

(** ** Rounding in the format of the floats *)

Module SpecFloatFacts.
Import Binary64Matcher.
Local Open Scope Z_scope.

(** Hide the powers of two from [lia]. *)
Ltac hide_pow :=
  repeat match goal with
    | |- context [2 ^ ?e] =>
        let x := fresh "pw" in set (x := 2 ^ e) in *; clearbody x
    | H : context [2 ^ ?e] |- _ =>
        let x := fresh "pw" in set (x := 2 ^ e) in *; clearbody x
    end.

(** ** Digits *)

Lemma digits2_pos_bounds (p : positive) :
  2 ^ (Zpos (digits2_pos p) - 1) <= Zpos p < 2 ^ Zpos (digits2_pos p).
Proof.
induction p as [p IH|p IH|]; cbn [digits2_pos].
- rewrite Pos2Z.inj_succ, (Pos2Z.inj_xI p).
  replace (Z.succ (Zpos (digits2_pos p)) - 1) with (Z.succ (Zpos (digits2_pos p) - 1)) by lia.
  rewrite !Z.pow_succ_r by lia. hide_pow. lia.
- rewrite Pos2Z.inj_succ, (Pos2Z.inj_xO p).
  replace (Z.succ (Zpos (digits2_pos p)) - 1) with (Z.succ (Zpos (digits2_pos p) - 1)) by lia.
  rewrite !Z.pow_succ_r by lia. hide_pow. lia.
- simpl. lia.
Qed.

Lemma Zdigits2_bounds (m : Z) :
  0 < m -> 2 ^ (Zdigits2 m - 1) <= m < 2 ^ Zdigits2 m.
Proof.
destruct m as [|p|p]; try lia. intros _. apply digits2_pos_bounds.
Qed.

Lemma Zdigits2_nonneg (m : Z) : 0 <= Zdigits2 m.
Proof. destruct m; simpl; lia. Qed.

Lemma Zdigits2_pos (m : Z) : 0 < m -> 0 < Zdigits2 m.
Proof. destruct m; simpl; lia. Qed.

Lemma Zdigits2_le (m n : Z) : 0 <= n -> 0 <= m < 2 ^ n -> Zdigits2 m <= n.
Proof.
intros Hn [H0 Hm]. destruct (Z.eq_dec m 0) as [->|Hne]; [simpl; lia|].
destruct (Zdigits2_bounds m) as [Hlo _]; [lia|].
destruct (Z.le_gt_cases (Zdigits2 m) n) as [|Hgt]; [assumption|].
assert (2 ^ n <= 2 ^ (Zdigits2 m - 1)) by (apply Z.pow_le_mono_r; lia).
lia.
Qed.

Lemma Zdigits2_ge (m n : Z) : 0 <= n -> 2 ^ n <= m -> n + 1 <= Zdigits2 m.
Proof.
intros Hn Hm.
assert (0 < m) by (pose proof (Z.pow_pos_nonneg 2 n); lia).
destruct (Zdigits2_bounds m) as [_ Hhi]; [lia|].
destruct (Z.le_gt_cases (n + 1) (Zdigits2 m)) as [|Hgt]; [assumption|].
assert (2 ^ Zdigits2 m <= 2 ^ n)
  by (apply Z.pow_le_mono_r; pose proof (Zdigits2_nonneg m); lia).
lia.
Qed.

Lemma Zdigits2_mono (a b : Z) : 0 <= a <= b -> Zdigits2 a <= Zdigits2 b.
Proof.
intros [Ha Hab]. destruct (Z.eq_dec b 0) as [->|Hb].
- assert (a = 0) by lia. subst. lia.
- apply Zdigits2_le; [apply Zdigits2_nonneg|].
  destruct (Zdigits2_bounds b); lia.
Qed.

Lemma pow2_xO (p : positive) : 2 ^ Zpos p~0 = 2 ^ Zpos p * 2 ^ Zpos p.
Proof.
replace (Zpos p~0) with (Zpos p + Zpos p) by lia.
now rewrite Z.pow_add_r by lia.
Qed.

Lemma pow2_xI (p : positive) : 2 ^ Zpos p~1 = 2 * (2 ^ Zpos p * 2 ^ Zpos p).
Proof.
replace (Zpos p~1) with (1 + (Zpos p + Zpos p)) by lia.
now rewrite !Z.pow_add_r by lia.
Qed.

(** ** Shifting right *)

Lemma shr_1_m (mrs : shr_record) :
  0 <= shr_m mrs -> shr_m (shr_1 mrs) = shr_m mrs / 2.
Proof.
intros Hm. rewrite <- Z.div2_div.
destruct mrs as [[|[p|p|]|p] r s]; cbn [shr_m shr_1] in *; try reflexivity.
all: lia.
Qed.

Lemma shr_1_exact (m : Z) :
  0 <= m -> (2 | m) ->
  shr_1 (Build_shr_record m false false) = Build_shr_record (m / 2) false false.
Proof.
intros Hm [k ->]. destruct k as [|k|k]; try lia; [reflexivity|].
rewrite Z.div_mul by lia.
replace (Z.pos k * 2) with (Z.pos k~0) by lia. reflexivity.
Qed.

Lemma iter_shr_1_m (p : positive) (mrs : shr_record) :
  0 <= shr_m mrs ->
  shr_m (iter_pos shr_1 p mrs) = shr_m mrs / 2 ^ Zpos p.
Proof.
revert mrs. induction p as [p IH|p IH|]; intros mrs Hm; cbn [iter_pos].
- assert (H1 : 0 <= shr_m (shr_1 mrs)) by (rewrite shr_1_m by lia; apply Z.div_pos; lia).
  assert (Hp : 0 < 2 ^ Zpos p) by (apply Z.pow_pos_nonneg; lia).
  assert (H2 : 0 <= shr_m (iter_pos shr_1 p (shr_1 mrs)))
    by (rewrite IH by lia; apply Z.div_pos; lia).
  rewrite IH, IH, shr_1_m by lia.
  rewrite !Z.div_div by lia. f_equal.
  rewrite pow2_xI. ring.
- assert (Hp : 0 < 2 ^ Zpos p) by (apply Z.pow_pos_nonneg; lia).
  assert (H2 : 0 <= shr_m (iter_pos shr_1 p mrs))
    by (rewrite IH by lia; apply Z.div_pos; lia).
  rewrite IH, IH by lia.
  rewrite !Z.div_div by lia. f_equal.
  now rewrite pow2_xO.
- now rewrite shr_1_m.
Qed.

Lemma divide_mul_div (a b m : Z) :
  0 < a -> (a * b | m) -> (a | m) /\ (b | m / a).
Proof.
intros Ha [k ->]. split.
- exists (k * b). ring.
- exists k. replace (k * (a * b)) with (k * b * a) by ring.
  now rewrite Z.div_mul by lia.
Qed.

Lemma iter_shr_1_exact (p : positive) (m : Z) :
  0 <= m -> (2 ^ Zpos p | m) ->
  iter_pos shr_1 p (Build_shr_record m false false)
  = Build_shr_record (m / 2 ^ Zpos p) false false.
Proof.
revert m. induction p as [p IH|p IH|]; intros m Hm Hd; cbn [iter_pos].
- assert (Hp : 0 < 2 ^ Zpos p) by (apply Z.pow_pos_nonneg; lia).
  rewrite pow2_xI in *.
  destruct (divide_mul_div 2 _ m ltac:(lia) Hd) as [H2 Hd'].
  destruct (divide_mul_div _ _ _ Hp Hd') as [Hd1 Hd2].
  rewrite shr_1_exact, IH, IH; try assumption.
  + f_equal. rewrite !Z.div_div by lia. f_equal; ring.
  + apply Z.div_pos; [apply Z.div_pos|]; lia.
  + apply Z.div_pos; lia.
- assert (Hp : 0 < 2 ^ Zpos p) by (apply Z.pow_pos_nonneg; lia).
  rewrite pow2_xO in *.
  destruct (divide_mul_div _ _ _ Hp Hd) as [Hd1 Hd2].
  rewrite IH, IH; try assumption.
  + f_equal. now rewrite !Z.div_div by lia.
  + apply Z.div_pos; lia.
- now apply shr_1_exact.
Qed.

Lemma Zdigits2_unique (x d : Z) :
  0 < x -> 2 ^ (d - 1) <= x < 2 ^ d -> Zdigits2 x = d.
Proof.
intros Hx [Hlo Hhi].
assert (Hd : 1 <= d).
{ destruct (Z.le_gt_cases 1 d) as [|Hlt]; [assumption|].
  destruct (Z.eq_dec d 0) as [->|Hne]; [change (2 ^ 0) with 1 in Hhi; lia|].
  rewrite (Z.pow_neg_r 2 d) in Hhi by lia. lia. }
pose proof (Zdigits2_le x d ltac:(lia) ltac:(lia)).
pose proof (Zdigits2_ge x (d - 1) ltac:(lia) Hlo). lia.
Qed.

Lemma Zdigits2_shiftl (m k : Z) :
  0 < m -> 0 <= k -> Zdigits2 (m * 2 ^ k) = Zdigits2 m + k.
Proof.
intros Hm Hk. destruct (Zdigits2_bounds m Hm) as [Hlo Hhi].
pose proof (Zdigits2_pos m Hm) as Hd.
assert (Hp : 0 < 2 ^ k) by (apply Z.pow_pos_nonneg; lia).
apply Zdigits2_unique; [nia|].
replace (Zdigits2 m + k - 1) with (Zdigits2 m - 1 + k) by lia.
rewrite !Z.pow_add_r by lia. hide_pow. nia.
Qed.

Lemma Zdigits2_shiftr (m k : Z) :
  0 < m -> 0 <= k < Zdigits2 m -> Zdigits2 (m / 2 ^ k) = Zdigits2 m - k.
Proof.
intros Hm Hk. destruct (Zdigits2_bounds m Hm) as [Hlo Hhi].
assert (Hp : 0 < 2 ^ k) by (apply Z.pow_pos_nonneg; lia).
assert (Hlo' : 2 ^ (Zdigits2 m - k - 1) * 2 ^ k <= m).
{ rewrite <- Z.pow_add_r by lia.
  now replace (Zdigits2 m - k - 1 + k) with (Zdigits2 m - 1) by lia. }
assert (Hhi' : m < 2 ^ (Zdigits2 m - k) * 2 ^ k).
{ rewrite <- Z.pow_add_r by lia.
  now replace (Zdigits2 m - k + k) with (Zdigits2 m) by lia. }
assert (H1 : 2 ^ (Zdigits2 m - k - 1) <= m / 2 ^ k)
  by (apply Z.div_le_lower_bound; lia).
assert (H2 : m / 2 ^ k < 2 ^ (Zdigits2 m - k))
  by (apply Z.div_lt_upper_bound; lia).
assert (0 < 2 ^ (Zdigits2 m - k - 1)) by (apply Z.pow_pos_nonneg; lia).
apply Zdigits2_unique; lia.
Qed.

(** ** Aligning *)

Lemma shl_align_ge (m : positive) (e e' : Z) :
  e <= e' -> shl_align m e e' = (m, e).
Proof.
intros He. unfold shl_align. destruct (e' - e) eqn:Hd; try reflexivity. lia.
Qed.

Lemma shl_align_lt (m : positive) (e e' : Z) :
  e' < e ->
  exists m', shl_align m e e' = (m', e')
             /\ Zpos m' = Zpos m * 2 ^ (e - e').
Proof.
intros He. unfold shl_align. destruct (e' - e) as [|d|d] eqn:Hd; try lia.
exists (Pos.iter xO m d). split; [reflexivity|].
change (Pos.iter xO m d) with (shift_pos d m).
rewrite shift_pos_correct, Z.pow_pos_fold.
replace (e - e') with (Zpos d) by lia. ring.
Qed.

Lemma shl_align_le (m : positive) (e e' : Z) :
  e' <= e ->
  exists m', shl_align m e e' = (m', e')
             /\ Zpos m' = Zpos m * 2 ^ (e - e').
Proof.
intros He. destruct (Z.eq_dec e e') as [<-|Hne].
- exists m. rewrite shl_align_ge by lia. rewrite Z.sub_diag.
  split; [reflexivity|]. change (2 ^ 0) with 1. lia.
- apply shl_align_lt. lia.
Qed.

(** ** The grid of the multiples of [2^-58] *)

(** [m * 2^e] is a multiple of [2^-58]. *)
Definition on_grid (m e : Z) : Prop := (2 ^ Z.max 0 (-58 - e) | m).

Lemma on_grid_above (m e : Z) : -58 <= e -> on_grid m e.
Proof.
intros He. unfold on_grid. replace (Z.max 0 (-58 - e)) with 0 by lia.
apply Z.divide_1_l.
Qed.

Lemma on_grid_align (m e e' : Z) :
  e' <= e -> on_grid m e -> on_grid (m * 2 ^ (e - e')) e'.
Proof.
unfold on_grid. intros He [t ->].
destruct (Z.le_gt_cases (-58) e) as [Hge|Hlt].
- replace (Z.max 0 (-58 - e)) with 0 by lia. change (2 ^ 0) with 1.
  destruct (Z.le_gt_cases (-58) e') as [Hge'|Hlt'].
  + replace (Z.max 0 (-58 - e')) with 0 by lia. apply Z.divide_1_l.
  + replace (Z.max 0 (-58 - e')) with (-58 - e') by lia.
    exists (t * 2 ^ (e + 58)).
    replace (e - e') with ((e + 58) + (-58 - e')) by lia.
    rewrite Z.pow_add_r by lia. ring.
- replace (Z.max 0 (-58 - e)) with (-58 - e) by lia.
  replace (Z.max 0 (-58 - e')) with ((-58 - e) + (e - e')) by lia.
  exists t. rewrite Z.pow_add_r by lia. ring.
Qed.

Lemma on_grid_sub (a b e : Z) :
  on_grid a e -> on_grid b e -> on_grid (a - b) e.
Proof. unfold on_grid. apply Z.divide_sub_r. Qed.

Lemma on_grid_abs (a e : Z) : on_grid a e -> on_grid (Z.abs a) e.
Proof. unfold on_grid. intros H. now apply Z.divide_abs_r. Qed.

(** An exact shift to a higher exponent, still below [-58]. *)
Lemma on_grid_shiftr (m e n : Z) :
  0 <= n -> e + n <= -58 -> on_grid m e ->
  (2 ^ n | m) /\ on_grid (m / 2 ^ n) (e + n).
Proof.
unfold on_grid. intros Hn He [t ->].
replace (Z.max 0 (-58 - e)) with ((-58 - (e + n)) + n) by lia.
replace (Z.max 0 (-58 - (e + n))) with (-58 - (e + n)) by lia.
rewrite Z.pow_add_r by lia.
assert (Hp : 0 < 2 ^ n) by (apply Z.pow_pos_nonneg; lia).
split.
- exists (t * 2 ^ (-58 - (e + n))). ring.
- exists t. rewrite Z.mul_assoc, Z.div_mul by lia. reflexivity.
Qed.

Section Rounding.
Variables prec emax : Z.

Lemma shr_spec (mrs : shr_record) (e n : Z) :
  0 <= shr_m mrs ->
  exists mrs',
    shr mrs e n = (mrs', e + Z.max 0 n)
    /\ shr_m mrs' = shr_m mrs / 2 ^ Z.max 0 n
    /\ (shr_r mrs = false -> shr_s mrs = false ->
        (2 ^ Z.max 0 n | shr_m mrs) ->
        shr_r mrs' = false /\ shr_s mrs' = false).
Proof.
intros Hm. destruct n as [|p|p]; cbn [shr].
- exists mrs. rewrite Z.add_0_r. cbn [Z.max]. change (2 ^ 0) with 1.
  rewrite Z.div_1_r. auto.
- exists (iter_pos shr_1 p mrs).
  replace (Z.max 0 (Zpos p)) with (Zpos p) by lia.
  split; [reflexivity|]. split; [now apply iter_shr_1_m|].
  intros Hr Hs Hd. destruct mrs as [m r s]. cbn [shr_m shr_r shr_s] in *.
  subst r s. rewrite iter_shr_1_exact by assumption. auto.
- exists mrs. replace (Z.max 0 (Zneg p)) with 0 by lia.
  rewrite Z.add_0_r. change (2 ^ 0) with 1. rewrite Z.div_1_r. auto.
Qed.

Lemma shr_record_of_loc_m (m : Z) (l : location) :
  shr_m (shr_record_of_loc m l) = m.
Proof. now destruct l as [|[| |]]. Qed.

Lemma round_nearest_even_range (m : Z) (l : location) :
  m <= round_nearest_even m l <= m + 1.
Proof.
destruct l as [|[| |]]; cbn [round_nearest_even];
  try destruct (Z.even m); lia.
Qed.

(** The result of [binary_round_aux] on a mantissa that is not negative:
    [n1] digits are shifted out, the mantissa is rounded to [mr], and [n2]
    more digits are shifted out. *)
Lemma binary_round_aux_spec (sx : bool) (mx ex : Z) (lx : location) (n1 : Z) :
  0 <= mx ->
  n1 = Z.max 0 (fexp prec emax (Zdigits2 mx + ex) - ex) ->
  exists mr,
    mx / 2 ^ n1 <= mr <= mx / 2 ^ n1 + 1
    /\ (lx = loc_Exact -> (2 ^ n1 | mx) -> mr = mx / 2 ^ n1)
    /\ forall n2,
         n2 = Z.max 0 (fexp prec emax (Zdigits2 mr + (ex + n1)) - (ex + n1)) ->
         binary_round_aux prec emax sx mx ex lx
         = match mr / 2 ^ n2 with
           | Z0 => S754_zero sx
           | Zpos m =>
               if ex + n1 + n2 <=? emax - prec
               then S754_finite sx m (ex + n1 + n2)
               else S754_infinity sx
           | Zneg _ => S754_nan
           end.
Proof.
intros Hm ->. unfold binary_round_aux, shr_fexp.
set (n1 := Z.max 0 (fexp prec emax (Zdigits2 mx + ex) - ex)).
destruct (shr_spec (shr_record_of_loc mx lx) ex
            (fexp prec emax (Zdigits2 mx + ex) - ex))
  as (mrs1 & Hshr1 & Hm1 & Hex1); [rewrite shr_record_of_loc_m; lia|].
rewrite shr_record_of_loc_m in Hm1. fold n1 in Hshr1, Hm1, Hex1.
rewrite Hshr1.
set (mr := round_nearest_even (shr_m mrs1) (loc_of_shr_record mrs1)).
assert (Hmr : mx / 2 ^ n1 <= mr <= mx / 2 ^ n1 + 1)
  by (rewrite <- Hm1; apply round_nearest_even_range).
assert (Hm1pos : 0 <= mx / 2 ^ n1)
  by (apply Z.div_pos; [lia|apply Z.pow_pos_nonneg; lia]).
destruct (shr_spec (shr_record_of_loc mr loc_Exact) (ex + n1)
            (fexp prec emax (Zdigits2 mr + (ex + n1)) - (ex + n1)))
  as (mrs2 & Hshr2 & Hm2 & _); [rewrite shr_record_of_loc_m; lia|].
rewrite shr_record_of_loc_m in Hm2. rewrite Hshr2, Hm2.
exists mr. split; [assumption|]. split; [|now intros n2 ->].
intros -> Hd. unfold mr. rewrite shr_record_of_loc_m in Hex1.
destruct (Hex1 eq_refl eq_refl Hd) as [Hr Hs].
destruct mrs1 as [m r s]. cbn [shr_r shr_s shr_m] in *. subst r s m.
reflexivity.
Qed.

End Rounding.

(** ** binary64 *)

Lemma fexp64 (e : Z) : fexp prec emax e = Z.max (e - 53) (-1074).
Proof. reflexivity. Qed.

(** Zeros, and the finite numbers of sign [sx] on the grid. *)
Definition good (sx : bool) (x : spec_float) : Prop :=
  match x with
  | S754_zero _ => True
  | S754_finite s m e => s = sx /\ on_grid (Zpos m) e
  | _ => False
  end.

Lemma finish_finite (sx : bool) (v e : Z) :
  0 < v -> e <= 971 -> on_grid v e ->
  good sx match v with
          | Z0 => S754_zero sx
          | Zpos m =>
              if e <=? emax - prec then S754_finite sx m e
              else S754_infinity sx
          | Zneg _ => S754_nan
          end.
Proof.
intros Hv He Hg. destruct v as [|m|m]; try lia.
replace (e <=? emax - prec) with true
  by (symmetry; apply Z.leb_le; unfold emax, prec; lia).
split; [reflexivity|exact Hg].
Qed.

(** A mantissa with at most as many digits as the format has is not
    rounded. *)
Lemma binary_round_exact (sx : bool) (P : positive) (ez : Z) :
  let E1 := fexp prec emax (Zdigits2 (Zpos P) + ez) in
  E1 <= ez -> E1 <= 971 ->
  exists mz,
    Zpos mz = Zpos P * 2 ^ (ez - E1)
    /\ binary_round prec emax sx P ez = S754_finite sx mz E1.
Proof.
intros E1 Hle Hmax. unfold binary_round.
change (Zpos (digits2_pos P)) with (Zdigits2 (Zpos P)). fold E1.
destruct (shl_align_le P ez E1 Hle) as (mz & -> & Hmz).
exists mz. split; [assumption|].
assert (Hdz : Zdigits2 (Zpos mz) + E1 = Zdigits2 (Zpos P) + ez)
  by (rewrite Hmz, Zdigits2_shiftl; lia).
destruct (binary_round_aux_spec prec emax sx (Zpos mz) E1 loc_Exact 0
            ltac:(lia) ltac:(rewrite Hdz; fold E1; lia))
  as (mr & _ & Hexact & Hres).
change (2 ^ 0) with 1 in Hexact. rewrite Z.div_1_r in Hexact.
rewrite (Hexact eq_refl (Z.divide_1_l _)) in Hres.
rewrite (Hres 0) by (rewrite Z.add_0_r, Hdz; fold E1; lia).
change (2 ^ 0) with 1. rewrite Z.div_1_r, !Z.add_0_r.
now replace (E1 <=? emax - prec) with true
  by (symmetry; apply Z.leb_le; unfold emax, prec; lia).
Qed.

(** Rounding a positive number that is below a number of the format gives
    a number of the format: it does not overflow. *)
Lemma binary_round_finite (sx : bool) (P : positive) (ez mx ex : Z) :
  -1074 <= ez -> ez <= ex <= 971 -> 0 < mx < 2 ^ 53 ->
  Zpos P < mx * 2 ^ (ex - ez) ->
  exists m e,
    binary_round prec emax sx P ez = S754_finite sx m e
    /\ fexp prec emax (Zdigits2 (Zpos P) + ez) <= e.
Proof.
intros Hez Hex Hmx Hlt.
set (d := Zdigits2 (Zpos P)).
destruct (Zdigits2_bounds (Zpos P) ltac:(lia)) as [Hlo Hhi]. fold d in Hlo, Hhi.
assert (Hd : 0 < d) by (apply Zdigits2_pos; lia).
assert (HdE : d <= 53 + (ex - ez)).
{ apply Zdigits2_le; [lia|]. split; [lia|].
  rewrite Z.pow_add_r by lia.
  assert (0 < 2 ^ (ex - ez)) by (apply Z.pow_pos_nonneg; lia).
  nia. }
rewrite fexp64. set (E1 := Z.max (d + ez - 53) (-1074)).
destruct (Z.le_gt_cases E1 ez) as [Hcase|Hcase].
- destruct (binary_round_exact sx P ez) as (mz & _ & Hr);
    try (fold d; rewrite fexp64; fold E1; lia).
  fold d in Hr. rewrite fexp64 in Hr. fold E1 in Hr.
  exists mz, E1. split; [exact Hr|lia].
- (* more than 53 digits: the mantissa is shifted right *)
  unfold binary_round.
  change (Zpos (digits2_pos P)) with (Zdigits2 (Zpos P)). fold d.
  rewrite fexp64. fold E1. rewrite shl_align_ge by lia.
  set (n1 := E1 - ez).
  destruct (binary_round_aux_spec prec emax sx (Zpos P) ez loc_Exact n1
              ltac:(lia) ltac:(fold d; rewrite fexp64; fold E1; lia))
    as (mr & Hmr & _ & Hres).
  replace (ez + n1) with E1 in Hres by lia.
  assert (Hp1 : 0 < 2 ^ n1) by (apply Z.pow_pos_nonneg; lia).
  assert (HE1 : E1 = d + ez - 53) by lia.
  assert (Hn1 : n1 = d - 53) by lia.
  assert (Hd1 : Zdigits2 (Zpos P / 2 ^ n1) = 53).
  { rewrite Zdigits2_shiftr; fold d; lia. }
  set (m1 := Zpos P / 2 ^ n1) in *.
  assert (Hm1 : 2 ^ 52 <= m1 < 2 ^ 53).
  { assert (Hm1pos : 0 < m1).
    { destruct (Z.eq_dec m1 0) as [H0|]; [|
        assert (0 <= m1) by (apply Z.div_pos; lia); lia].
      rewrite H0 in Hd1. discriminate. }
    pose proof (Zdigits2_bounds m1 Hm1pos) as Hb. now rewrite Hd1 in Hb. }
  set (n2 := Z.max 0 (fexp prec emax (Zdigits2 mr + E1) - E1)).
  rewrite (Hres n2 eq_refl).
  assert (Hdr : 53 <= Zdigits2 mr <= 54).
  { split.
    - rewrite <- Hd1. apply Zdigits2_mono. lia.
    - apply Zdigits2_le; [lia|]. change (2 ^ 54) with (2 * 2 ^ 53). lia. }
  assert (Hn2 : 0 <= n2 <= 1 /\ E1 + n2 <= 971).
  { unfold n2. rewrite fexp64.
    destruct (Z.eq_dec E1 ex) as [Heq|Hne]; [|lia].
    assert (Hm1x : m1 < mx).
    { apply Z.div_lt_upper_bound; [lia|].
      replace n1 with (ex - ez) by lia. lia. }
    assert (Zdigits2 mr <= 53)
      by (apply Zdigits2_le; [lia|]; lia).
    lia. }
  assert (Hv : 0 < mr / 2 ^ n2).
  { destruct Hn2 as [[Hn20 Hn21] _].
    apply Z.div_str_pos. split; [apply Z.pow_pos_nonneg; lia|].
    assert (2 ^ n2 <= 2 ^ 1) by (apply Z.pow_le_mono_r; lia).
    change (2 ^ 1) with 2 in *. change (2 ^ 52) with 4503599627370496 in *.
    lia. }
  destruct (mr / 2 ^ n2) as [|v|v]; try lia.
  replace (E1 + n2 <=? emax - prec) with true
    by (symmetry; apply Z.leb_le; unfold emax, prec; lia).
  exists v, (E1 + n2). split; [reflexivity|lia].
Qed.

(** Rounding a positive multiple of [2^-58] that is below a number of the
    format gives a multiple of [2^-58] of the format. *)
Lemma binary_round_good (sx : bool) (P : positive) (ez mx ex : Z) :
  -1074 <= ez -> on_grid (Zpos P) ez ->
  ez <= ex <= 971 -> 0 < mx < 2 ^ 53 ->
  Zpos P < mx * 2 ^ (ex - ez) ->
  good sx (binary_round prec emax sx P ez).
Proof.
intros Hez Hgrid Hex Hmx Hlt.
destruct (binary_round_finite sx P ez mx ex Hez Hex Hmx Hlt)
  as (m & e & Hr & He).
set (d := Zdigits2 (Zpos P)) in *.
rewrite fexp64 in He. set (E1 := Z.max (d + ez - 53) (-1074)) in *.
destruct (Z.lt_ge_cases (-58) E1) as [Hhigh|Hlow].
- (* above the grid's exponent every number of the format is on the grid *)
  rewrite Hr. split; [reflexivity|]. apply on_grid_above. lia.
- destruct (Z.le_gt_cases E1 ez) as [Hcase|Hcase].
  + (* nothing is rounded *)
    destruct (binary_round_exact sx P ez) as (mz & Hmz & Hr');
      try (fold d; rewrite fexp64; fold E1; lia).
    fold d in Hmz, Hr'. rewrite fexp64 in Hmz, Hr'. fold E1 in Hmz, Hr'.
    rewrite Hr'. split; [reflexivity|].
    rewrite Hmz. now apply on_grid_align; [lia|].
  + (* below the grid's exponent the shift to the right is exact *)
    unfold binary_round.
    change (Zpos (digits2_pos P)) with (Zdigits2 (Zpos P)). fold d.
    rewrite fexp64. fold E1. rewrite shl_align_ge by lia.
    set (n1 := E1 - ez).
    destruct (binary_round_aux_spec prec emax sx (Zpos P) ez loc_Exact n1
                ltac:(lia) ltac:(fold d; rewrite fexp64; fold E1; lia))
      as (mr & Hmr & Hexact & Hres).
    replace (ez + n1) with E1 in Hres by lia.
    assert (Hd : 0 < d) by (apply Zdigits2_pos; lia).
    assert (Hd1 : Zdigits2 (Zpos P / 2 ^ n1) = 53).
    { rewrite Zdigits2_shiftr; fold d; lia. }
    set (m1 := Zpos P / 2 ^ n1) in *.
    assert (Hm1pos : 0 < m1).
    { destruct (Z.eq_dec m1 0) as [H0|]; [|
        assert (0 <= m1)
          by (apply Z.div_pos; [lia|apply Z.pow_pos_nonneg; lia]); lia].
      rewrite H0 in Hd1. discriminate. }
    destruct (on_grid_shiftr (Zpos P) ez n1 ltac:(lia) ltac:(lia) Hgrid)
      as [Hdiv Hg1].
    rewrite (Hexact eq_refl Hdiv) in Hres.
    rewrite (Hres 0) by (rewrite Hd1, fexp64; lia).
    change (2 ^ 0) with 1. rewrite Z.div_1_r, !Z.add_0_r.
    apply (finish_finite sx m1 E1); [lia|lia|].
    now replace E1 with (ez + n1) by lia.
Qed.

Lemma bounded_spec (m : positive) (e : Z) :
  bounded prec emax m e = true ->
  -1074 <= e <= 971 /\ 0 < Zpos m < 2 ^ 53 /\ Zdigits2 (Zpos m) <= 53
  /\ fexp prec emax (Zdigits2 (Zpos m) + e) = e.
Proof.
unfold bounded, canonical_mantissa. rewrite andb_true_iff, Z.eqb_eq, Z.leb_le.
change (Zpos (digits2_pos m)) with (Zdigits2 (Zpos m)).
rewrite fexp64. change (emax - prec) with 971. intros [Hc He].
destruct (Zdigits2_bounds (Zpos m) ltac:(lia)) as [_ Hhi].
assert (Hd : Zdigits2 (Zpos m) <= 53) by lia.
assert (2 ^ Zdigits2 (Zpos m) <= 2 ^ 53)
  by (apply Z.pow_le_mono_r; lia).
repeat split; lia.
Qed.

(** A number of the format above the least exponent has 53 digits. *)
Lemma bounded_normal (m : positive) (e : Z) :
  bounded prec emax m e = true -> -1074 < e -> 2 ^ 52 <= Zpos m.
Proof.
intros Hb He. destruct (bounded_spec m e Hb) as (_ & _ & _ & Hf).
rewrite fexp64 in Hf.
assert (Hd : Zdigits2 (Zpos m) = 53) by lia.
destruct (Zdigits2_bounds (Zpos m) ltac:(lia)) as [Hlo _].
now rewrite Hd in Hlo.
Qed.

(** Positive numbers of the format compare as their mantissas do once they
    are aligned. *)
Lemma SFcompare_aligned (ma ms : positive) (ea es : Z) :
  bounded prec emax ma ea = true -> bounded prec emax ms es = true ->
  SFcompare (S754_finite false ma ea) (S754_finite false ms es)
  = Some (Zpos ma * 2 ^ (ea - Z.min ea es)
          ?= Zpos ms * 2 ^ (es - Z.min ea es)).
Proof.
intros Ha Hs.
destruct (bounded_spec ma ea Ha) as (Hea & Hma & _).
destruct (bounded_spec ms es Hs) as (Hes & Hms & _).
unfold SFcompare. f_equal.
destruct (Z.compare_spec ea es) as [->|Hlt|Hgt].
- rewrite Z.min_id, Z.sub_diag. change (2 ^ 0) with 1.
  rewrite !Z.mul_1_r. reflexivity.
- replace (Z.min ea es) with ea by lia. rewrite Z.sub_diag.
  change (2 ^ 0) with 1. rewrite Z.mul_1_r.
  symmetry. apply Z.compare_lt_iff.
  pose proof (bounded_normal ms es Hs ltac:(lia)) as Hn.
  assert (2 ^ 1 <= 2 ^ (es - ea)) by (apply Z.pow_le_mono_r; lia).
  change (2 ^ 1) with 2 in *.
  change (2 ^ 52) with 4503599627370496 in *.
  change (2 ^ 53) with 9007199254740992 in *. nia.
- replace (Z.min ea es) with es by lia. rewrite Z.sub_diag.
  change (2 ^ 0) with 1. rewrite Z.mul_1_r.
  symmetry. apply Z.compare_gt_iff.
  pose proof (bounded_normal ma ea Ha ltac:(lia)) as Hn.
  assert (2 ^ 1 <= 2 ^ (ea - es)) by (apply Z.pow_le_mono_r; lia).
  change (2 ^ 1) with 2 in *.
  change (2 ^ 52) with 4503599627370496 in *.
  change (2 ^ 53) with 9007199254740992 in *. nia.
Qed.

(** The difference of two positive multiples of [2^-58] of the format, the
    first one not below the second, is 0 or a positive multiple of [2^-58]:
    it is not rounded below [2^-5], and it does not overflow. *)
Lemma sub_settled (ma ms : positive) (ea es : Z) :
  bounded prec emax ma ea = true -> bounded prec emax ms es = true ->
  on_grid (Zpos ma) ea -> on_grid (Zpos ms) es ->
  SFltb (S754_finite false ma ea) (S754_finite false ms es) = false ->
  good false (SF64sub (S754_finite false ma ea) (S754_finite false ms es)).
Proof.
intros Ha Hs Hga Hgs Hlt.
destruct (bounded_spec ma ea Ha) as (Hea & Hma & _).
destruct (bounded_spec ms es Hs) as (Hes & Hms & _).
unfold SFltb in Hlt. rewrite (SFcompare_aligned ma ms ea es Ha Hs) in Hlt.
unfold SF64sub, SFsub. set (ez := Z.min ea es) in *.
destruct (shl_align_le ma ea ez ltac:(lia)) as (Ma & -> & HMa).
destruct (shl_align_le ms es ez ltac:(lia)) as (Ms & -> & HMs).
cbn [fst cond_Zopp]. rewrite <- HMa, <- HMs in Hlt.
assert (Hge : Zpos Ms <= Zpos Ma).
{ destruct (Z.compare_spec (Zpos Ma) (Zpos Ms)); try discriminate; lia. }
assert (Hga' : on_grid (Zpos Ma) ez)
  by (rewrite HMa; apply on_grid_align; [lia|assumption]).
assert (Hgs' : on_grid (Zpos Ms) ez)
  by (rewrite HMs; apply on_grid_align; [lia|assumption]).
unfold binary_normalize.
destruct (Zpos Ma - Zpos Ms) as [|P|P] eqn:HP; [exact I| |lia].
apply binary_round_good with (mx := Zpos ma) (ex := ea); try lia.
rewrite <- HP. now apply on_grid_sub.
Qed.

Lemma SFcompare_finite_Eq (m1 m2 : positive) (e1 e2 : Z) :
  SFcompare (S754_finite false m1 e1) (S754_finite false m2 e2) = Some Eq ->
  e1 = e2 /\ m1 = m2.
Proof.
unfold SFcompare.
destruct (Z.compare_spec e1 e2) as [->| |]; try discriminate.
intros [= Hc]. apply Pos.compare_eq in Hc. auto.
Qed.

(** [0.01] is no multiple of [2^-58]. *)
Lemma cent_off_grid : ~ on_grid (Zpos 5764607523034235) (-59).
Proof.
intros [t Ht]. change (2 ^ Z.max 0 (-58 - -59)) with 2 in Ht. lia.
Qed.

(** A multiple of [2^-58] is not a number off the grid: if it is not above,
    it is below. *)
Lemma good_below (mc : positive) (ec : Z) (x : spec_float) :
  ~ on_grid (Zpos mc) ec ->
  good false x ->
  SFltb (S754_finite false mc ec) x = false ->
  SFltb x (S754_finite false mc ec) = true.
Proof.
intros Hoff.
destruct x as [s|s| |[|] m e]; cbn [good]; try contradiction;
  try reflexivity.
intros [_ Hg]. unfold SFltb.
rewrite (Binary64Facts.SFcompare_finite_swap m mc e ec).
destruct (SFcompare (S754_finite false m e) (S754_finite false mc ec))
  as [[| |]|] eqn:Hc; try reflexivity; try discriminate.
exfalso. apply SFcompare_finite_Eq in Hc. destruct Hc as [-> ->].
now apply Hoff.
Qed.

Lemma SFltb_pos_zero (m : positive) (e : Z) (s : bool) :
  SFltb (S754_finite false m e) (S754_zero s) = false.
Proof. reflexivity. Qed.

Lemma SFltb_zero_pos (m : positive) (e : Z) (s : bool) :
  SFltb (S754_zero s) (S754_finite false m e) = true.
Proof. reflexivity. Qed.

Lemma SFltb_pos_inf (m : positive) (e : Z) :
  SFltb (S754_finite false m e) (S754_infinity false) = true.
Proof. reflexivity. Qed.

Lemma SFltb_zero_inf (s : bool) :
  SFltb (S754_zero s) (S754_infinity false) = true.
Proof. reflexivity. Qed.

Lemma SFltb_inf_l (x : spec_float) : SFltb (S754_infinity false) x = false.
Proof. now destruct x as [s|[|]| |[|] m e]. Qed.

Lemma SFltb_swap (m1 m2 : positive) (e1 e2 : Z) :
  SFltb (S754_finite false m1 e1) (S754_finite false m2 e2) = true ->
  SFltb (S754_finite false m2 e2) (S754_finite false m1 e1) = false.
Proof.
unfold SFltb. rewrite (Binary64Facts.SFcompare_finite_swap m1 m2 e1 e2).
now destruct (SFcompare (S754_finite false m1 e1) (S754_finite false m2 e2))
  as [[| |]|].
Qed.

(** The amounts of the matcher: 0 or a positive multiple of [2^-58], or
    else infinite. *)
Definition SFok (x : spec_float) : Prop :=
  good false x \/ x = S754_infinity false.

Lemma good_cases (x : spec_float) :
  good false x ->
  (exists s, x = S754_zero s)
  \/ (exists m e, x = S754_finite false m e /\ on_grid (Zpos m) e).
Proof.
destruct x as [s|s| |s m e]; cbn [good]; try contradiction.
- intros _. left. now exists s.
- intros [-> Hg]. right. now exists m, e.
Qed.

(** One iteration of the matcher on the amounts [X] of the debtor and [Y] of
    the creditor, that are not both infinite, with a threshold [C] off the
    grid: the amounts stay as they are, finite ones stay finite, and one of
    them is below the threshold afterwards. *)
Lemma SF_step (mc : positive) (ec : Z) (X Y : spec_float) :
  ~ on_grid (Zpos mc) ec ->
  valid_binary X = true -> valid_binary Y = true ->
  SFok X -> SFok Y -> good false X \/ good false Y ->
  let C := S754_finite false mc ec in
  let M := if SFltb Y X then Y else X in
  if SFltb C M
  then SFok (SF64sub X M) /\ SFok (SF64sub Y M)
       /\ (good false X -> good false (SF64sub X M))
       /\ (good false Y -> good false (SF64sub Y M))
       /\ (SFltb (SF64sub X M) C = true \/ SFltb (SF64sub Y M) C = true)
  else SFltb X C = true \/ SFltb Y C = true.
Proof.
intros Hoff HvX HvY HX HY Hfin C M. subst C M. cbv zeta.
destruct (SFltb Y X) eqn:Hyx.
- (* the creditor has less *)
  assert (HgY : good false Y).
  { destruct HY as [HgY| ->]; [assumption|].
    now rewrite SFltb_inf_l in Hyx. }
  destruct (SFltb (S754_finite false mc ec) Y) eqn:Hc;
    [|right; now apply good_below].
  destruct (good_cases Y HgY) as [[sy ->]|(my & ey & -> & HgY')].
  { now rewrite SFltb_pos_zero in Hc. }
  rewrite Binary64Matcher.SFsub_diag.
  destruct HX as [HgX| ->].
  + destruct (good_cases X HgX) as [[sx ->]|(mx & ex & -> & HgX')].
    { now rewrite SFltb_pos_zero in Hyx. }
    assert (Hs : good false (SF64sub (S754_finite false mx ex)
                                     (S754_finite false my ey))).
    { apply sub_settled; try assumption. now apply SFltb_swap. }
    split; [now left|]. split; [left; exact I|].
    split; [intros _; exact Hs|]. split; [intros _; exact I|].
    now right.
  + split; [now right|]. split; [left; exact I|].
    split; [intros []|]. split; [intros _; exact I|].
    now right.
- (* the debtor has no more *)
  destruct (SFltb (S754_finite false mc ec) X) eqn:Hc.
  + destruct HX as [HgX| ->].
    * destruct (good_cases X HgX) as [[sx ->]|(mx & ex & -> & HgX')].
      { now rewrite SFltb_pos_zero in Hc. }
      rewrite Binary64Matcher.SFsub_diag.
      destruct HY as [HgY| ->].
      -- destruct (good_cases Y HgY) as [[sy ->]|(my & ey & -> & HgY')].
         { now rewrite SFltb_zero_pos in Hyx. }
         assert (Hs : good false (SF64sub (S754_finite false my ey)
                                          (S754_finite false mx ex)))
           by (apply sub_settled; assumption).
         split; [left; exact I|]. split; [now left|].
         split; [intros _; exact I|]. split; [intros _; exact Hs|].
         now left.
      -- split; [left; exact I|]. split; [now right|].
         split; [intros _; exact I|]. split; [intros []|].
         now left.
    * exfalso. destruct Hfin as [[]|HgY].
      destruct (good_cases Y HgY) as [[sy ->]|(my & ey & -> & HgY')].
      -- now rewrite SFltb_zero_inf in Hyx.
      -- now rewrite SFltb_pos_inf in Hyx.
  + left. destruct HX as [HgX| ->]; [now apply good_below|].
    discriminate Hc.
Qed.

Lemma finish_nonneg (sx : bool) (v e : Z) :
  0 <= v -> -58 <= e <= 971 ->
  good sx match v with
          | Z0 => S754_zero sx
          | Zpos m =>
              if e <=? emax - prec then S754_finite sx m e
              else S754_infinity sx
          | Zneg _ => S754_nan
          end.
Proof.
intros Hv He. destruct v as [|m|m]; try lia; [exact I|].
replace (e <=? emax - prec) with true
  by (symmetry; apply Z.leb_le; unfold emax, prec; lia).
split; [reflexivity|]. apply on_grid_above. lia.
Qed.

Definition SFhundred : spec_float := S754_finite false 7036874417766400 (-46).

Lemma Prim2SF_hundred : Prim2SF 100 = SFhundred.
Proof. reflexivity. Qed.

(** The quotient by 100 of a number with a full mantissa. *)
Lemma SFdiv_hundred (mk : positive) (ek : Z) :
  Zdigits2 (Zpos mk) = 53 -> -1020 <= ek ->
  SF64div (S754_finite false mk ek) SFhundred
  = let '(qq, r) := Z.div_eucl (Zpos mk * 2 ^ 53) 7036874417766400 in
    binary_round_aux prec emax false qq (ek - 7)
      (new_location 7036874417766400 r).
Proof.
intros Hdk Hek.
unfold SFhundred, SF64div, SFdiv, SFdiv_core_binary.
change (xorb false false) with false.
rewrite Hdk. change (Zdigits2 (Zpos 7036874417766400)) with 53.
rewrite fexp64.
change IntDef.Z.min with Z.min. change IntDef.Z.div_eucl with Z.div_eucl.
change IntDef.Z.shiftl with Z.shiftl.
replace (Z.min (Z.max (53 + ek - (53 + -46) - 53) (-1074)) (ek - -46))
  with (ek - 7) by lia.
replace (ek - -46 - (ek - 7)) with 53 by lia.
cbv beta iota. rewrite Z.shiftl_mul_pow2 by lia.
now destruct (Z.div_eucl (Zpos mk * 2 ^ 53) 7036874417766400).
Qed.

Lemma div_one_hundred :
  SF64div (binary_normalize prec emax 1 0 false) SFhundred = SFcent.
Proof. vm_compute. reflexivity. Qed.

(** The double nearest to [k / 100], for an integer [0 <= k < 2^53], is
    0, or 0.01, or a multiple of [2^-58]. *)
Lemma div_hundred_good (k : Z) :
  0 <= k < 2 ^ 53 ->
  let q := SF64div (binary_normalize prec emax k 0 false) SFhundred in
  good false q \/ q = SFcent.
Proof.
intros [Hk0 Hk] q.
destruct (Z.eq_dec k 0) as [->|Hk1]; [left; exact I|].
destruct (Z.eq_dec k 1) as [->|Hk2]; [right; exact div_one_hundred|].
left. destruct k as [|P|P]; try lia. unfold q, binary_normalize.
set (d := Zdigits2 (Zpos P)).
assert (Hd : 2 <= d <= 53).
{ split; [apply (Zdigits2_ge (Zpos P) 1); change (2 ^ 1) with 2; lia|].
  apply Zdigits2_le; lia. }
set (ek := d - 53).
pose proof (binary_round_exact false P 0) as Hex. cbv zeta in Hex.
rewrite Z.add_0_r, fexp64 in Hex. fold d in Hex.
replace (Z.max (d - 53) (-1074)) with ek in Hex by lia.
destruct Hex as (mk & Hmk & ->); [lia|lia|].
replace (0 - ek) with (53 - d) in Hmk by lia.
assert (Hdk : Zdigits2 (Zpos mk) = 53)
  by (rewrite Hmk, Zdigits2_shiftl; fold d; lia).
destruct (Zdigits2_bounds (Zpos mk) ltac:(lia)) as [Hklo Hkhi].
rewrite Hdk in Hklo, Hkhi.
rewrite (SFdiv_hundred mk ek Hdk) by lia.
set (m' := Zpos mk * 2 ^ 53).
destruct (Z.div_eucl m' (Zpos 7036874417766400)) as [qq r] eqn:Hdiv.
assert (Hqq : qq = m' / Zpos 7036874417766400)
  by (unfold Z.div; now rewrite Hdiv).
assert (Hq : 0 <= qq < 2 ^ 54).
{ subst qq. split; [apply Z.div_pos; lia|].
  apply Z.div_lt_upper_bound; [lia|].
  unfold m'. change (2 ^ 53) with 9007199254740992 in *.
  change (2 ^ 54) with 18014398509481984. lia. }
set (n1 := Z.max 0 (fexp prec emax (Zdigits2 qq + (ek - 7)) - (ek - 7))).
destruct (binary_round_aux_spec prec emax false qq (ek - 7)
            (new_location (Zpos 7036874417766400) r) n1
            ltac:(lia) eq_refl) as (mr & Hmr & _ & Hres).
rewrite (Hres _ eq_refl).
assert (Hdq : Zdigits2 qq <= 54) by (apply Zdigits2_le; lia).
pose proof (Zdigits2_nonneg qq) as Hdq0.
assert (Hn1 : 0 <= n1 <= 1) by (unfold n1; rewrite fexp64; lia).
assert (Hp1 : 0 < 2 ^ n1) by (apply Z.pow_pos_nonneg; lia).
assert (Hq1 : 0 <= qq / 2 ^ n1 <= qq).
{ split; [apply Z.div_pos; lia|].
  apply Z.div_le_upper_bound; [lia|]. nia. }
assert (Hdr : Zdigits2 mr <= 55).
{ apply Zdigits2_le; [lia|]. change (2 ^ 55) with (2 * 2 ^ 54). lia. }
pose proof (Zdigits2_nonneg mr) as Hdr0.
set (n2 := Z.max 0 (fexp prec emax (Zdigits2 mr + (ek - 7 + n1))
                    - (ek - 7 + n1))).
assert (Hn2 : 0 <= n2 <= 2) by (unfold n2; rewrite fexp64; lia).
apply finish_nonneg.
- apply Z.div_pos; [lia|apply Z.pow_pos_nonneg; lia].
- unfold ek. lia.
Qed.

(** A number of sign [sx], zeros and infinities included. *)
Definition signed (sx : bool) (x : spec_float) : Prop :=
  match x with
  | S754_zero s | S754_infinity s | S754_finite s _ _ => s = sx
  | S754_nan => False
  end.

Lemma binary_round_aux_signed (sx : bool) (mx ex : Z) (lx : location) :
  0 <= mx -> signed sx (binary_round_aux prec emax sx mx ex lx).
Proof.
intros Hm.
destruct (binary_round_aux_spec prec emax sx mx ex lx _ Hm eq_refl)
  as (mr & Hmr & _ & Hres).
rewrite (Hres _ eq_refl).
set (n1 := Z.max 0 (fexp prec emax (Zdigits2 mx + ex) - ex)) in *.
set (n2 := Z.max 0 (fexp prec emax (Zdigits2 mr + (ex + n1)) - (ex + n1))).
assert (0 <= mx / 2 ^ n1)
  by (apply Z.div_pos; [lia|apply Z.pow_pos_nonneg; lia]).
assert (0 <= mr / 2 ^ n2)
  by (apply Z.div_pos; [lia|apply Z.pow_pos_nonneg; lia]).
destruct (mr / 2 ^ n2) as [|v|v]; [reflexivity| |lia].
now destruct (ex + n1 + n2 <=? emax - prec).
Qed.

Lemma binary_round_signed (sx : bool) (P : positive) (ez : Z) :
  signed sx (binary_round prec emax sx P ez).
Proof.
unfold binary_round. destruct (shl_align P ez _) as [mz ez'].
now apply binary_round_aux_signed.
Qed.

(** Zero, a positive number or the positive infinity. *)
Definition nonneg (x : spec_float) : Prop :=
  match x with
  | S754_zero _ => True
  | S754_infinity s | S754_finite s _ _ => s = false
  | S754_nan => False
  end.

Lemma signed_nonneg (x : spec_float) : signed false x -> nonneg x.
Proof. now destruct x. Qed.

Lemma SFltb_zero_nonneg (x : spec_float) :
  SFltb (S754_zero false) x = true -> nonneg x.
Proof. now destruct x as [s|[|]| |[|] m e]. Qed.

(** A sum of numbers that are not negative is not negative. *)
Lemma SFadd_nonneg (x y : spec_float) :
  nonneg x -> nonneg y -> nonneg (SF64add x y).
Proof.
destruct x as [sx|sx| |sx mx ex]; destruct y as [sy|sy| |sy my ey];
  cbn [nonneg]; try contradiction; intros Hx Hy; subst;
  try exact I; try reflexivity.
- destruct sx, sy; exact I.
- unfold SF64add, SFadd. cbn [cond_Zopp]. unfold binary_normalize.
  apply signed_nonneg.
  change (Zpos ?a + Zpos ?b) with (Zpos (a + b)).
  apply binary_round_signed.
Qed.

(** When two numbers that are not negative have the same number
    subtracted, the differences are not the one [+inf] and the other
    [-inf]. *)
Lemma SFsub_not_both (x y s : spec_float) :
  nonneg x -> nonneg y ->
  valid_binary y = true -> valid_binary s = true ->
  SF64sub x s = S754_infinity false ->
  SF64sub y s = S754_infinity true -> False.
Proof.
intros Hx Hy Hvy Hvs H1 H2.
destruct s as [ss|[|]| |ss ms es].
- destruct y as [sy|sy| |sy my ey]; cbn [nonneg] in Hy; try contradiction;
    subst; try discriminate H2.
  destruct sy, ss; discriminate H2.
- destruct y as [sy|sy| |sy my ey]; cbn [nonneg] in Hy; try contradiction;
    subst; discriminate H2.
- destruct x as [sx|sx| |sx mx ex]; cbn [nonneg] in Hx; try contradiction;
    subst; discriminate H1.
- destruct y as [sy|sy| |sy my ey]; discriminate H2.
- destruct y as [sy|sy| |sy my ey]; cbn [nonneg] in Hy; try contradiction;
    subst; try discriminate H2.
  destruct (bounded_spec my ey Hvy) as (Hey & Hmy & _).
  destruct (bounded_spec ms es Hvs) as (Hes & Hms & _).
  unfold SF64sub, SFsub in H2. set (ez := Z.min ey es) in *.
  destruct (shl_align_le my ey ez ltac:(lia)) as (My & Ey & HMy).
  destruct (shl_align_le ms es ez ltac:(lia)) as (Ms & Es & HMs).
  rewrite Ey, Es in H2. cbn [fst] in H2. unfold binary_normalize in H2.
  destruct (cond_Zopp false (Zpos My) - cond_Zopp ss (Zpos Ms))
    as [|P|P] eqn:HP; [discriminate H2| |].
  + pose proof (binary_round_signed false P ez) as Hs.
    rewrite H2 in Hs. discriminate Hs.
  + destruct ss; cbn [cond_Zopp] in HP; [lia|].
    destruct (binary_round_finite true P ez (Zpos ms) es)
      as (m & e & Hr & _); try lia.
    rewrite Hr in H2. discriminate H2.
Qed.

End SpecFloatFacts.

(** ** What [round(x, 2)] returns *)

Module Binary64Round.
Import Binary64 Binary64Matcher SpecFloatFacts.
Local Open Scope Z_scope.

Lemma div_half_even_bounds (n d : Z) :
  0 <= n -> 0 < d -> 0 <= div_half_even n d <= n / d + 1.
Proof.
intros Hn Hd. unfold div_half_even.
assert (0 <= n / d) by (apply Z.div_pos; lia).
destruct (2 * (n mod d) ?= d); [destruct (Z.even (n / d))| |]; lia.
Qed.

Lemma Prim2SF_float_of_Z (k : Z) :
  0 <= k < 2 ^ 53 ->
  Prim2SF (float_of_Z k) = binary_normalize prec emax k 0 false.
Proof.
intros Hk. unfold float_of_Z.
replace (k <? 0) with false by (symmetry; apply Z.ltb_ge; lia).
rewrite of_uint63_spec, Uint63.of_Z_spec, Z.mod_small; [reflexivity|].
change wB with (2 ^ 63). split; [lia|].
apply Z.lt_trans with (2 ^ 53); [lia|reflexivity].
Qed.

(** [round(x, 2)] for a finite [x] below [1/64] in magnitude: the double
    nearest to [k / 100] for an integer [k], with the sign of [x]. *)
Lemma round2_small (x : float) (s : bool) (m : positive) (e : Z) :
  Prim2SF x = S754_finite s m e -> e < -6 ->
  exists q,
    (good false q \/ q = SFcent)
    /\ Prim2SF (round2 x) = if s then SFopp q else q.
Proof.
intros Hx He. unfold round2. rewrite Hx.
replace (-6 <=? e) with false by (symmetry; apply Z.leb_gt; lia).
pose proof (Prim2SF_valid x) as Hv. rewrite Hx in Hv.
destruct (bounded_spec m e Hv) as (_ & Hm & _).
set (k := div_half_even (100 * Zpos m) (2 ^ (- e))).
assert (Hk : 0 <= k < 2 ^ 53).
{ assert (Hp : 2 ^ 7 <= 2 ^ (- e)) by (apply Z.pow_le_mono_r; lia).
  assert (Hp0 : 0 < 2 ^ (- e)) by lia.
  destruct (div_half_even_bounds (100 * Zpos m) (2 ^ (- e))
              ltac:(lia) Hp0) as [Hk0 Hk1]. fold k in Hk0, Hk1.
  split; [assumption|].
  assert (100 * Zpos m / 2 ^ (- e) <= 100 * Zpos m / 2 ^ 7)
    by (apply Z.div_le_compat_l; lia).
  assert (100 * Zpos m / 2 ^ 7 < 2 ^ 53 - 1).
  { apply Z.div_lt_upper_bound; [reflexivity|].
    change (2 ^ 7) with 128. change (2 ^ 53) with 9007199254740992 in *.
    lia. }
  lia. }
exists (SF64div (binary_normalize prec emax k 0 false) SFhundred).
split; [exact (div_hundred_good k Hk)|].
destruct s; rewrite ?opp_spec, div_spec, Prim2SF_float_of_Z, Prim2SF_hundred
  by assumption; reflexivity.
Qed.

(** What [round(x, 2)] can be: a nan, an infinity, a zero, [0.01] or
    [-0.01], or a multiple of [2^-58]. *)
Definition rounded (x : spec_float) : Prop :=
  match x with
  | S754_finite _ m e =>
      on_grid (Zpos m) e \/ (m = 5764607523034235%positive /\ e = -59)
  | _ => True
  end.

Lemma rounded_opp (x : spec_float) : rounded x -> rounded (SFopp x).
Proof. now destruct x. Qed.

Lemma round2_rounded (x : float) : rounded (Prim2SF (round2 x)).
Proof.
destruct (Prim2SF x) as [s|s| |s m e] eqn:Hx;
  try (unfold round2; rewrite Hx, Hx; exact I).
destruct (Z.le_gt_cases (-6) e) as [He|He].
- unfold round2. rewrite Hx.
  replace (-6 <=? e) with true by (symmetry; apply Z.leb_le; lia).
  rewrite Hx. left. apply on_grid_above. lia.
- destruct (round2_small x s m e Hx He) as (q & Hq & ->).
  assert (Hr : rounded q).
  { destruct Hq as [Hg| ->].
    - destruct q as [?|?| |s' m' e']; try exact I. left. apply Hg.
    - right. split; reflexivity. }
  destruct s; [now apply rounded_opp|exact Hr].
Qed.

(** [round(x, 2)] is infinite only when [x] is. *)
Lemma round2_inf (x : float) (s : bool) :
  Prim2SF (round2 x) = S754_infinity s -> Prim2SF x = S754_infinity s.
Proof.
destruct (Prim2SF x) as [s'|s'| |s' m e] eqn:Hx;
  try (unfold round2; rewrite Hx, Hx; intros H; exact H).
destruct (Z.le_gt_cases (-6) e) as [He|He].
- unfold round2. rewrite Hx.
  replace (-6 <=? e) with true by (symmetry; apply Z.leb_le; lia).
  now rewrite Hx.
- destruct (round2_small x s' m e Hx He) as (q & Hq & ->).
  destruct Hq as [Hg| ->].
  + destruct q as [?|?| |? ? ?]; cbn [good] in Hg; try contradiction;
      destruct s'; discriminate.
  + destruct s'; discriminate.
Qed.

End Binary64Round.

(** ** The loop on floats *)

Module Binary64Termination.
Import Binary64 Binary64Facts Binary64Matcher.
Import SpecFloatFacts Binary64Round.

(** An amount that is 0 or a positive multiple of [2^-58]. *)
Definition settled (x : float) : Prop := good false (Prim2SF x).

(** An amount that is so, or infinite. *)
Definition amount_ok (x : float) : Prop := SFok (Prim2SF x).

Definition all_amounts (P : float -> Prop) (l : list (@Party float)) : Prop :=
  Forall (fun p => P (party_amount p)) l.

(** What the loop keeps on floats: the amounts are multiples of [2^-58] or
    infinite, and not infinite on both sides. *)
Definition term_inv (st : @Loop float) : Prop :=
  all_amounts amount_ok (debtors st)
  /\ all_amounts amount_ok (creditors st)
  /\ (all_amounts settled (debtors st) \/ all_amounts settled (creditors st)).

Lemma Forall_list_update (A : Type) (P : A -> Prop) (l : list A) (n : nat)
    (x : A) :
  Forall P l -> P x -> Forall P (list_update l n x).
Proof.
intros Hl Hx. revert n. induction Hl as [|y l Hy Hl IH]; intros [|n];
  cbn [list_update]; constructor; auto.
Qed.

Lemma float_step (x y : float) :
  amount_ok x -> amount_ok y -> settled x \/ settled y ->
  let m := py_min x y in
  if (0.01 <? m)%float
  then amount_ok (x - m) /\ amount_ok (y - m)
       /\ (settled x -> settled (x - m))
       /\ (settled y -> settled (y - m))
       /\ ((x - m <? 0.01)%float = true \/ (y - m <? 0.01)%float = true)
  else (x <? 0.01)%float = true \/ (y <? 0.01)%float = true.
Proof.
intros Hx Hy Hfin m.
pose proof (SF_step 5764607523034235 (-59) (Prim2SF x) (Prim2SF y)
              cent_off_grid (Prim2SF_valid x) (Prim2SF_valid y) Hx Hy Hfin)
  as Hstep.
cbv zeta in Hstep.
change (S754_finite false 5764607523034235 (-59)) with SFcent in Hstep.
unfold amount_ok, settled. rewrite !ltb_spec, !sub_spec, Prim2SF_cent.
replace (Prim2SF m)
  with (if SFltb (Prim2SF y) (Prim2SF x) then Prim2SF y else Prim2SF x);
  [exact Hstep|].
unfold m, py_min. cbn [fltb binary64]. rewrite ltb_spec.
now destruct (SFltb (Prim2SF y) (Prim2SF x)).
Qed.

Lemma term_inv_body (st : @Loop float) :
  term_inv st -> loop_cond st = true ->
  term_inv (loop_body st) /\ advances st.
Proof.
intros (HD & HC & Hfin) Hcond.
destruct (loop_cond_true st Hcond) as (d & c & Hd & Hc).
pose proof (nth_error_In _ _ Hd) as Hdin.
pose proof (nth_error_In _ _ Hc) as Hcin.
unfold all_amounts in *. rewrite Forall_forall in HD, HC.
assert (Hfin' : settled (party_amount d) \/ settled (party_amount c)).
{ destruct Hfin as [H|H]; rewrite Forall_forall in H; auto. }
pose proof (float_step (party_amount d) (party_amount c)
              (HD d Hdin) (HC c Hcin) Hfin') as Hstep.
cbv zeta in Hstep.
unfold advances, term_inv, all_amounts, loop_body. rewrite Hd, Hc.
cbn [fltb fsub cent binary64] in *.
destruct (0.01 <? py_min (party_amount d) (party_amount c))%float.
- destruct Hstep as (Hd' & Hc' & Hsd & Hsc & Hadv).
  cbn [debtors creditors i j party_amount]. split; [split; [|split]|].
  + apply Forall_list_update; [now apply Forall_forall|exact Hd'].
  + apply Forall_list_update; [now apply Forall_forall|exact Hc'].
  + destruct Hfin as [H|H]; [left|right];
      (apply Forall_list_update; [exact H|]);
      rewrite Forall_forall in H; auto.
  + destruct Hadv as [-> | ->];
      repeat match goal with |- context [if ?b then _ else _] =>
               destruct b end; lia.
- cbn [debtors creditors i j]. split; [split; [|split]|].
  + apply Forall_list_update; [now apply Forall_forall|now apply HD].
  + apply Forall_list_update; [now apply Forall_forall|now apply HC].
  + destruct Hfin as [H|H]; [left|right];
      (apply Forall_list_update; [exact H|]);
      rewrite Forall_forall in H; auto.
  + destruct Hstep as [-> | ->];
      repeat match goal with |- context [if ?b then _ else _] =>
               destruct b end; lia.
Qed.

Lemma SFltb_irrefl (s : bool) (m : positive) (e : Z) :
  SFltb (S754_finite s m e) (S754_finite s m e) = false.
Proof.
unfold SFltb, SFcompare. rewrite Z.compare_refl, Pos.compare_cont_refl.
now destruct s.
Qed.

(** A rounded number above a threshold off the grid is a positive multiple
    of [2^-58], or [+inf]. *)
Lemma SF_creditor (mc : positive) (ec : Z) (V : spec_float) :
  match V with
  | S754_finite _ m e => on_grid (Zpos m) e \/ (m = mc /\ e = ec)
  | _ => True
  end ->
  SFltb (S754_finite false mc ec) V = true ->
  good false V \/ V = S754_infinity false.
Proof.
destruct V as [s|[|]| |[|] m e]; intros Hr Hlt; try discriminate Hlt.
- now right.
- destruct Hr as [Hg|[-> ->]].
  + left. now split.
  + now rewrite SFltb_irrefl in Hlt.
Qed.

(** The magnitude of a rounded number below the opposite of the threshold
    is a positive multiple of [2^-58], or the number is [-inf]. *)
Lemma SF_debtor (mc : positive) (ec : Z) (V : spec_float) :
  match V with
  | S754_finite _ m e => on_grid (Zpos m) e \/ (m = mc /\ e = ec)
  | _ => True
  end ->
  SFltb V (S754_finite true mc ec) = true ->
  good false (SFabs V) \/ V = S754_infinity true.
Proof.
destruct V as [s|[|]| |[|] m e]; intros Hr Hlt; try discriminate Hlt.
- now right.
- destruct Hr as [Hg|[-> ->]].
  + left. now split.
  + now rewrite SFltb_irrefl in Hlt.
Qed.

Lemma creditor_amount (v : float) :
  rounded (Prim2SF v) -> (0.01 <? v)%float = true ->
  settled v \/ Prim2SF v = S754_infinity false.
Proof.
intros Hr Hlt. rewrite ltb_spec, Prim2SF_cent in Hlt.
now apply (SF_creditor 5764607523034235 (-59)).
Qed.

Lemma debtor_amount (v : float) :
  rounded (Prim2SF v) -> (v <? PrimFloat.opp 0.01)%float = true ->
  settled (abs v) \/ Prim2SF v = S754_infinity true.
Proof.
intros Hr Hlt. rewrite ltb_spec, opp_spec, Prim2SF_cent in Hlt.
unfold settled. rewrite abs_spec.
now apply (SF_debtor 5764607523034235 (-59)).
Qed.

Lemma infinity_dec (s : bool) (balances : dict float) :
  (exists p v, In (p, v) balances /\ Prim2SF v = S754_infinity s)
  \/ (forall p v, In (p, v) balances -> Prim2SF v <> S754_infinity s).
Proof.
induction balances as [|[p v] l IH].
- right. intros p v [].
- destruct IH as [(q & w & Hin & Hw)|Hall].
  + left. exists q, w. split; [now right|assumption].
  + assert (Hcase : Prim2SF v = S754_infinity s
                    \/ Prim2SF v <> S754_infinity s).
    { destruct (Prim2SF v) as [s'|s'| |s' m e]; try (right; discriminate).
      destruct (Bool.bool_dec s' s) as [->|Hne]; [now left|].
      right. intros [= Heq]. now apply Hne. }
    destruct Hcase as [Hv|Hv].
    * left. exists p, v. split; [now left|assumption].
    * right. intros q w [[= <- <-]|Hin]; [assumption|now apply (Hall q w)].
Qed.

(** On balances that [round] produced and that are not infinite on both
    sides, the matcher ends within as many iterations as there are
    balances. *)
Lemma settle_ends (balances : dict float) (fuel : nat) :
  (forall p v, In (p, v) balances -> rounded (Prim2SF v)) ->
  (forall p v q w,
      In (p, v) balances -> In (q, w) balances ->
      Prim2SF v = S754_infinity true -> Prim2SF w = S754_infinity false ->
      False) ->
  (List.length balances <= fuel)%nat ->
  exists result, settle fuel balances = Some result.
Proof.
intros Hr Hnb Hfuel. unfold settle.
destruct balances as [|b bs] eqn:Hb; [now exists []|]. rewrite <- Hb in *.
clear Hb b bs.
assert (HD : forall d, In d (debtors_of balances) ->
          settled (party_amount d)
          \/ exists p v, In (p, v) balances
                         /\ Prim2SF v = S754_infinity true
                         /\ Prim2SF (party_amount d) = S754_infinity false).
{ intros d Hd. destruct (debtors_of_party balances d Hd)
    as (p & v & Hin & Hlt & ->).
  cbn [fltb fabs neg_cent fopp cent binary64] in *.
  destruct (debtor_amount v (Hr p v Hin) Hlt) as [Hs|Hinf]; [now left|].
  right. exists p, v. split; [assumption|]. split; [assumption|].
  now rewrite abs_spec, Hinf. }
assert (HC : forall c, In c (creditors_of balances) ->
          settled (party_amount c)
          \/ exists p v, In (p, v) balances
                         /\ Prim2SF v = S754_infinity false
                         /\ Prim2SF (party_amount c) = S754_infinity false).
{ intros c Hc. destruct (creditors_of_party balances c Hc)
    as (p & v & Hin & Hlt & ->).
  cbn [fltb cent binary64] in *.
  destruct (creditor_amount v (Hr p v Hin) Hlt) as [Hs|Hinf]; [now left|].
  right. exists p, v. auto. }
assert (Hinv : term_inv (loop_init balances)).
{ unfold term_inv, loop_init, all_amounts, sort_by_amount_desc.
  cbn [debtors creditors]. split; [|split].
  - apply Forall_forall. intros d Hd. apply stable_sort_In in Hd.
    destruct (HD d Hd) as [Hs|(_ & _ & _ & _ & Hinf)]; [now left|now right].
  - apply Forall_forall. intros c Hc. apply stable_sort_In in Hc.
    destruct (HC c Hc) as [Hs|(_ & _ & _ & _ & Hinf)]; [now left|now right].
  - destruct (infinity_dec true balances) as [(p & v & Hin & Hv)|Hnone].
    + right. apply Forall_forall. intros c Hc. apply stable_sort_In in Hc.
      destruct (HC c Hc) as [Hs|(q & w & Hin' & Hw & _)]; [assumption|].
      destruct (Hnb p v q w Hin Hin' Hv Hw).
    + left. apply Forall_forall. intros d Hd. apply stable_sort_In in Hd.
      destruct (HD d Hd) as [Hs|(q & w & Hin' & Hw & _)]; [assumption|].
      destruct (Hnone q w Hin' Hw). }
assert (Hend : loop_cond (loop_iter fuel (loop_init balances)) = false).
{ apply (@loop_ends float binary64 term_inv term_inv_body fuel _ Hinv).
  unfold loop_init, sort_by_amount_desc. cbn [debtors creditors i j].
  rewrite !stable_sort_length.
  pose proof (parties_length balances). lia. }
unfold while_loop. rewrite Hend. cbn [option_map]. eauto.
Qed.


Definition is_number (x : float) : Prop := Prim2SF x <> S754_nan.
Definition is_infinity (x : float) : Prop := Prim2SF x = S754_infinity false.

Lemma ltb_infinity (x y : float) :
  is_infinity y ->
  (y <? x)%float = false
  /\ (is_number x -> (x <? y)%float = false -> is_infinity x).
Proof.
unfold is_number, is_infinity. intros Hy. rewrite !ltb_spec, Hy.
split; [apply SFltb_inf_l|].
destruct (Prim2SF x) as [s|[|]| |[|] m e]; intros Hx Hlt;
  try discriminate Hlt; [reflexivity|now elim Hx].
Qed.

(** Sorted by amount, descending, an infinite amount comes first. *)
Lemma head_infinite (l : list (@Party float)) :
  Forall (fun d => is_number (party_amount d)) l ->
  Exists (fun d => is_infinity (party_amount d)) l ->
  exists d rest,
    sort_by_amount_desc l = d :: rest /\ is_infinity (party_amount d).
Proof.
unfold sort_by_amount_desc.
induction l as [|x l IH]; intros Hnum Hinf; [inversion Hinf|].
inversion Hnum as [|? ? Hx Hl]; subst. cbn [stable_sort fold_right].
fold (stable_sort (fun a b : @Party float =>
                     fltb (party_amount b) (party_amount a)) l).
inversion Hinf as [? ? Hxi|? ? Hli]; subst.
- destruct (stable_sort _ l) as [|y s].
  + exists x, []. now split.
  + cbn [insert_stable fltb binary64].
    destruct (ltb_infinity (party_amount y) (party_amount x) Hxi) as [-> _].
    exists x, (y :: s). now split.
- destruct (IH Hl Hli) as (d & rest & -> & Hd).
  cbn [insert_stable fltb binary64].
  destruct (ltb_infinity (party_amount x) (party_amount d) Hd)
    as [_ Hfalse].
  destruct (party_amount x <? party_amount d)%float eqn:Hlt.
  + eexists _, _. split; [reflexivity|assumption].
  + exists x, (d :: rest). split; [reflexivity|]. now apply Hfalse.
Qed.

Lemma ltb_number (x y : float) : (x <? y)%float = true -> is_number x.
Proof.
unfold is_number. rewrite ltb_spec. intros Hlt Hx. rewrite Hx in Hlt.
discriminate Hlt.
Qed.

Lemma ltb_number_r (x y : float) : (x <? y)%float = true -> is_number y.
Proof.
unfold is_number. rewrite ltb_spec. intros Hlt Hy. rewrite Hy in Hlt.
now destruct (Prim2SF x).
Qed.

Lemma abs_number (x : float) : is_number x -> is_number (abs x).
Proof.
unfold is_number. rewrite abs_spec. now destruct (Prim2SF x).
Qed.

(** With [-inf] and [+inf] among the balances, the first debtor and the
    first creditor have infinite amounts. *)
Lemma infinite_heads (balances : dict float) :
  (exists p v, In (p, v) balances /\ Prim2SF v = S754_infinity true) ->
  (exists q w, In (q, w) balances /\ Prim2SF w = S754_infinity false) ->
  exists d rd c rc,
    loop_init balances = mkLoop (d :: rd) (c :: rc) 0 0 []
    /\ is_infinity (party_amount d) /\ is_infinity (party_amount c).
Proof.
intros (p & v & Hp & Hv) (q & w & Hq & Hw).
destruct (head_infinite (debtors_of balances)) as (d & rd & HD & Hd).
{ apply Forall_forall. intros d Hd.
  destruct (@debtors_of_party float binary64 balances d Hd) as (p' & v' & _ & Hlt & ->).
  cbn [fltb fabs binary64] in *. apply abs_number.
  now apply ltb_number in Hlt. }
{ apply Exists_exists. exists (mkParty p (abs v)). split.
  - apply (@debtors_of_intro float binary64 balances p v Hp).
    cbn [fltb neg_cent fopp cent binary64].
    now rewrite ltb_spec, opp_spec, Prim2SF_cent, Hv.
  - unfold is_infinity. cbn [party_amount]. now rewrite abs_spec, Hv. }
destruct (head_infinite (creditors_of balances)) as (c & rc & HC & Hc).
{ apply Forall_forall. intros c Hc.
  destruct (@creditors_of_party float binary64 balances c Hc) as (p' & v' & _ & Hlt & ->).
  cbn [fltb binary64] in *. now apply ltb_number_r in Hlt. }
{ apply Exists_exists. exists (mkParty q w). split.
  - apply (@creditors_of_intro float binary64 balances q w Hq);
      cbn [fltb neg_cent fopp cent binary64].
    + now rewrite ltb_spec, opp_spec, Prim2SF_cent, Hw.
    + now rewrite ltb_spec, Prim2SF_cent, Hw.
  - exact Hw. }
exists d, rd, c, rc. unfold loop_init. now rewrite HD, HC.
Qed.

(** With [-inf] and [+inf] among the balances, the matcher's loop never
    ends: the first settlement leaves nans to both parties, and no cursor
    moves any more. *)
Lemma settle_stalls (balances : dict float) :
  (exists p v, In (p, v) balances /\ Prim2SF v = S754_infinity true) ->
  (exists q w, In (q, w) balances /\ Prim2SF w = S754_infinity false) ->
  forall fuel, settle fuel balances = None.
Proof.
intros Hneg Hpos fuel.
destruct (infinite_heads balances Hneg Hpos)
  as (d & rd & c & rc & Hinit & Hd & Hc).
unfold settle. destruct balances as [|b bs] eqn:Hb.
{ destruct Hneg as (p & v & [] & _). }
rewrite <- Hb in *. clear Hb b bs. rewrite Hinit.
destruct fuel as [|n]; [reflexivity|].
set (st0 := mkLoop (d :: rd) (c :: rc) 0 0 []).
assert (Hcd : (party_amount c <? party_amount d)%float = false).
{ rewrite ltb_spec, Hc. apply SFltb_inf_l. }
assert (Hcent : (0.01 <? party_amount d)%float = true)
  by now rewrite ltb_spec, Prim2SF_cent, Hd.
assert (Hdn : Prim2SF (party_amount d - party_amount d) = S754_nan)
  by now rewrite sub_spec, Hd.
assert (Hcn : Prim2SF (party_amount c - party_amount d) = S754_nan)
  by now rewrite sub_spec, Hc, Hd.
assert (Hstall : stalled (loop_body st0)).
{ unfold loop_body, st0, py_min.
  cbn [nth_error debtors creditors i j fltb fsub cent binary64].
  rewrite Hcd, Hcent. cbn [party_amount list_update debtors creditors i j].
  destruct (nan_unordered _ Hdn cent) as [_ Hd'].
  destruct (nan_unordered _ Hcn cent) as [_ Hc'].
  cbn [fltb cent binary64] in Hd', Hc'. rewrite Hd', Hc'.
  eexists _, _. cbn [debtors creditors i j nth_error].
  split; [reflexivity|]. split; [reflexivity|].
  split; now apply nan_unordered. }
pose proof (stalled_forever _ Hstall n) as Hnone.
unfold while_loop in *. cbn [loop_iter].
change (loop_cond st0) with true. cbv iota.
destruct (loop_cond (loop_iter n (loop_body st0))); [reflexivity|].
discriminate Hnone.
Qed.


Section Ledger.
Context {sets : PySet}.

(** Every stored amount is above 0, as [validate_amount] has it. *)
Definition positive_amounts (l : list (Expense float)) : Prop :=
  Forall (fun e => (0 <? amount e)%float = true) l.

Lemma fold_add_nonneg (l : list float) (acc : float) :
  nonneg (Prim2SF acc) ->
  Forall (fun a => nonneg (Prim2SF a)) l ->
  nonneg (Prim2SF (fold_left PrimFloat.add l acc)).
Proof.
intros Hacc Hl. revert acc Hacc.
induction Hl as [|a l Ha Hl IH]; intros acc Hacc; cbn [fold_left];
  [assumption|].
apply IH. rewrite add_spec. now apply SFadd_nonneg.
Qed.

(** What a person paid is not negative, and no nan. *)
Lemma paid_of_nonneg (l : list (Expense float)) (p : string) :
  positive_amounts l -> nonneg (Prim2SF (paid_of l p)).
Proof.
intros Hpos. unfold paid_of. cbn [fadd binary64].
apply fold_add_nonneg; [exact I|].
apply Forall_forall. intros a Ha.
apply in_map_iff in Ha as (e & <- & He). apply filter_In in He as [He _].
unfold positive_amounts in Hpos. rewrite Forall_forall in Hpos.
specialize (Hpos e He). rewrite ltb_spec in Hpos.
now apply SFltb_zero_nonneg.
Qed.

Lemma balances_of_In (l : list (Expense float)) (p : string) (v : float) :
  In (p, v) (balances_of l) -> v = net_of l p.
Proof.
intros Hin. destruct (balances_of_keys l) as [Hnd _].
pose proof (dict_get_In _ _ _ Hnd Hin) as Hget.
rewrite balances_of_get in Hget.
destruct (in_dec string_dec p (payers l)); congruence.
Qed.

Lemma balances_of_length (l : list (Expense float)) :
  (List.length (balances_of l) <= List.length l)%nat.
Proof.
destruct (balances_of_keys l) as [Hnd Hkeys].
rewrite <- (length_map fst (balances_of l)).
rewrite <- (length_map (@paid_by float) l).
apply NoDup_incl_length; [exact Hnd|].
intros p Hp. now apply Hkeys.
Qed.

(** X10. On binary64 floats, when every stored amount is above 0 (as
    [validate_amount] has it), [calculate_settlements] returns: its loop
    ends within as many iterations as there are expenses. *)
Theorem settlements_terminate (self : ExpenseService float) (fuel : nat) :
  positive_amounts (expenses self) ->
  (List.length (expenses self) <= fuel)%nat ->
  exists result, calculate_settlements fuel self = Ok (Some result).
Proof.
intros Hpos Hfuel. unfold calculate_settlements.
rewrite reducer_total. cbn [bind].
set (l := expenses self) in *.
destruct (settle_ends (balances_of l) fuel) as [result Hres].
- intros p v Hin. rewrite (balances_of_In l p v Hin).
  apply round2_rounded.
- intros p v q w Hp Hq Hv Hw.
  rewrite (balances_of_In l p v Hp) in Hv.
  rewrite (balances_of_In l q w Hq) in Hw.
  unfold net_of in Hv, Hw. cbn [round2 fsub binary64] in Hv, Hw.
  apply round2_inf in Hv, Hw. rewrite sub_spec in Hv, Hw.
  eapply SFsub_not_both; [| | | |exact Hw|exact Hv];
    try apply Prim2SF_valid; now apply paid_of_nonneg.
- pose proof (balances_of_length l). lia.
- exists result. now rewrite Hres.
Qed.

(** X11. On binary64 floats, when the net balances hold both [-inf] and
    [+inf] (stored amounts that are not all above 0 can overflow to that),
    [calculate_settlements] never returns: the first settlement leaves a nan
    to both parties, and the loop runs on without moving a cursor. *)
Theorem settlements_never_return (self : ExpenseService float)
    (balances : dict float) :
  _calculate_individual_balances self = Ok balances ->
  (exists p v, In (p, v) balances /\ Prim2SF v = S754_infinity true) ->
  (exists q w, In (q, w) balances /\ Prim2SF w = S754_infinity false) ->
  forall fuel, calculate_settlements fuel self = Ok None.
Proof.
intros Hb Hneg Hpos fuel. unfold calculate_settlements.
rewrite Hb. cbn [bind]. now rewrite settle_stalls.
Qed.

End Ledger.

End Binary64Termination.

(** ** The loop on small ledgers *)

Module TerminationExamples.
Import Binary64 Examples Binary64Termination.
Local Open Scope string_scope.

Lemma settlements_terminate_witness :
  exists result, calculate_settlements 3 ann_bob_cid = Ok (Some result).
Proof.
apply (@settlements_terminate first_seen ann_bob_cid 3).
- vm_compute. repeat constructor.
- vm_compute. lia.
Defined.

(** Ann pays the largest amounts, Bob their opposites: what each paid
    overflows, and the total is 0. *)
Definition overflowing : ExpenseService float :=
  snapshot [(1e308, "Ann"); (-1e308, "Bob"); (1e308, "Ann"); (-1e308, "Bob")]%float.

Lemma settlements_never_return_witness :
  calculate_settlements 1000 overflowing = Ok None.
Proof.
apply (@settlements_never_return first_seen overflowing
         [("Ann", infinity); ("Bob", neg_infinity)]).
- vm_compute. reflexivity.
- exists "Bob", neg_infinity. split; [simpl; auto|reflexivity].
- exists "Ann", infinity. split; [simpl; auto|reflexivity].
Defined.

End TerminationExamples.

(** ** Settlements and statuses *)

Module Binary64Statuses.
Import Binary64 Binary64Facts Binary64Matcher.

Lemma SF_below_not_above (mc : positive) (ec : Z) (V : spec_float) :
  SFltb V (S754_finite true mc ec) = true ->
  SFltb (S754_finite false mc ec) V = false.
Proof.
destruct V as [s|[|]| |[|] m e]; intros Hlt; try reflexivity;
  discriminate Hlt.
Qed.

(** A balance below [-0.01] is not above [0.01]. *)
Lemma below_not_above (v : float) :
  fltb v neg_cent = true -> fltb cent v = false.
Proof.
cbn [fltb neg_cent fopp cent binary64].
rewrite !ltb_spec, opp_spec, Prim2SF_cent.
apply SF_below_not_above.
Qed.

Section Statuses.
Context {sets : PySet}.

(** X12. On binary64 floats, every settlement [calculate_settlements]
    returns goes from a person [calculate_balances] lists with the status
    ["owes"] to a person it lists with the status ["gets"]. *)
Theorem settlements_follow_statuses (self : ExpenseService float)
    (fuel : nat) :
  exists responses,
    calculate_balances self = Ok responses
    /\ forall result,
         calculate_settlements fuel self = Ok (Some result) ->
         Forall (fun s =>
                   (exists b, In b responses /\ person b = from_person s
                              /\ status b = owes)
                   /\ (exists c, In c responses /\ person c = to_person s
                                 /\ status c = gets))
                result.
Proof.
eexists. split; [apply calculate_balances_eq|].
intros result. unfold calculate_settlements. rewrite reducer_total.
cbn [bind]. intros [= Hset]. apply Forall_forall. intros s Hs.
pose proof (settle_settlements _ _ s Hset Hs) as Hin.
destruct (settlement_parties _ _ s Hin) as [(v & Hv & Hlt) (w & Hw & Hgt)].
split.
- exists (mkBalanceResponse (from_person s) (fabs v) (status_of v)).
  split; [|split; [reflexivity|]].
  + apply stable_sort_In, in_map_iff. now exists (from_person s, v).
  + cbn [status]. unfold status_of.
    now rewrite (below_not_above v Hlt), Hlt.
- exists (mkBalanceResponse (to_person s) (fabs w) (status_of w)).
  split; [|split; [reflexivity|]].
  + apply stable_sort_In, in_map_iff. now exists (to_person s, w).
  + cbn [status]. unfold status_of. now rewrite Hgt.
Qed.

End Statuses.
End Binary64Statuses.

(** ** Termination on validated amounts *)

Section LoopDone.
Context {F : Type} {num : PyFloat F}.

(** Once a cursor is exhausted, more iterations change nothing. *)
Lemma loop_iter_done (n k : nat) (st : @Loop F) :
  loop_cond (loop_iter n st) = false ->
  loop_iter (n + k) st = loop_iter n st.
Proof.
revert st. induction n as [|n IH]; intros st Hdone; cbn [loop_iter Nat.add] in *.
- destruct k; cbn [loop_iter]; [reflexivity|]. now rewrite Hdone.
- destruct (loop_cond st); [now apply IH|reflexivity].
Qed.

End LoopDone.

Module ValidatedLedger.
Import Binary64 Binary64Facts Binary64Matcher.
Import Validation Binary64Termination.

(** An amount [validate_amount] accepts is above 0. *)
Lemma validate_amount_positive (v a : float) :
  validate_amount v = inr a -> (0 <? v)%float = true.
Proof.
unfold validate_amount.
destruct (v <=? 0)%float eqn:Hle; [discriminate|].
destruct (negb (Binary64.round2 v =? v)%float) eqn:Hneq; [discriminate|].
intros _. apply negb_false_iff in Hneq. rewrite eqb_spec in Hneq.
rewrite leb_spec, Prim2SF_zero in Hle. rewrite ltb_spec, Prim2SF_zero.
unfold SFeqb, SFleb, SFltb in *.
destruct (Prim2SF v) as [s|[|]| |[|] m e];
  destruct (Prim2SF (Binary64.round2 v)) as [s'|[|]| |[|] m' e'];
  simpl in *; try discriminate; reflexivity.
Qed.

Section Ledger.
Context {sets : PySet}.

(** Every stored amount went through [validate_amount], as the amounts of
    [ExpenseCreate] and [ExpenseUpdate] do. *)
Definition validated (self : ExpenseService float) : Prop :=
  Forall (fun e => validate_amount (amount e) = inr (amount e))
         (expenses self).

(** A call as main.py can issue it: the amount of an [ExpenseCreate] and an
    amount given in an [ExpenseUpdate] went through [validate_amount]. *)
Definition valid_call (c : Call (F := float)) : Prop :=
  match c with
  | CallAdd expense _ =>
      validate_amount (create_amount expense) = inr (create_amount expense)
  | CallUpdate _ expense_update _ =>
      match update_amount expense_update with
      | Some a => validate_amount a = inr a
      | None => True
      end
  | CallDelete _ => True
  end.

Lemma Forall_store_first (P : Expense float -> Prop)
    (l : list (Expense float)) (k : Z) (x : Expense float) :
  Forall P l -> P x -> Forall P (store_first l k x).
Proof.
intros Hl Hx. induction Hl as [|y l Hy Hl IH]; cbn [store_first];
  [constructor|].
destruct (id y =? k)%Z; constructor; auto.
Qed.

Lemma Forall_remove_first (P : Expense float -> Prop)
    (l : list (Expense float)) (k : Z) :
  Forall P l -> Forall P (remove_first l k).
Proof.
intros Hl. induction Hl as [|y l Hy Hl IH]; cbn [remove_first];
  [constructor|].
destruct (id y =? k)%Z; [assumption|constructor; auto].
Qed.

Lemma find_expense_In (l : list (Expense float)) (k : Z)
    (x : Expense float) :
  find_expense l k = Some x -> In x l.
Proof.
induction l as [|y l IH]; cbn [find_expense]; [discriminate|].
destruct (id y =? k)%Z; [intros [= ->]; now left|right; auto].
Qed.

Lemma validated_call (c : Call (F := float)) (self : ExpenseService float) :
  valid_call c -> validated self -> validated (call c self).
Proof.
unfold validated. destruct c as [expense now|k upd now|k]; cbn [valid_call call].
- intros Hc Hs. cbn [add_expense snd expenses].
  apply Forall_app. split; [assumption|]. now repeat constructor.
- intros Hc Hs. unfold update_expense, get_expense_by_id.
  destruct (find_expense (expenses self) k) as [x|] eqn:Hf;
    cbn [snd expenses]; [|assumption].
  apply Forall_store_first; [assumption|]. cbn [amount].
  destruct (update_amount upd) as [a|]; cbn [option_default];
    [assumption|].
  rewrite Forall_forall in Hs. apply Hs. eapply find_expense_In, Hf.
- intros _ Hs. unfold delete_expense, get_expense_by_id.
  destruct (find_expense (expenses self) k); cbn [snd expenses];
    [|assumption].
  now apply Forall_remove_first.
Qed.

Lemma validated_run (cs : list (Call (F := float)))
    (self : ExpenseService float) :
  Forall valid_call cs -> validated self -> validated (fst (run cs self)).
Proof.
intros Hcs. revert self. induction Hcs as [|c cs Hc Hcs IH]; intros self Hs;
  cbn [run]; [assumption|].
specialize (IH (call c self) (validated_call c self Hc Hs)).
now destruct (run cs (call c self)).
Qed.

(** The five expenses of [_initialize_test_data] have validated amounts. *)
Lemma validated_new_service (clock : nat -> datetime) :
  validated (new_service clock).
Proof.
unfold validated, new_service, test_expenses.
cbn [add_all add_expense snd expenses empty_service app
     create_amount create_description create_paid_by].
repeat constructor; cbn [amount]; vm_compute; reflexivity.
Qed.

(** Every snapshot the service reaches from [ExpenseService()] by such
    calls is validated. *)
Lemma reachable_validated (clock : nat -> datetime)
    (cs : list (Call (F := float))) :
  Forall valid_call cs -> validated (fst (run cs (new_service clock))).
Proof.
intros Hcs. apply validated_run; [assumption|apply validated_new_service].
Qed.

(** C4. On binary64 floats, on every snapshot of expenses whose amounts
    [validate_amount] accepts, the settlement computation terminates: the
    two-cursor loop has exhausted a cursor after at most as many iterations
    as there are expenses, and [calculate_settlements] returns its result,
    the same one however many more iterations are granted. *)
Theorem settlement_computation_terminates (self : ExpenseService float) :
  validated self ->
  exists balances result,
    _calculate_individual_balances self = Ok balances
    /\ loop_cond (matcher_state (List.length (expenses self)) balances)
       = false
    /\ forall fuel,
         (List.length (expenses self) <= fuel)%nat ->
         calculate_settlements fuel self = Ok (Some result).
Proof.
intros Hval.
assert (Hpos : positive_amounts (expenses self)).
{ unfold validated in Hval. unfold positive_amounts.
  rewrite Forall_forall in *. intros e He.
  exact (validate_amount_positive _ _ (Hval e He)). }
set (l := expenses self) in *. set (n := List.length l).
destruct (settle_ends (balances_of l) n) as [result Hres].
- intros p v Hin. rewrite (balances_of_In l p v Hin).
  apply Binary64Round.round2_rounded.
- intros p v q w Hp Hq Hv Hw.
  rewrite (balances_of_In l p v Hp) in Hv.
  rewrite (balances_of_In l q w Hq) in Hw.
  unfold net_of in Hv, Hw. cbn [round2 fsub binary64] in Hv, Hw.
  apply Binary64Round.round2_inf in Hv, Hw. rewrite sub_spec in Hv, Hw.
  eapply SpecFloatFacts.SFsub_not_both; [| | | |exact Hw|exact Hv];
    try apply Prim2SF_valid; now apply paid_of_nonneg.
- pose proof (balances_of_length l). unfold n. lia.
- exists (balances_of l), result.
  split; [apply reducer_total|].
  assert (Hdone : loop_cond (matcher_state n (balances_of l)) = false).
  { unfold settle, while_loop, matcher_state in *.
    destruct (balances_of l) as [|b bs] eqn:Hb.
    - unfold loop_init, loop_cond. cbn. now destruct n.
    - rewrite <- Hb in *.
      now destruct (loop_cond (loop_iter n (loop_init (balances_of l)))). }
  split; [exact Hdone|].
  intros fuel Hfuel. unfold calculate_settlements.
  rewrite reducer_total. fold l. cbn [bind]. f_equal. rewrite <- Hres.
  replace fuel with (n + (fuel - n))%nat by (unfold n; lia).
  unfold settle, while_loop.
  destruct (balances_of l) as [|b bs] eqn:Hb; [reflexivity|].
  rewrite <- Hb in *. unfold matcher_state in Hdone.
  now rewrite (loop_iter_done n (fuel - n) _ Hdone).
Qed.


End Ledger.
End ValidatedLedger.

Module ValidatedExamples.
Import Binary64 Examples ValidatedLedger.
Local Open Scope string_scope.
Local Open Scope Z_scope.

(** After [ExpenseService()]: Om pays a taxi, and the second test expense
    is deleted. *)
Definition taxi_calls : list (Call (F := float)) :=
  [ CallAdd (mkExpenseCreate 30%float "Taxi" "Om") 9; CallDelete 2 ].

Lemma settlement_computation_terminates_witness :
  let self := fst (run taxi_calls (new_service (fun k => Z.of_nat k))) in
  exists balances result,
    _calculate_individual_balances self = Ok balances
    /\ loop_cond (matcher_state (List.length (expenses self)) balances)
       = false
    /\ forall fuel,
         (List.length (expenses self) <= fuel)%nat ->
         calculate_settlements fuel self = Ok (Some result).
Proof.
apply (@settlement_computation_terminates first_seen
         (fst (run taxi_calls (new_service (fun k => Z.of_nat k))))).
unfold validated.
repeat (constructor; [vm_compute; reflexivity|]). constructor.
Defined.

End ValidatedExamples.

(** * The sum of the net balances on binary64 floats

    The floats are read as the real numbers they stand for, and every
    operation of the reducer is followed with the error of its rounding. *)

From Stdlib Require Import Reals Lra.

Module FloatValue.
Import SpecFloatFacts.
Local Open Scope R_scope.

(** [2^e] as a real number. *)
Definition bpow (e : Z) : R := powerRZ 2 e.

Lemma bpow_pos (e : Z) : 0 < bpow e.
Proof. apply powerRZ_lt. lra. Qed.

Lemma bpow_add (a b : Z) : bpow (a + b) = bpow a * bpow b.
Proof. apply powerRZ_add. lra. Qed.

Lemma bpow_IZR (k : Z) : (0 <= k)%Z -> IZR (2 ^ k) = bpow k.
Proof.
intros Hk. unfold bpow. rewrite <- (Z2Nat.id k Hk) at 1 2.
now rewrite <- pow_IZR, pow_powerRZ.
Qed.

Lemma bpow_ge_1 (k : Z) : (0 <= k)%Z -> 1 <= bpow k.
Proof.
intros Hk. rewrite <- bpow_IZR by assumption. apply IZR_le.
assert (0 < 2 ^ k)%Z by (apply Z.pow_pos_nonneg; lia). lia.
Qed.

Lemma bpow_le (a b : Z) : (a <= b)%Z -> bpow a <= bpow b.
Proof.
intros Hab. replace b with (a + (b - a))%Z by lia. rewrite bpow_add.
pose proof (bpow_pos a). pose proof (bpow_ge_1 (b - a) ltac:(lia)). nra.
Qed.

Lemma bpow_0 : bpow 0 = 1.
Proof. reflexivity. Qed.

Lemma bpow_succ (e : Z) : bpow (e + 1) = 2 * bpow e.
Proof. rewrite bpow_add. unfold bpow at 2. simpl. lra. Qed.

Definition sign (s : bool) : R := if s then -1 else 1.

(** The real number a float stands for; 0 for an infinity and for a nan. *)
Definition SF2R (x : spec_float) : R :=
  match x with
  | S754_finite s m e => sign s * IZR (Zpos m) * bpow e
  | _ => 0
  end.

Lemma Rabs_sign (s : bool) (x : R) : 0 <= x -> Rabs (sign s * x) = x.
Proof.
intros Hx. destruct s; unfold sign.
- replace (-1 * x) with (- x) by lra. rewrite Rabs_Ropp. now apply Rabs_pos_eq.
- rewrite Rmult_1_l. now apply Rabs_pos_eq.
Qed.

(** The quotient of a floor division, in real numbers. *)
Lemma IZR_div_floor (m n : Z) :
  (0 <= n)%Z ->
  IZR (m / 2 ^ n) * bpow n <= IZR m < (IZR (m / 2 ^ n) + 1) * bpow n.
Proof.
intros Hn. rewrite <- bpow_IZR by assumption.
assert (Hp : (0 < 2 ^ n)%Z) by (apply Z.pow_pos_nonneg; lia).
pose proof (Z.div_mod m (2 ^ n) ltac:(lia)) as Hdm.
pose proof (Z.mod_pos_bound m (2 ^ n) Hp) as Hmod.
rewrite Hdm at 2 3. rewrite plus_IZR, mult_IZR.
destruct Hmod as [H0 H1]. apply IZR_le in H0. apply IZR_lt in H1.
split; lra.
Qed.

End FloatValue.

Module FloatRounding.
Import SpecFloatFacts FloatValue.
Local Open Scope R_scope.

(** A zero or a finite number: no infinity and no nan. *)
Definition is_finite_SF (x : spec_float) : bool :=
  match x with
  | S754_zero _ | S754_finite _ _ _ => true
  | _ => false
  end.

(** The value [v] of a rounded result and the number [x] it was rounded
    from: they differ by at most [2^-52 * v], or both are tiny. *)
Definition close (v x : R) : Prop :=
  Rabs (v - x) <= bpow (-52) * Rabs v
  \/ (Rabs (v - x) <= bpow (-1074) /\ Rabs v <= bpow (-1021)).

Lemma Z_div_floor_succ (a b : Z) : (0 < b)%Z -> (a + 1 <= (a / b + 1) * b)%Z.
Proof.
intros Hb. pose proof (Z.mul_succ_div_gt a b Hb). lia.
Qed.

Lemma Zdigits2_pow53 : Zdigits2 (2 ^ 53) = 54%Z.
Proof. reflexivity. Qed.

(** [binary_round_aux] on a mantissa [mx] that stands for a real mantissa
    [t] in [mx, mx + 1]: the result is an infinity, or a number close to
    [t * 2^ex]. *)
Lemma binary_round_aux_close (sx : bool) (mx ex : Z) (lx : location)
    (t : R) :
  (0 <= mx)%Z ->
  IZR mx <= t <= IZR mx + 1 ->
  (lx = loc_Exact -> t = IZR mx) ->
  lx = loc_Exact \/ (53 <= Zdigits2 mx)%Z \/ (ex <= -1074)%Z ->
  let r := binary_round_aux prec emax sx mx ex lx in
  r = S754_infinity sx
  \/ (is_finite_SF r = true
      /\ exists V, 0 <= V /\ SF2R r = sign sx * V
                   /\ close V (t * bpow ex)
                   /\ (lx = loc_Exact -> (-1074 <= ex)%Z ->
                       Rabs (V - t * bpow ex) <= bpow (-52) * V)).
Proof.
intros Hm Ht Hexact HP r.
set (d := Zdigits2 mx).
set (n1 := Z.max 0 (fexp prec emax (d + ex) - ex)).
destruct (binary_round_aux_spec prec emax sx mx ex lx n1 Hm eq_refl)
  as (mr & Hmr & Hex & Hres).
set (E1 := (ex + n1)%Z) in *.
set (m1 := (mx / 2 ^ n1)%Z) in *.
assert (Hn1 : (0 <= n1)%Z) by (unfold n1; lia).
assert (Hp1 : (0 < 2 ^ n1)%Z) by (apply Z.pow_pos_nonneg; lia).
assert (HE1 : (-1074 <= E1)%Z) by (unfold E1, n1; rewrite fexp64; lia).
assert (Hd0 : (0 <= d)%Z) by apply Zdigits2_nonneg.
assert (Hm1 : (0 <= m1 < 2 ^ 53)%Z).
{ split; [apply Z.div_pos; lia|].
  apply Z.div_lt_upper_bound; [lia|].
  rewrite <- Z.pow_add_r by lia.
  destruct (Z.eq_dec mx 0) as [->|Hne];
    [apply Z.pow_pos_nonneg; lia|].
  destruct (Zdigits2_bounds mx ltac:(lia)) as [_ Hhi]. fold d in Hhi.
  apply Z.lt_le_trans with (2 ^ d)%Z; [assumption|].
  apply Z.pow_le_mono_r; [lia|]. unfold n1. rewrite fexp64. lia. }
(* the second shift *)
set (n2 := Z.max 0 (fexp prec emax (Zdigits2 mr + E1) - E1)).
specialize (Hres n2 eq_refl).
assert (Hval : r = S754_infinity sx
               \/ (is_finite_SF r = true
                   /\ SF2R r = sign sx * (IZR mr * bpow E1))).
{ unfold r. rewrite Hres.
  destruct (Z.eq_dec mr (2 ^ 53)) as [Hbig|Hsmall].
  - assert (Hn2 : n2 = 1%Z).
    { unfold n2. rewrite Hbig, Zdigits2_pow53, fexp64. lia. }
    rewrite Hn2, Hbig. change (2 ^ 53 / 2 ^ 1)%Z with (2 ^ 52)%Z.
    change (2 ^ 52)%Z with (Zpos 4503599627370496).
    destruct (E1 + 1 <=? emax - prec)%Z; [right|now left].
    split; [reflexivity|]. cbn [SF2R].
    rewrite bpow_succ.
    change (IZR (2 ^ 53)) with (2 * IZR (Z.pos 4503599627370496)). ring.
  - assert (Hn2 : n2 = 0%Z).
    { unfold n2. rewrite fexp64.
      assert (Zdigits2 mr <= 53)%Z by (apply Zdigits2_le; lia). lia. }
    rewrite Hn2. change (2 ^ 0)%Z with 1%Z. rewrite Z.div_1_r, Z.add_0_r.
    destruct mr as [|m|m]; [right| |lia].
    + split; [reflexivity|]. cbn [SF2R]. ring.
    + destruct (E1 <=? emax - prec)%Z; [right|now left].
      split; [reflexivity|]. cbn [SF2R]. ring. }
destruct Hval as [Hinf|[Hfin Hv]]; [now left|right].
split; [assumption|].
exists (IZR mr * bpow E1).
pose proof (bpow_pos E1) as HbE. pose proof (bpow_pos n1) as Hbn.
pose proof (bpow_pos ex) as Hbx.
assert (Hmr0 : 0 <= IZR mr) by (apply IZR_le; lia).
split; [nra|]. split; [assumption|].
(* the real mantissa at the exponent of the result *)
assert (HbE1 : bpow E1 = bpow ex * bpow n1) by (unfold E1; apply bpow_add).
set (T1 := t / bpow n1).
assert (HT1 : t = T1 * bpow n1) by (unfold T1; field; lra).
assert (Hx : t * bpow ex = T1 * bpow E1) by (rewrite HbE1, HT1 at 1; ring).
assert (HT1r : IZR m1 <= T1 <= IZR m1 + 1).
{ destruct (IZR_div_floor mx n1 Hn1) as [Hlo _]. fold m1 in Hlo.
  pose proof (Z_div_floor_succ mx (2 ^ n1) Hp1) as Hhi. fold m1 in Hhi.
  apply IZR_le in Hhi. rewrite plus_IZR, mult_IZR, plus_IZR in Hhi.
  rewrite bpow_IZR in Hhi by assumption.
  split.
  - apply Rmult_le_reg_r with (bpow n1); [assumption|]. rewrite <- HT1. lra.
  - apply Rmult_le_reg_r with (bpow n1); [assumption|]. rewrite <- HT1. lra. }
assert (Hmrr : IZR m1 <= IZR mr <= IZR m1 + 1).
{ destruct Hmr as [H1 H2]. apply IZR_le in H1, H2.
  rewrite plus_IZR in H2. fold m1 in H1, H2. lra. }
assert (Herr : Rabs (IZR mr * bpow E1 - t * bpow ex) <= bpow E1).
{ rewrite Hx. replace (IZR mr * bpow E1 - T1 * bpow E1)
    with ((IZR mr - T1) * bpow E1) by ring.
  rewrite Rabs_mult, (Rabs_pos_eq (bpow E1)) by lra.
  assert (Rabs (IZR mr - T1) <= 1) by (apply Rabs_le; lra). nra. }
unfold close. rewrite (Rabs_pos_eq (IZR mr * bpow E1)) by nra.
(* exact, tiny, or with a full mantissa *)
assert (Hcases : (lx = loc_Exact /\ (2 ^ n1 | mx)%Z)
                 \/ ((lx = loc_Exact -> n1 <> 0%Z)
                     /\ (E1 = (-1074)%Z \/ (2 ^ 52 <= mr)%Z))).
{ destruct (Z.eq_dec n1 0) as [Hz|Hnz].
  - destruct lx as [|c].
    + left. split; [reflexivity|]. rewrite Hz. apply Z.divide_1_l.
    + right. split; [discriminate|].
      destruct (Z.eq_dec E1 (-1074)) as [Hsub|Hnorm]; [now left|right].
      destruct HP as [Hl|[Hd|He]]; [discriminate| |unfold E1 in *; lia].
      fold d in Hd.
      assert (Hmx : (0 < mx)%Z).
      { destruct (Z.eq_dec mx 0) as [H0|]; [|lia].
        unfold d in Hd. rewrite H0 in Hd. simpl in Hd. lia. }
      destruct (Zdigits2_bounds mx Hmx) as [Hlo _]. fold d in Hlo.
      assert (2 ^ 52 <= 2 ^ (d - 1))%Z by (apply Z.pow_le_mono_r; lia).
      assert (m1 = mx) by (unfold m1; rewrite Hz; apply Z.div_1_r).
      lia.
  - right. split; [intros _; assumption|].
    destruct (Z.eq_dec E1 (-1074)) as [Hsub|Hnorm]; [now left|right].
    assert (Hfe : n1 = (d - 53)%Z)
      by (unfold E1, n1 in *; rewrite fexp64 in *; lia).
    assert (Hmx : (0 < mx)%Z).
    { destruct (Z.eq_dec mx 0) as [H0|]; [|lia].
      unfold d in Hfe. rewrite H0 in Hfe. simpl in Hfe. lia. }
    destruct (Zdigits2_bounds mx Hmx) as [Hlo _]. fold d in Hlo.
    assert (2 ^ 52 <= m1)%Z.
    { apply Z.div_le_lower_bound; [lia|].
      rewrite <- Z.pow_add_r by lia.
      replace (n1 + 52)%Z with (d - 1)%Z by lia. assumption. }
    lia. }
assert (Hfullb : (2 ^ 52 <= mr)%Z ->
                 Rabs (IZR mr * bpow E1 - t * bpow ex)
                 <= bpow (-52) * (IZR mr * bpow E1)).
{ intros Hfull. apply Rle_trans with (bpow E1); [assumption|].
  assert (Hone : bpow (-52) * bpow 52 = 1).
  { rewrite <- bpow_add. reflexivity. }
  assert (bpow 52 <= IZR mr)
    by (rewrite <- (bpow_IZR 52) by lia; now apply IZR_le).
  pose proof (bpow_pos (-52)).
  assert (1 <= bpow (-52) * IZR mr) by nra.
  replace (bpow (-52) * (IZR mr * bpow E1))
    with ((bpow (-52) * IZR mr) * bpow E1) by ring.
  nra. }
destruct Hcases as [[Hl Hdiv]|[Hnex [Hsub|Hfull]]].
- assert (Hzero : Rabs (IZR mr * bpow E1 - t * bpow ex)
                  <= bpow (-52) * (IZR mr * bpow E1)).
  { rewrite (Hex Hl Hdiv). fold m1.
    assert (HT1e : T1 = IZR m1).
    { unfold T1. rewrite (Hexact Hl). destruct Hdiv as [k Hk].
      assert (Hm1k : m1 = k).
      { unfold m1. rewrite Hk. apply Z.div_mul. lia. }
      rewrite Hm1k, Hk, mult_IZR, bpow_IZR by assumption. field. lra. }
    rewrite Hx, HT1e, Rminus_diag, Rabs_R0.
    pose proof (bpow_pos (-52)).
    assert (0 <= IZR m1) by (apply IZR_le; lia).
    repeat apply Rmult_le_pos; lra. }
  split; [now left|intros _ _; assumption].
- split.
  + right. rewrite Hsub in *. split; [assumption|].
    replace (-1021)%Z with (53 + -1074)%Z by lia.
    rewrite bpow_add, <- (bpow_IZR 53) by lia.
    apply Rmult_le_compat_r; [lra|]. apply IZR_le. lia.
  + intros Hl Hge. exfalso. apply (Hnex Hl). unfold E1 in Hsub. lia.
- split; [left|intros _ _]; now apply Hfullb.
Qed.

End FloatRounding.

Module FloatError.
Import SpecFloatFacts FloatValue FloatRounding.
Local Open Scope R_scope.

(** The rounded value [v] is within [2^-52 * |v|] of [x]. *)
Definition rel (v x : R) : Prop := Rabs (v - x) <= bpow (-52) * Rabs v.

Lemma rel_refl (v : R) : rel v v.
Proof.
unfold rel. rewrite Rminus_diag, Rabs_R0.
apply Rmult_le_pos; [apply Rlt_le, bpow_pos|apply Rabs_pos].
Qed.

Lemma rel_sign (s : bool) (V X : R) :
  0 <= V -> Rabs (V - X) <= bpow (-52) * V -> rel (sign s * V) (sign s * X).
Proof.
intros HV H. unfold rel. rewrite Rabs_sign by assumption.
replace (sign s * V - sign s * X) with (sign s * (V - X)) by ring.
rewrite Rabs_mult. replace (Rabs (sign s)) with 1; [lra|].
destruct s; unfold sign; [rewrite Rabs_left|rewrite Rabs_right]; lra.
Qed.

Lemma binary_round_rel (sx : bool) (P : positive) (ez : Z) :
  (-1074 <= ez)%Z ->
  let r := binary_round prec emax sx P ez in
  is_finite_SF r = true ->
  rel (SF2R r) (sign sx * (IZR (Zpos P) * bpow ez)).
Proof.
intros Hez r Hfin. unfold r, binary_round in *.
set (fe := fexp prec emax (Zpos (digits2_pos P) + ez)) in *.
assert (Hfe : (-1074 <= fe)%Z) by (unfold fe; rewrite fexp64; lia).
assert (Hal : exists mz ez',
          shl_align P ez fe = (mz, ez')
          /\ IZR (Zpos mz) * bpow ez' = IZR (Zpos P) * bpow ez
          /\ (-1074 <= ez')%Z).
{ destruct (Z.le_gt_cases fe ez) as [Hle|Hgt].
  - destruct (shl_align_le P ez fe Hle) as (mz & Heq & Hmz).
    exists mz, fe. split; [assumption|]. split; [|assumption].
    rewrite Hmz, mult_IZR, bpow_IZR by lia.
    replace ez with (ez - fe + fe)%Z at 2 by lia. rewrite bpow_add. ring.
  - exists P, ez. split; [apply shl_align_ge; lia|]. split; [reflexivity|lia]. }
destruct Hal as (mz & ez' & Heq & Hv & Hez'). rewrite Heq in *.
destruct (binary_round_aux_close sx (Zpos mz) ez' loc_Exact (IZR (Zpos mz)))
  as [Hinf|(_ & V & HV & HVr & _ & Hrel)];
  try lia; try lra; try tauto; try (now left).
- rewrite Hinf in Hfin. discriminate.
- rewrite HVr, <- Hv. apply rel_sign; [assumption|]. now apply Hrel.
Qed.

Lemma binary_normalize_rel (m e : Z) (sz : bool) :
  (-1074 <= e)%Z ->
  let r := binary_normalize prec emax m e sz in
  is_finite_SF r = true -> rel (SF2R r) (IZR m * bpow e).
Proof.
intros He r Hfin. unfold r, binary_normalize in *.
destruct m as [|P|P].
- cbn [SF2R]. rewrite Rmult_0_l. apply rel_refl.
- replace (IZR (Zpos P) * bpow e) with (sign false * (IZR (Zpos P) * bpow e))
    by (unfold sign; ring).
  now apply binary_round_rel.
- replace (IZR (Zneg P) * bpow e) with (sign true * (IZR (Zpos P) * bpow e)).
  + now apply binary_round_rel.
  + unfold sign. change (Zneg P) with (- Zpos P)%Z. rewrite opp_IZR. ring.
Qed.

(** The value of a finite number at a lower exponent. *)
Lemma SF2R_align (s : bool) (m : positive) (e ez : Z) :
  (ez <= e)%Z ->
  exists M, shl_align m e ez = (M, ez)
            /\ SF2R (S754_finite s m e)
               = IZR (cond_Zopp s (Zpos M)) * bpow ez.
Proof.
intros Hle. destruct (shl_align_le m e ez Hle) as (M & Heq & HM).
exists M. split; [assumption|]. cbn [SF2R].
replace (IZR (cond_Zopp s (Zpos M))) with (sign s * IZR (Zpos M))
  by (destruct s; unfold sign; cbn [cond_Zopp];
      [change (- Zpos M)%Z with (Zneg M);
       change (Zneg M) with (- Zpos M)%Z; rewrite opp_IZR|]; ring).
rewrite HM, mult_IZR, bpow_IZR by lia.
replace e with (e - ez + ez)%Z at 1 by lia. rewrite bpow_add. ring.
Qed.

(** A finite sum has finite terms and is close to their exact sum. *)
Lemma SFadd_rel (x y : spec_float) :
  valid_binary x = true -> valid_binary y = true ->
  is_finite_SF (SF64add x y) = true ->
  is_finite_SF x = true /\ is_finite_SF y = true
  /\ rel (SF2R (SF64add x y)) (SF2R x + SF2R y).
Proof.
intros Hvx Hvy.
destruct x as [sx|sx| |sx mx ex]; destruct y as [sy|sy| |sy my ey];
  try (intros Hfin; exfalso; revert Hfin; unfold SF64add, SFadd;
       try destruct sx; try destruct sy; cbv [is_finite_SF negb]; discriminate).
- intros _. split; [reflexivity|]. split; [reflexivity|].
  replace (SF2R (SF64add (S754_zero sx) (S754_zero sy))) with 0
    by (destruct sx, sy; reflexivity).
  cbn [SF2R]. rewrite Rplus_0_l. apply rel_refl.
- intros _. split; [reflexivity|]. split; [reflexivity|].
  cbn [SF64add SFadd SF2R]. rewrite Rplus_0_l. apply rel_refl.
- intros _. split; [reflexivity|]. split; [reflexivity|].
  cbn [SF64add SFadd SF2R]. rewrite Rplus_0_r. apply rel_refl.
- intros Hfin. split; [reflexivity|]. split; [reflexivity|].
  destruct (bounded_spec mx ex Hvx) as (Hex & _).
  destruct (bounded_spec my ey Hvy) as (Hey & _).
  unfold SF64add, SFadd in *. change IntDef.Z.min with Z.min in *.
  cbv zeta in *. set (ez := Z.min ex ey) in *.
  destruct (SF2R_align sx mx ex ez ltac:(lia)) as (Mx & Hax & ->).
  destruct (SF2R_align sy my ey ez ltac:(lia)) as (My & Hay & ->).
  rewrite Hax, Hay in *. cbn [fst] in *.
  rewrite <- Rmult_plus_distr_r, <- plus_IZR.
  apply binary_normalize_rel; [lia|assumption].
Qed.

(** A finite difference has finite terms and is close to their exact
    difference. *)
Lemma SFsub_rel (x y : spec_float) :
  valid_binary x = true -> valid_binary y = true ->
  is_finite_SF (SF64sub x y) = true ->
  is_finite_SF x = true /\ is_finite_SF y = true
  /\ rel (SF2R (SF64sub x y)) (SF2R x - SF2R y).
Proof.
intros Hvx Hvy.
destruct x as [sx|sx| |sx mx ex]; destruct y as [sy|sy| |sy my ey];
  try (intros Hfin; exfalso; revert Hfin; unfold SF64sub, SFsub;
       try destruct sx; try destruct sy; cbv [is_finite_SF negb]; discriminate).
- intros _. split; [reflexivity|]. split; [reflexivity|].
  replace (SF2R (SF64sub (S754_zero sx) (S754_zero sy))) with 0
    by (destruct sx, sy; reflexivity).
  cbn [SF2R]. rewrite Rminus_0_r. apply rel_refl.
- intros _. split; [reflexivity|]. split; [reflexivity|].
  cbn [SF64sub SFsub SF2R].
  replace (0 - sign sy * IZR (Zpos my) * bpow ey)
    with (sign (negb sy) * IZR (Zpos my) * bpow ey)
    by (destruct sy; unfold sign; cbn [negb]; ring).
  apply rel_refl.
- intros _. split; [reflexivity|]. split; [reflexivity|].
  cbn [SF64sub SFsub SF2R]. rewrite Rminus_0_r. apply rel_refl.
- intros Hfin. split; [reflexivity|]. split; [reflexivity|].
  destruct (bounded_spec mx ex Hvx) as (Hex & _).
  destruct (bounded_spec my ey Hvy) as (Hey & _).
  unfold SF64sub, SFsub in *. change IntDef.Z.min with Z.min in *.
  cbv zeta in *. set (ez := Z.min ex ey) in *.
  destruct (SF2R_align sx mx ex ez ltac:(lia)) as (Mx & Hax & ->).
  destruct (SF2R_align sy my ey ez ltac:(lia)) as (My & Hay & ->).
  rewrite Hax, Hay in *. cbn [fst] in *.
  rewrite <- Rmult_minus_distr_r, <- minus_IZR.
  apply binary_normalize_rel; [lia|assumption].
Qed.

End FloatError.

Module FloatDivision.
Import SpecFloatFacts FloatValue FloatRounding FloatError.
Local Open Scope R_scope.

Lemma bpow_opp (e : Z) : bpow (- e) = / bpow e.
Proof.
pose proof (bpow_pos e) as Hp. apply Rmult_eq_reg_r with (bpow e); [|lra].
rewrite <- bpow_add, Rinv_l by lra.
replace (- e + e)%Z with 0%Z by lia. reflexivity.
Qed.

Lemma new_location_exact (d r : Z) : new_location d r = loc_Exact -> r = 0%Z.
Proof.
unfold new_location, new_location_even, new_location_odd.
change IntDef.Z.even with Z.even.
destruct (Z.even d); destruct (Z.eqb_spec r 0); try discriminate; auto.
Qed.

Lemma shift_match (m s : Z) :
  (0 <= s)%Z ->
  match s with
  | Z0 => m
  | Zpos _ => Z.shiftl m s
  | Zneg _ => 0%Z
  end = (m * 2 ^ s)%Z.
Proof.
intros Hs. destruct s as [|p|p]; [rewrite Z.pow_0_r; lia| |lia].
now rewrite Z.shiftl_mul_pow2 by lia.
Qed.

Lemma div_eucl_div_mod (a b : Z) : Z.div_eucl a b = ((a / b)%Z, (a mod b)%Z).
Proof. unfold Z.div, Z.modulo. now destruct (Z.div_eucl a b). Qed.

(** The quotient of two positive numbers, far above the subnormal ones: an
    infinity, or within [2^-52] of the exact quotient, relatively. *)
Lemma SFdiv_rel (mx my : positive) (ex ey : Z) :
  valid_binary (S754_finite false mx ex) = true ->
  valid_binary (S754_finite false my ey) = true ->
  let r := SF64div (S754_finite false mx ex) (S754_finite false my ey) in
  is_finite_SF r = true ->
  bpow (-1020) <= IZR (Zpos mx) * bpow ex / (IZR (Zpos my) * bpow ey) ->
  0 <= SF2R r
  /\ rel (SF2R r) (IZR (Zpos mx) * bpow ex / (IZR (Zpos my) * bpow ey)).
Proof.
intros Hvx Hvy r Hfin Hlow.
destruct (bounded_spec mx ex Hvx) as (Hex & Hmx & Hdx & _).
destruct (bounded_spec my ey Hvy) as (Hey & Hmy & Hdy & _).
pose proof (Zdigits2_bounds (Zpos mx) ltac:(lia)) as Hbx.
pose proof (Zdigits2_bounds (Zpos my) ltac:(lia)) as Hby.
pose proof (Zdigits2_pos (Zpos mx) ltac:(lia)) as Hpx.
pose proof (Zdigits2_pos (Zpos my) ltac:(lia)) as Hpy.
revert Hfin. unfold r, SF64div, SFdiv, SFdiv_core_binary.
change (xorb false false) with false.
change IntDef.Z.min with Z.min. change IntDef.Z.div_eucl with Z.div_eucl.
change IntDef.Z.shiftl with Z.shiftl.
set (d1 := Zdigits2 (Zpos mx)) in *. set (d2 := Zdigits2 (Zpos my)) in *.
rewrite fexp64. cbv zeta.
set (e' := Z.min (Z.max (d1 + ex - (d2 + ey) - 53) (-1074)) (ex - ey)).
assert (Hs : (0 <= ex - ey - e')%Z) by lia.
rewrite (shift_match (Zpos mx) (ex - ey - e') Hs).
set (s := (ex - ey - e')%Z) in *.
set (m' := (Zpos mx * 2 ^ s)%Z).
rewrite div_eucl_div_mod.
assert (Hp : (0 < 2 ^ s)%Z) by (apply Z.pow_pos_nonneg; lia).
assert (Hm' : (0 < m')%Z) by (unfold m'; nia).
pose proof (Z.div_mod m' (Zpos my) ltac:(lia)) as Hdm.
pose proof (Z.mod_pos_bound m' (Zpos my) ltac:(lia)) as Hmod.
assert (Hq0 : (0 <= m' / Zpos my)%Z) by (apply Z.div_pos; lia).
set (q := (m' / Zpos my)%Z) in *. set (r0 := (m' mod Zpos my)%Z) in *.
assert (HY : 0 < IZR (Zpos my)) by (apply IZR_lt; lia).
assert (Ht : IZR m' / IZR (Zpos my) = IZR q + IZR r0 / IZR (Zpos my)).
{ rewrite Hdm at 1. rewrite plus_IZR, mult_IZR. field. lra. }
assert (Hr0 : 0 <= IZR r0 / IZR (Zpos my) < 1).
{ destruct Hmod as [H0 H1]. apply IZR_le in H0. apply IZR_lt in H1.
  split.
  - apply Rmult_le_pos; [assumption|]. apply Rlt_le, Rinv_0_lt_compat, HY.
  - apply Rmult_lt_reg_r with (IZR (Zpos my)); [assumption|].
    unfold Rdiv. rewrite Rmult_assoc, Rinv_l by lra. lra. }
intros Hfin.
destruct (binary_round_aux_close false q e' (new_location (Zpos my) r0)
            (IZR m' / IZR (Zpos my)))
  as [Hinf|(_ & V & HV & HVr & Hclose & _)].
- assumption.
- rewrite Ht. lra.
- intros Hloc. apply new_location_exact in Hloc. rewrite Ht, Hloc.
  unfold Rdiv. rewrite Rmult_0_l. ring.
- right. destruct (Z.le_gt_cases e' (-1074)) as [Hle|Hgt]; [now right|].
  left. assert (He' : e' = (d1 + ex - (d2 + ey) - 53)%Z) by lia.
  assert (Hsv : s = (d2 + 53 - d1)%Z) by lia.
  apply (Zdigits2_ge q 52); [lia|].
  apply Z.div_le_lower_bound; [lia|].
  pose proof (Zdigits2_shiftl (Zpos mx) s ltac:(lia) ltac:(lia)) as Hdm'.
  fold m' in Hdm'. fold d1 in Hdm'.
  pose proof (Zdigits2_bounds m' Hm') as Hbm. rewrite Hdm' in Hbm.
  replace (d1 + s - 1)%Z with (d2 + 52)%Z in Hbm by lia.
  rewrite Z.pow_add_r in Hbm by lia.
  apply Z.le_trans with (2 ^ d2 * 2 ^ 52)%Z; [|lia].
  apply Z.mul_le_mono_nonneg_r; [apply Z.pow_nonneg; lia|lia].
- rewrite Hinf in Hfin. discriminate.
- assert (Hval : IZR m' / IZR (Zpos my) * bpow e'
                 = IZR (Zpos mx) * bpow ex / (IZR (Zpos my) * bpow ey)).
  { unfold m'. rewrite mult_IZR, bpow_IZR by lia.
    assert (Hb : bpow ex = bpow s * bpow e' * bpow ey)
      by (rewrite <- !bpow_add; f_equal; lia).
    rewrite Hb. pose proof (bpow_pos ey). field. lra. }
  rewrite Hval in Hclose. rewrite HVr. unfold sign. rewrite Rmult_1_l.
  split; [assumption|].
  destruct Hclose as [Hrel|[Habs Htiny]]; [exact Hrel|exfalso].
  rewrite (Rabs_pos_eq V HV) in Htiny.
  assert (H1 : bpow (-1074) <= bpow (-1022)) by (apply bpow_le; lia).
  pose proof (bpow_succ (-1022)) as H2. pose proof (bpow_succ (-1021)) as H3.
  change (-1022 + 1)%Z with (-1021)%Z in H2.
  change (-1021 + 1)%Z with (-1020)%Z in H3.
  pose proof (bpow_pos (-1022)).
  revert Habs. unfold Rabs. destruct (Rcase_abs _); lra.
Qed.

End FloatDivision.

Module FloatReal.
Import Binary64 SpecFloatFacts Binary64Round.
Import FloatValue FloatRounding FloatError FloatDivision.
Local Open Scope R_scope.

(** The real number a float stands for, and whether it stands for one. *)
Definition value (x : float) : R := SF2R (Prim2SF x).

Definition finite (x : float) : bool := is_finite_SF (Prim2SF x).

Lemma bpow_neg (k : Z) : (0 <= k)%Z -> bpow (- k) = / IZR (2 ^ k).
Proof. intros Hk. now rewrite bpow_opp, bpow_IZR. Qed.

Lemma bpow_52 : bpow (-52) = / 4503599627370496.
Proof. exact (bpow_neg 52 ltac:(lia)). Qed.

Lemma rel_bounds (v x : R) :
  0 <= v -> rel v x ->
  v * (1 - bpow (-52)) <= x <= v * (1 + bpow (-52)).
Proof.
unfold rel. intros Hv. rewrite (Rabs_pos_eq v Hv). unfold Rabs.
destruct (Rcase_abs (v - x)); lra.
Qed.

Lemma add_rel (x y : float) :
  finite (x + y) = true ->
  finite x = true /\ finite y = true
  /\ rel (value (x + y)) (value x + value y).
Proof.
unfold finite, value. rewrite add_spec.
apply SFadd_rel; apply Prim2SF_valid.
Qed.

Lemma sub_rel (x y : float) :
  finite (x - y) = true ->
  finite x = true /\ finite y = true
  /\ rel (value (x - y)) (value x - value y).
Proof.
unfold finite, value. rewrite sub_spec.
apply SFsub_rel; apply Prim2SF_valid.
Qed.

Lemma nonneg_SF2R (x : spec_float) : nonneg x -> 0 <= SF2R x.
Proof.
destruct x as [s|s| |s m e]; cbn [nonneg SF2R]; try lra.
intros ->. unfold sign. pose proof (bpow_pos e).
assert (0 < IZR (Zpos m)) by (apply IZR_lt; lia). nra.
Qed.

Lemma value_opp (x : float) : value (- x) = - value x.
Proof.
unfold value. rewrite opp_spec.
destruct (Prim2SF x) as [s|s| |s m e]; cbn [SFopp SF2R]; try lra.
destruct s; unfold sign; cbn [negb]; lra.
Qed.

Lemma finite_opp (x : float) : finite (- x) = finite x.
Proof.
unfold finite. rewrite opp_spec. now destruct (Prim2SF x).
Qed.

(** An integer below [2^53] is a float. *)
Lemma float_of_Z_exact (k : Z) :
  (0 <= k < 2 ^ 53)%Z ->
  value (float_of_Z k) = IZR k
  /\ nonneg (Prim2SF (float_of_Z k))
  /\ finite (float_of_Z k) = true
  /\ valid_binary (Prim2SF (float_of_Z k)) = true.
Proof.
intros Hk. unfold value, finite.
split; [|split; [|split; [|apply Prim2SF_valid]]];
  rewrite (Prim2SF_float_of_Z k Hk); unfold binary_normalize;
  destruct k as [|P|P]; try lia; try reflexivity; try exact I.
all: pose proof (Zdigits2_le (Zpos P) 53 ltac:(lia) Hk) as Hd.
all: pose proof (Zdigits2_pos (Zpos P) ltac:(lia)) as Hd0.
all: destruct (binary_round_exact false P 0) as (mz & Hmz & ->);
  try (rewrite fexp64; lia).
- cbn [SF2R]. rewrite fexp64 in *. unfold sign.
  set (E := Z.max (Zdigits2 (Zpos P) + 0 - 53) (-1074)) in *.
  rewrite Hmz, mult_IZR, bpow_IZR by lia.
  rewrite Rmult_1_l, Rmult_assoc, <- bpow_add.
  replace (0 - E + E)%Z with 0%Z by lia. rewrite bpow_0. ring.
- reflexivity.
- reflexivity.
Qed.

Lemma value_hundred : value 100 = 100.
Proof.
unfold value. rewrite Prim2SF_hundred. unfold SFhundred. cbn [SF2R].
change (bpow (-46)) with (bpow (- (46))). rewrite (bpow_neg 46) by lia.
unfold sign. change (2 ^ 46)%Z with 70368744177664%Z. lra.
Qed.

(** The quotient of a float that is not negative by a positive one. *)
Lemma div_rel (x y : float) :
  nonneg (Prim2SF x) -> nonneg (Prim2SF y) ->
  finite y = true -> 0 < value y ->
  finite (x / y) = true ->
  (finite x = true -> value x = 0 \/ bpow (-1020) <= value x / value y) ->
  finite x = true
  /\ 0 <= value (x / y)
  /\ rel (value (x / y)) (value x / value y).
Proof.
unfold finite, value. rewrite div_spec.
pose proof (Prim2SF_valid x) as Hvx. pose proof (Prim2SF_valid y) as Hvy.
destruct (Prim2SF y) as [sy|sy| |sy my ey]; cbn [nonneg SF2R];
  try discriminate; try contradiction; try lra.
intros Hnx -> _ Hy.
destruct (Prim2SF x) as [sx|sx| |sx mx ex]; cbn [nonneg] in Hnx;
  try contradiction; try (intros H; discriminate H).
- intros _ _. split; [reflexivity|].
  change (SF64div (S754_zero sx) (S754_finite false my ey))
    with (S754_zero (xorb sx false)).
  cbn [SF2R]. split; [lra|]. unfold Rdiv. rewrite Rmult_0_l. apply rel_refl.
- subst sx. intros Hfin Hlow. split; [reflexivity|].
  cbn [SF2R] in *. unfold sign in *. rewrite !Rmult_1_l in *.
  assert (0 < IZR (Zpos mx) * bpow ex).
  { pose proof (bpow_pos ex).
    assert (0 < IZR (Zpos mx)) by (apply IZR_lt; lia). nra. }
  destruct (Hlow eq_refl) as [H0|Hl]; [lra|].
  now apply SFdiv_rel.
Qed.

Lemma div_half_even_near (n d : Z) :
  (0 < d)%Z -> (Z.abs (2 * (div_half_even n d * d - n)) <= d)%Z.
Proof.
intros Hd. unfold div_half_even.
pose proof (Z.div_mod n d) as Hdm.
pose proof (Z.mod_pos_bound n d Hd) as Hr.
destruct (Z.compare_spec (2 * (n mod d)) d) as [He|Hl|Hg];
  [destruct (Z.even (n / d))| |]; nia.
Qed.

(** The quotient [float(k) / 100] of [round]. *)
Lemma cents_rel (k : Z) :
  (0 <= k < 2 ^ 53)%Z ->
  finite (float_of_Z k / 100) = true ->
  0 <= value (float_of_Z k / 100)
  /\ rel (value (float_of_Z k / 100)) (IZR k / 100).
Proof.
intros Hk Hfin.
destruct (float_of_Z_exact k Hk) as (Hv & Hn & Hf & _).
destruct (div_rel (float_of_Z k) 100) as (_ & H0 & Hrel);
  try assumption; try reflexivity.
- rewrite value_hundred. lra.
- intros _. rewrite Hv, value_hundred.
  destruct (Z.eq_dec k 0) as [->|Hk0]; [now left|right].
  assert (1 <= IZR k) by (apply IZR_le; lia).
  assert (bpow (-1020) <= bpow (-7)) by (apply bpow_le; lia).
  assert (bpow (-7) = / 128) by exact (bpow_neg 7 ltac:(lia)).
  lra.
- rewrite Hv, value_hundred in Hrel. now split.
Qed.

(** [round(x, 2)] of a number below [1/64] in magnitude: the float
    [float(k) / 100], with the sign of the number, for the integer [k]
    nearest to 100 times the magnitude. *)
Lemma round2_cents (x : float) (s : bool) (m : positive) (e : Z) :
  Prim2SF x = S754_finite s m e -> (e < -6)%Z ->
  exists k,
    (0 <= k < 2 ^ 53)%Z
    /\ Rabs (IZR k / 100 - IZR (Zpos m) * bpow e) <= / 200
    /\ round2 x = if s then (- (float_of_Z k / 100))%float
                  else (float_of_Z k / 100)%float.
Proof.
intros Hx He.
pose proof (Prim2SF_valid x) as Hv. rewrite Hx in Hv.
destruct (bounded_spec m e Hv) as (_ & Hm & _).
set (d := (2 ^ (- e))%Z).
set (k := div_half_even (100 * Zpos m) d).
assert (Hd7 : (2 ^ 7 <= d)%Z) by (apply Z.pow_le_mono_r; lia).
assert (Hd0 : (0 < d)%Z) by lia.
exists k. split; [|split].
- destruct (div_half_even_bounds (100 * Zpos m) d ltac:(lia) Hd0)
    as [Hk0 Hk1]. fold k in Hk0, Hk1.
  split; [assumption|].
  assert (100 * Zpos m / d <= 100 * Zpos m / 2 ^ 7)%Z
    by (apply Z.div_le_compat_l; lia).
  assert (100 * Zpos m / 2 ^ 7 < 2 ^ 53 - 1)%Z.
  { apply Z.div_lt_upper_bound; [reflexivity|].
    change (2 ^ 7)%Z with 128%Z.
    change (2 ^ 53)%Z with 9007199254740992%Z in *. lia. }
  lia.
- pose proof (div_half_even_near (100 * Zpos m) d Hd0) as Hnear.
  fold k in Hnear.
  assert (Hbe : bpow e = / IZR d).
  { unfold d. rewrite bpow_IZR by lia. rewrite <- bpow_opp. f_equal. lia. }
  assert (HD : 0 < IZR d) by (apply IZR_lt; lia).
  rewrite Hbe.
  assert (Hz : - IZR d <= 2 * (IZR k * IZR d - 100 * IZR (Zpos m)) <= IZR d).
  { rewrite <- !mult_IZR, <- minus_IZR, <- mult_IZR, <- opp_IZR.
    split; apply IZR_le; lia. }
  replace (IZR k / 100 - IZR (Zpos m) * / IZR d)
    with ((IZR k * IZR d - 100 * IZR (Zpos m)) * / (100 * IZR d))
    by (field; lra).
  assert (Hi : 0 < / (100 * IZR d)) by (apply Rinv_0_lt_compat; lra).
  assert (Hid : IZR d * / (100 * IZR d) = / 100) by (field; lra).
  apply Rabs_le. split.
  + apply Rmult_le_reg_l with 2; [lra|].
    replace (2 * - / 200) with (- IZR d * / (100 * IZR d))
      by (rewrite Ropp_mult_distr_l_reverse, Hid; lra).
    rewrite <- Rmult_assoc. apply Rmult_le_compat_r; lra.
  + apply Rmult_le_reg_l with 2; [lra|].
    replace (2 * / 200) with (IZR d * / (100 * IZR d)) by (rewrite Hid; lra).
    rewrite <- Rmult_assoc. apply Rmult_le_compat_r; lra.
- unfold round2. rewrite Hx.
  now replace (-6 <=? e)%Z with false by (symmetry; apply Z.leb_gt; lia).
Qed.

(** A rounding to 2 places that is a number comes from a number, and is
    within half a cent and a relative [2^-52] of it. *)
Lemma round2_error (x : float) :
  finite (round2 x) = true ->
  finite x = true
  /\ Rabs (value (round2 x) - value x)
     <= / 200 + bpow (-52) * Rabs (value (round2 x)).
Proof.
assert (Hsame : round2 x = x -> finite (round2 x) = true ->
                finite x = true
                /\ Rabs (value (round2 x) - value x)
                   <= / 200 + bpow (-52) * Rabs (value (round2 x))).
{ intros ->. intros Hf. split; [assumption|].
  rewrite Rminus_diag, Rabs_R0. pose proof (bpow_pos (-52)).
  pose proof (Rabs_pos (value x)). nra. }
destruct (Prim2SF x) as [s|s| |s m e] eqn:Hx;
  try (apply Hsame; unfold round2; now rewrite Hx).
destruct (Z.le_gt_cases (-6) e) as [He|He].
{ apply Hsame. unfold round2. rewrite Hx.
  now replace (-6 <=? e)%Z with true by (symmetry; apply Z.leb_le; lia). }
destruct (round2_cents x s m e Hx He) as (k & Hk & Hcent & Hr).
rewrite Hr. intros Hfin.
assert (Hfr : finite (float_of_Z k / 100) = true)
  by (destruct s; [rewrite finite_opp in Hfin|]; exact Hfin).
destruct (cents_rel k Hk Hfr) as [Hr0 Hrel].
set (vr := value (float_of_Z k / 100)) in *.
split; [unfold finite; now rewrite Hx|].
assert (HX : value x = sign s * (IZR (Zpos m) * bpow e))
  by (unfold value; rewrite Hx; cbn [SF2R]; ring).
assert (HR : value (if s then (- (float_of_Z k / 100))%float
                    else (float_of_Z k / 100)%float) = sign s * vr).
{ destruct s; [rewrite value_opp|]; unfold sign; fold vr; ring. }
rewrite HR, HX, (Rabs_sign s vr Hr0).
replace (sign s * vr - sign s * (IZR (Zpos m) * bpow e))
  with (sign s * (vr - IZR (Zpos m) * bpow e)) by ring.
assert (Hsgn : forall z, Rabs (sign s * z) = Rabs z).
{ intros z. rewrite Rabs_mult. replace (Rabs (sign s)) with 1; [ring|].
  destruct s; unfold sign; [rewrite Rabs_left|rewrite Rabs_right]; lra. }
rewrite Hsgn.
unfold rel in Hrel. rewrite (Rabs_pos_eq vr Hr0) in Hrel.
replace (vr - IZR (Zpos m) * bpow e)
  with ((vr - IZR k / 100) + (IZR k / 100 - IZR (Zpos m) * bpow e)) by ring.
eapply Rle_trans; [apply Rabs_triang|]. lra.
Qed.

End FloatReal.

Module FloatSums.
Import Binary64 SpecFloatFacts Binary64Round.
Import FloatValue FloatRounding FloatError FloatDivision FloatReal.
Local Open Scope R_scope.

(** The exact sum of real numbers. *)
Fixpoint Rsum (l : list R) : R :=
  match l with
  | [] => 0
  | x :: l' => x + Rsum l'
  end.

Lemma Rsum_nonneg (l : list R) : Forall (fun x => 0 <= x) l -> 0 <= Rsum l.
Proof.
induction 1 as [|x l Hx Hl IH]; cbn [Rsum]; lra.
Qed.

Lemma Rsum_plus (A : Type) (f g : A -> R) (l : list A) :
  Rsum (map (fun x => f x + g x) l) = Rsum (map f l) + Rsum (map g l).
Proof.
induction l as [|x l IH]; cbn [map Rsum]; [ring|]. rewrite IH. ring.
Qed.

Lemma Rsum_scal (A : Type) (c : R) (f : A -> R) (l : list A) :
  Rsum (map (fun x => c * f x) l) = c * Rsum (map f l).
Proof.
induction l as [|x l IH]; cbn [map Rsum]; [ring|]. rewrite IH. ring.
Qed.

Lemma Rsum_const (A : Type) (c : R) (l : list A) :
  Rsum (map (fun _ => c) l) = INR (List.length l) * c.
Proof.
induction l as [|x l IH]; [cbn; ring|].
cbn [map Rsum List.length]. rewrite IH, S_INR. ring.
Qed.

Lemma Rsum_ext (A : Type) (f g : A -> R) (l : list A) :
  (forall x, In x l -> f x = g x) -> Rsum (map f l) = Rsum (map g l).
Proof.
induction l as [|x l IH]; intros Hfg; cbn [map Rsum]; [reflexivity|].
rewrite IH, (Hfg x) by (intros; try apply Hfg; simpl; auto). reflexivity.
Qed.

Lemma Rsum_le (A : Type) (f g : A -> R) (l : list A) :
  (forall x, In x l -> f x <= g x) -> Rsum (map f l) <= Rsum (map g l).
Proof.
induction l as [|x l IH]; intros Hfg; cbn [map Rsum]; [lra|].
assert (f x <= g x) by (apply Hfg; simpl; auto).
assert (Rsum (map f l) <= Rsum (map g l))
  by (apply IH; intros; apply Hfg; simpl; auto).
lra.
Qed.

(** Sums that are close term by term are close. *)
Lemma Rsum_close (A : Type) (f g e : A -> R) (l : list A) :
  (forall x, In x l -> Rabs (f x - g x) <= e x) ->
  Rabs (Rsum (map f l) - Rsum (map g l)) <= Rsum (map e l).
Proof.
induction l as [|x l IH]; intros Hfg; cbn [map Rsum].
- rewrite Rminus_diag, Rabs_R0. lra.
- assert (Hx : Rabs (f x - g x) <= e x) by (apply Hfg; simpl; auto).
  assert (Hl : Rabs (Rsum (map f l) - Rsum (map g l)) <= Rsum (map e l))
    by (apply IH; intros; apply Hfg; simpl; auto).
  replace (f x + Rsum (map f l) - (g x + Rsum (map g l)))
    with ((f x - g x) + (Rsum (map f l) - Rsum (map g l))) by ring.
  eapply Rle_trans; [apply Rabs_triang|]. lra.
Qed.

(** One payer's indicator, summed over a duplicate-free list with the
    payer. *)
Lemma Rsum_indicator (q : string) (a : R) (U : list string) :
  NoDup U -> In q U ->
  Rsum (map (fun p => if String.eqb q p then a else 0) U) = a.
Proof.
induction U as [|p U IH]; intros Hnd Hin; [destruct Hin|].
inversion Hnd as [|? ? Hp HU]; subst. cbn [map Rsum].
destruct (String.eqb_spec q p) as [->|Hne].
- rewrite (Rsum_ext _ (fun p0 => if String.eqb p p0 then a else 0)
             (fun _ => 0)).
  + rewrite Rsum_const. ring.
  + intros x Hx. destruct (String.eqb_spec p x); [congruence|reflexivity].
- destruct Hin as [->|Hin]; [congruence|]. rewrite (IH HU Hin). ring.
Qed.

(** One addition in a sum of floats that are not negative. *)
Lemma sum_step (A0 va v v' k : R) :
  0 <= A0 -> 0 <= va -> 0 <= k ->
  2 * (k + 1) * bpow (-52) <= 1 ->
  A0 * (1 - k * bpow (-52)) <= v <= A0 * (1 + 2 * k * bpow (-52)) ->
  v' * (1 - bpow (-52)) <= v + va <= v' * (1 + bpow (-52)) ->
  (A0 + va) * (1 - (k + 1) * bpow (-52)) <= v'
  <= (A0 + va) * (1 + 2 * (k + 1) * bpow (-52)).
Proof.
rewrite bpow_52. intros HA Ha Hk Hku [Hv1 Hv2] [Hr1 Hr2].
assert (0 <= A0 * k) by (apply Rmult_le_pos; assumption).
assert (0 <= va * k) by (apply Rmult_le_pos; assumption).
assert (0 <= A0 * (1 - 2 * (k + 1) * / 4503599627370496))
  by (apply Rmult_le_pos; lra).
assert (0 <= va * (1 - 2 * (k + 1) * / 4503599627370496))
  by (apply Rmult_le_pos; lra).
split; lra.
Qed.

Lemma fold_add_finite (l : list float) (acc : float) :
  finite (fold_left PrimFloat.add l acc) = true ->
  finite acc = true /\ Forall (fun a => finite a = true) l.
Proof.
revert acc. induction l as [|a l IH]; intros acc Hf; cbn [fold_left] in Hf.
- split; [assumption|constructor].
- destruct (IH _ Hf) as [Hacc Hl].
  destruct (add_rel acc a Hacc) as (H1 & H2 & _).
  split; [assumption|now constructor].
Qed.

(** A sum of [k] floats that are not negative, added up in order, is within
    [2 * k * 2^-52], relatively, of their exact sum. *)
Lemma fold_add_bound (l : list float) (acc : float) (A0 : R) (k0 : nat) :
  Forall (fun a => nonneg (Prim2SF a)) l ->
  nonneg (Prim2SF acc) ->
  finite (fold_left PrimFloat.add l acc) = true ->
  0 <= A0 ->
  2 * (INR k0 + INR (List.length l)) * bpow (-52) <= 1 ->
  A0 * (1 - INR k0 * bpow (-52)) <= value acc
    <= A0 * (1 + 2 * INR k0 * bpow (-52)) ->
  (A0 + Rsum (map value l))
    * (1 - (INR k0 + INR (List.length l)) * bpow (-52))
  <= value (fold_left PrimFloat.add l acc)
  <= (A0 + Rsum (map value l))
       * (1 + 2 * (INR k0 + INR (List.length l)) * bpow (-52)).
Proof.
intros Hl. revert acc A0 k0.
induction Hl as [|a l Ha Hl IH]; intros acc A0 k0 Hacc Hf HA Hk Hv.
- cbn [fold_left map Rsum List.length INR] in *.
  rewrite !Rplus_0_r. exact Hv.
- cbn [fold_left map Rsum List.length] in *. rewrite S_INR in *.
  destruct (fold_add_finite l _ Hf) as [Hfa _].
  destruct (add_rel acc a Hfa) as (_ & _ & Hrel).
  assert (Hn : nonneg (Prim2SF (acc + a)))
    by (rewrite add_spec; now apply SFadd_nonneg).
  pose proof (nonneg_SF2R _ Hn) as Hpos. fold (value (acc + a)) in Hpos.
  pose proof (nonneg_SF2R _ Ha) as Hpa. fold (value a) in Hpa.
  pose proof (pos_INR k0) as Hk0. pose proof (pos_INR (List.length l)) as Hk1.
  pose proof (bpow_pos (-52)) as Hu.
  specialize (IH (acc + a)%float (A0 + value a) (S k0) Hn Hf
                ltac:(lra)).
  rewrite S_INR in IH.
  replace (INR k0 + 1 + INR (List.length l))
    with (INR k0 + (INR (List.length l) + 1)) in IH by ring.
  replace (A0 + value a + Rsum (map value l))
    with (A0 + (value a + Rsum (map value l))) in IH by ring.
  apply IH; [assumption|].
  apply sum_step with (v := value acc); try assumption.
  + assert (0 <= INR (List.length l) * bpow (-52))
      by (apply Rmult_le_pos; lra).
    lra.
  + now apply rel_bounds.
Qed.

(** The builtin [sum] of floats that are not negative. *)
Lemma sum_bound (l : list float) :
  Forall (fun a => nonneg (Prim2SF a)) l ->
  finite (fold_left PrimFloat.add l (float_of_Z 0)) = true ->
  2 * INR (List.length l) * bpow (-52) <= 1 ->
  Forall (fun a => finite a = true) l
  /\ Rsum (map value l) * (1 - INR (List.length l) * bpow (-52))
     <= value (fold_left PrimFloat.add l (float_of_Z 0))
     <= Rsum (map value l) * (1 + 2 * INR (List.length l) * bpow (-52)).
Proof.
intros Hl Hf Hk. split; [apply (fold_add_finite l _ Hf)|].
pose proof (fold_add_bound l (float_of_Z 0) 0 0 Hl I Hf (Rle_refl 0)) as H.
cbn [INR] in H. rewrite !Rplus_0_l in H. apply H; [assumption|].
change (value (float_of_Z 0)) with 0. lra.
Qed.

(** One addition in a sum of floats of any sign: [B0] bounds the sum of
    the magnitudes so far, [E0] is the exact sum so far. *)
Lemma sum_error_step (B0 E0 x v v' k : R) :
  0 <= B0 -> 0 <= k ->
  2 * (k + 1) * bpow (-52) <= 1 ->
  Rabs v <= B0 * (1 + 2 * k * bpow (-52)) ->
  Rabs (v - E0) <= 2 * k * bpow (-52) * B0 ->
  rel v' (v + x) ->
  Rabs v' <= (B0 + Rabs x) * (1 + 2 * (k + 1) * bpow (-52))
  /\ Rabs (v' - (E0 + x)) <= 2 * (k + 1) * bpow (-52) * (B0 + Rabs x).
Proof.
unfold rel. rewrite bpow_52. intros HB Hk Hku Hv HE Hr.
pose proof (Rabs_pos x) as Hx.
assert (0 <= B0 * k) by (apply Rmult_le_pos; assumption).
assert (0 <= Rabs x * k) by (apply Rmult_le_pos; assumption).
assert (0 <= B0 * (1 - 2 * (k + 1) * / 4503599627370496))
  by (apply Rmult_le_pos; lra).
assert (0 <= Rabs x * (1 - 2 * (k + 1) * / 4503599627370496))
  by (apply Rmult_le_pos; lra).
assert (Hv' : Rabs v' <= (B0 + Rabs x) * (1 + 2 * (k + 1) * / 4503599627370496)).
{ assert (Rabs v' <= Rabs (v' - (v + x)) + Rabs v + Rabs x).
  { replace v' with ((v' - (v + x)) + v + x) at 1 by ring.
    eapply Rle_trans; [apply Rabs_triang|].
    apply Rplus_le_compat_r. apply Rabs_triang. }
  lra. }
split; [exact Hv'|].
replace (v' - (E0 + x)) with ((v' - (v + x)) + (v - E0)) by ring.
eapply Rle_trans; [apply Rabs_triang|]. lra.
Qed.

(** A sum of [k] floats, added up in order, is within [2 * k * 2^-52]
    times the sum of their magnitudes of their exact sum. *)
Lemma fold_add_error (l : list float) (acc : float) (B0 E0 : R) (k0 : nat) :
  finite (fold_left PrimFloat.add l acc) = true ->
  0 <= B0 ->
  2 * (INR k0 + INR (List.length l)) * bpow (-52) <= 1 ->
  Rabs (value acc) <= B0 * (1 + 2 * INR k0 * bpow (-52)) ->
  Rabs (value acc - E0) <= 2 * INR k0 * bpow (-52) * B0 ->
  Rabs (value (fold_left PrimFloat.add l acc) - (E0 + Rsum (map value l)))
  <= 2 * (INR k0 + INR (List.length l)) * bpow (-52)
     * (B0 + Rsum (map (fun a => Rabs (value a)) l)).
Proof.
revert acc B0 E0 k0.
induction l as [|a l IH]; intros acc B0 E0 k0 Hf HB Hk Hv HE.
- cbn [fold_left map Rsum List.length INR] in *.
  rewrite !Rplus_0_r. exact HE.
- cbn [fold_left map Rsum List.length] in *. rewrite S_INR in *.
  destruct (fold_add_finite l _ Hf) as [Hfa _].
  destruct (add_rel acc a Hfa) as (_ & _ & Hrel).
  pose proof (pos_INR k0) as Hk0. pose proof (pos_INR (List.length l)) as Hk1.
  pose proof (bpow_pos (-52)) as Hu.
  pose proof (Rabs_pos (value a)) as Ha.
  destruct (sum_error_step B0 E0 (value a) (value acc) (value (acc + a))
              (INR k0) HB Hk0) as [H1 H2]; try assumption.
  { assert (0 <= INR (List.length l) * bpow (-52))
      by (apply Rmult_le_pos; lra).
    lra. }
  specialize (IH (acc + a)%float (B0 + Rabs (value a)) (E0 + value a)
                (S k0) Hf ltac:(lra)).
  rewrite S_INR in IH.
  replace (INR k0 + 1 + INR (List.length l))
    with (INR k0 + (INR (List.length l) + 1)) in IH by ring.
  replace (E0 + value a + Rsum (map value l))
    with (E0 + (value a + Rsum (map value l))) in IH by ring.
  replace (B0 + Rabs (value a) + Rsum (map (fun a0 => Rabs (value a0)) l))
    with (B0 + (Rabs (value a)
                + Rsum (map (fun a0 => Rabs (value a0)) l))) in IH by ring.
  apply IH; assumption.
Qed.

(** The builtin [sum] of floats of any sign. *)
Lemma sum_error (l : list float) :
  finite (fold_left PrimFloat.add l (float_of_Z 0)) = true ->
  2 * INR (List.length l) * bpow (-52) <= 1 ->
  Rabs (value (fold_left PrimFloat.add l (float_of_Z 0)) - Rsum (map value l))
  <= 2 * INR (List.length l) * bpow (-52)
     * Rsum (map (fun a => Rabs (value a)) l).
Proof.
intros Hf Hk.
pose proof (fold_add_error l (float_of_Z 0) 0 0 0 Hf (Rle_refl 0)) as H.
cbn [INR] in H. rewrite !Rplus_0_l in H. apply H; [assumption| |].
- change (value (float_of_Z 0)) with 0. rewrite Rabs_R0. lra.
- change (value (float_of_Z 0)) with 0. rewrite Rminus_diag, Rabs_R0. lra.
Qed.

End FloatSums.

Module ZeroSum.
Import Binary64 Binary64Facts SpecFloatFacts Binary64Round.
Import Binary64Termination Validation ValidatedLedger.
Import FloatValue FloatRounding FloatError FloatDivision FloatReal FloatSums.
Local Open Scope R_scope.

(** An amount [validate_amount] accepts is its own rounding to 2 places. *)
Lemma validate_amount_fixed (v a : float) :
  validate_amount v = inr a -> (round2 v =? v)%float = true.
Proof.
unfold validate_amount. destruct (v <=? 0)%float; [discriminate|].
destruct (Binary64.round2 v =? v)%float; [reflexivity|discriminate].
Qed.

(** An amount [validate_amount] accepts is not negative, and at least
    [1/128] when it is a number. *)
Lemma validated_amount (v a : float) :
  validate_amount v = inr a ->
  nonneg (Prim2SF v) /\ (finite v = true -> / 128 <= value v).
Proof.
intros Hv. pose proof (validate_amount_positive v a Hv) as Hpos.
pose proof (validate_amount_fixed v a Hv) as Hfix.
rewrite ltb_spec, Prim2SF_zero in Hpos.
split; [now apply SFltb_zero_nonneg|]. intros Hfin.
rewrite eqb_spec in Hfix. unfold finite in Hfin. unfold value.
destruct (Prim2SF v) as [s|s| |s m e] eqn:Hx;
  try discriminate Hfin; try (destruct s; discriminate Hpos).
destruct s; [discriminate Hpos|].
assert (Hm : 1 <= IZR (Zpos m)) by (apply IZR_le; lia).
cbn [SF2R]. unfold sign. rewrite Rmult_1_l.
destruct (Z.le_gt_cases (-6) e) as [He|He].
- assert (bpow (-6) <= bpow e) by (apply bpow_le; lia).
  assert (bpow (-6) = / 64) by exact (bpow_neg 6 ltac:(lia)).
  pose proof (bpow_pos e). nra.
- destruct (round2_cents v false m e Hx He) as (k & Hk & _ & Hr).
  rewrite Hr in Hfix.
  apply (SFeqb_pos_eq _ _ Hpos) in Hfix.
  assert (Hfr : finite (float_of_Z k / 100) = true)
    by (unfold finite; now rewrite Hfix).
  destruct (cents_rel k Hk Hfr) as [Hr0 Hrel].
  unfold value in Hr0, Hrel. rewrite Hfix in Hr0, Hrel.
  cbn [SF2R] in Hr0, Hrel. unfold sign in Hr0, Hrel.
  rewrite Rmult_1_l in Hr0, Hrel.
  pose proof (bpow_pos e) as Hbe.
  set (w := IZR (Zpos m) * bpow e) in *.
  assert (Hw : 0 < w) by (unfold w; nra).
  apply rel_bounds in Hrel; [|assumption]. rewrite bpow_52 in Hrel.
  destruct (Z.eq_dec k 0) as [->|Hk0]; [lra|].
  assert (1 <= IZR k) by (apply IZR_le; lia). lra.
Qed.

(** The error of one net balance: [P] is what the payer paid, added up in
    floats from amounts of exact sum [Ap]; [S] is the share, [D] the float
    [P - S] and [N] its rounding to 2 places. *)
Lemma net_error (Ap S P D N m mp : R) :
  0 <= Ap -> 0 <= S -> 0 <= mp <= m -> m <= 1099511627776 ->
  Ap * (1 - mp * bpow (-52)) <= P <= Ap * (1 + 2 * mp * bpow (-52)) ->
  rel D (P - S) ->
  Rabs (N - D) <= / 200 + bpow (-52) * Rabs N ->
  Rabs (N - (Ap + - S))
  <= (/ 200 + bpow (-52) * (201 / 100 * S + / 199))
     + (201 / 100 * bpow (-52) + 2 * m * bpow (-52)) * Ap
  /\ Rabs N <= (1001 / 1000 * S + / 199) + 1001 / 1000 * Ap.
Proof.
unfold rel. rewrite bpow_52. intros HA HS [Hmp0 Hmp] Hm [HP1 HP2] HD HN.
assert (0 <= Ap * mp) by (apply Rmult_le_pos; assumption).
assert (Ap * mp <= Ap * m) by (apply Rmult_le_compat_l; assumption).
assert (Ap * m <= Ap * 1099511627776)
  by (apply Rmult_le_compat_l; assumption).
revert HD HN. unfold Rabs.
repeat match goal with |- context [Rcase_abs ?x] => destruct (Rcase_abs x) end;
  intros HD HN; split; lra.
Qed.

Section Balances.
Context {sets : PySet}.

(** The exact sums: of the amounts a payer paid, of all amounts, and of the
    balances of a mapping. *)
Definition exact_paid (l : list (Expense float)) (p : string) : R :=
  Rsum (map value
          (map (@amount float)
               (filter (fun e => String.eqb (paid_by e) p) l))).

Definition exact_total (l : list (Expense float)) : R :=
  Rsum (map value (map (@amount float) l)).

Definition exact_sum (balances : dict float) : R :=
  Rsum (map value (map snd balances)).

(** What the payers paid adds up to the total. *)
Lemma exact_paid_sum (U : list string) (l : list (Expense float)) :
  NoDup U -> (forall e, In e l -> In (paid_by e) U) ->
  Rsum (map (exact_paid l) U) = exact_total l.
Proof.
intros Hnd. induction l as [|e l IH]; intros HU.
- rewrite (Rsum_ext _ (exact_paid []) (fun _ => 0))
    by (intros; reflexivity).
  rewrite Rsum_const. unfold exact_total. cbn. ring.
- rewrite (Rsum_ext _ (exact_paid (e :: l))
             (fun p => (if String.eqb (paid_by e) p
                        then value (amount e) else 0) + exact_paid l p)).
  + rewrite Rsum_plus, (Rsum_indicator _ _ U Hnd (HU e (or_introl eq_refl))).
    rewrite IH by (intros; apply HU; simpl; auto).
    unfold exact_total. cbn [map Rsum]. ring.
  + intros p _. unfold exact_paid. cbn [filter].
    destruct (String.eqb (paid_by e) p); cbn [map Rsum]; ring.
Qed.

Lemma balances_of_values (l : list (Expense float)) :
  map snd (balances_of l) = map (net_of l) (unique_people l).
Proof.
destruct l as [|e l].
- cbn [balances_of map]. unfold unique_people. cbn [map].
  destruct (set_iter []) as [|p U] eqn:HU; [reflexivity|].
  pose proof (proj1 (set_iter_In [] p)) as Hin. rewrite HU in Hin.
  destruct (Hin (or_introl eq_refl)).
- change (balances_of (e :: l))
    with (balances_for (e :: l)
            (fdiv (total_of (e :: l)) (of_int (count_payers (e :: l))))).
  set (es := e :: l).
  set (share := fdiv (total_of es) (of_int (count_payers es))).
  unfold balances_for.
  change (fold_left _ (unique_people es) [])
    with (fill (fun k => k)
            (fun _ k =>
               round2 (fsub (dict_get_default (paid_by_person es) k int0)
                            share))
            (unique_people es) []).
  rewrite fill_distinct by apply set_iter_NoDup.
  cbn [app]. rewrite map_map. cbn [snd]. apply map_ext.
  intros p. now rewrite paid_by_person_get.
Qed.

Lemma validated_nonneg (l : list (Expense float)) :
  Forall (fun e => validate_amount (amount e) = inr (amount e)) l ->
  Forall (fun a => nonneg (Prim2SF a)) (map (@amount float) l).
Proof.
intros H. apply Forall_map. revert H. apply Forall_impl.
intros e He. apply (validated_amount _ _ He).
Qed.

Lemma length_bound (l : list (Expense float)) :
  (Z.of_nat (List.length l) <= 2 ^ 40)%Z ->
  0 <= INR (List.length l) <= 1099511627776.
Proof.
intros H. split; [apply pos_INR|].
rewrite INR_IZR_INZ. apply IZR_le in H. exact H.
Qed.

(** The total, when it is a number: every amount is a number, and the total
    is close to the exact sum of the amounts. *)
Lemma total_bounds (l : list (Expense float)) :
  Forall (fun e => validate_amount (amount e) = inr (amount e)) l ->
  (Z.of_nat (List.length l) <= 2 ^ 40)%Z ->
  finite (total_of l) = true ->
  exact_total l * (1 - INR (List.length l) * bpow (-52))
    <= value (total_of l)
    <= exact_total l * (1 + 2 * INR (List.length l) * bpow (-52))
  /\ INR (List.length l) * / 128 <= exact_total l.
Proof.
intros Hval Hlen Hfin. destruct (length_bound l Hlen) as [Hm0 Hm].
unfold total_of in *. cbn [py_sum binary64] in *.
destruct (sum_bound (map (@amount float) l)) as [Hall Hb].
- now apply validated_nonneg.
- exact Hfin.
- rewrite length_map, bpow_52. lra.
- rewrite length_map in Hb. split; [exact Hb|].
  unfold exact_total. rewrite <- (Rsum_const _ (/ 128) l).
  rewrite map_map. apply Rsum_le. intros e He.
  rewrite Forall_forall in Hval, Hall.
  apply (validated_amount _ _ (Hval e He)).
  apply Hall. now apply in_map.
Qed.

(** What a payer paid, when it is a number: close to the exact sum of the
    payer's amounts. *)
Lemma paid_bounds (l : list (Expense float)) (p : string) :
  Forall (fun e => validate_amount (amount e) = inr (amount e)) l ->
  (Z.of_nat (List.length l) <= 2 ^ 40)%Z ->
  finite (paid_of l p) = true ->
  0 <= exact_paid l p
  /\ exists mp,
       0 <= mp <= INR (List.length l)
       /\ exact_paid l p * (1 - mp * bpow (-52))
          <= value (paid_of l p)
          <= exact_paid l p * (1 + 2 * mp * bpow (-52)).
Proof.
intros Hval Hlen Hfin. destruct (length_bound l Hlen) as [Hm0 Hm].
unfold paid_of in *. cbn [fadd binary64] in *.
change (@int0 float binary64) with (float_of_Z 0) in *.
set (lp := filter (fun e => String.eqb (paid_by e) p) l) in *.
assert (Hnn : Forall (fun a => nonneg (Prim2SF a)) (map (@amount float) lp)).
{ apply validated_nonneg. rewrite Forall_forall in *.
  intros e He. apply Hval. unfold lp in He. now apply filter_In in He. }
assert (Hle : INR (List.length lp) <= INR (List.length l))
  by (apply le_INR, filter_length_le).
split.
- unfold exact_paid. fold lp. apply Rsum_nonneg.
  apply Forall_map. revert Hnn. apply Forall_impl.
  intros a Ha. now apply nonneg_SF2R.
- exists (INR (List.length lp)). split; [split; [apply pos_INR|exact Hle]|].
  destruct (sum_bound (map (@amount float) lp) Hnn Hfin) as [_ Hb].
  + rewrite length_map, bpow_52. lra.
  + rewrite length_map in Hb. exact Hb.
Qed.

(** The net balances of a validated list, when they are numbers, add up to
    0 within half a cent for each payer and the rounding errors of the
    float operations. *)
Lemma net_sum_bound (l : list (Expense float)) :
  Forall (fun e => validate_amount (amount e) = inr (amount e)) l ->
  (Z.of_nat (List.length l) <= 2 ^ 40)%Z ->
  Forall (fun p => finite (net_of l p) = true) (unique_people l) ->
  Rabs (Rsum (map (fun p => value (net_of l p)) (unique_people l)))
  <= INR (List.length (unique_people l)) * / 200
     + (4 * INR (List.length l) + 6) * bpow (-52) * exact_total l
  /\ Rsum (map (fun p => Rabs (value (net_of l p))) (unique_people l))
     <= 265 / 100 * exact_total l.
Proof.
intros Hval Hlen Hfin. destruct (length_bound l Hlen) as [Hm0 Hm].
assert (HA0 : 0 <= exact_total l).
{ apply Rsum_nonneg, Forall_map.
  pose proof (validated_nonneg l Hval) as Hnn. revert Hnn.
  apply Forall_impl. intros a Ha. now apply nonneg_SF2R. }
assert (Hnd : NoDup (unique_people l)) by apply set_iter_NoDup.
assert (Hnm : (List.length (unique_people l) <= List.length l)%nat).
{ rewrite <- (length_map (@paid_by float) l).
  apply NoDup_incl_length; [exact Hnd|].
  intros p Hp. now apply unique_people_In in Hp. }
assert (Hcount : count_payers l = Z.of_nat (List.length (unique_people l)))
  by (symmetry; apply unique_people_count).
pose proof (le_INR _ _ Hnm) as Hnm'.
pose proof (bpow_pos (-52)) as Hu.
set (U := unique_people l) in *. set (n := INR (List.length U)) in *.
set (m := INR (List.length l)) in *. set (A := exact_total l) in *.
assert (Hcase : U = [] \/ exists p0, In p0 U).
{ clear. destruct U as [|p0 U]; [now left|right].
  exists p0. now left. }
destruct Hcase as [HU|(p0 & Hp0)].
{ rewrite HU. cbn [map Rsum List.length]. rewrite Rabs_R0.
  assert (0 <= (4 * m + 6) * bpow (-52) * A).
  { apply Rmult_le_pos; [apply Rmult_le_pos|]; lra. }
  unfold n. rewrite HU. cbn [List.length INR]. split; lra. }
assert (Hn1 : 1 <= n).
{ unfold n. destruct U as [|q U']; [destruct Hp0|].
  cbn [List.length]. rewrite S_INR. pose proof (pos_INR (List.length U')).
  lra. }
set (nf := float_of_Z (count_payers l)).
set (S := (total_of l / nf)%float).
assert (Hnet : forall p, net_of l p = round2 (paid_of l p - S)%float)
  by reflexivity.
(* the divisor *)
destruct (float_of_Z_exact (count_payers l)) as (Hvn & Hnn & Hfn & _).
{ rewrite Hcount. split; [lia|].
  apply Z.le_lt_trans with (2 ^ 40)%Z; [|reflexivity].
  apply Z.le_trans with (Z.of_nat (List.length l)); [lia|assumption]. }
fold nf in Hvn, Hnn, Hfn.
assert (Hvn' : value nf = n)
  by (rewrite Hvn, Hcount; unfold n; now rewrite INR_IZR_INZ).
(* the share *)
assert (HfS : finite S = true).
{ rewrite Forall_forall in Hfin. specialize (Hfin p0 Hp0).
  rewrite Hnet in Hfin. apply round2_error in Hfin as [Hfin _].
  now apply sub_rel in Hfin as (_ & HS & _). }
assert (HnT : nonneg (Prim2SF (total_of l))).
{ unfold total_of. cbn [py_sum binary64].
  apply fold_add_nonneg; [exact I|now apply validated_nonneg]. }
destruct (div_rel (total_of l) nf HnT Hnn Hfn) as (HfT & HS0 & HSrel).
{ rewrite Hvn'. lra. }
{ exact HfS. }
{ intros HfT. right.
  destruct (total_bounds l Hval Hlen HfT) as [[HT1 _] HA].
  fold m A in HT1, HA. rewrite Hvn'.
  apply Rle_trans with (/ 256).
  - assert (bpow (-1020) <= bpow (-8)) by (apply bpow_le; lia).
    assert (bpow (-8) = / 256) by exact (bpow_neg 8 ltac:(lia)). lra.
  - apply Rmult_le_reg_r with n; [lra|]. unfold Rdiv.
    rewrite Rmult_assoc, Rinv_l by lra.
    rewrite bpow_52 in HT1.
    assert (0 <= A * m) by (apply Rmult_le_pos; lra).
    assert (A * m <= A * 1099511627776)
      by (apply Rmult_le_compat_l; lra).
    lra. }
fold S in HS0, HSrel. rewrite Hvn' in HSrel.
destruct (total_bounds l Hval Hlen HfT) as [[HT1 HT2] HA].
fold m A in HT1, HT2, HA.
set (vS := value S) in *. set (vT := value (total_of l)) in *.
(* one payer *)
set (c0 := / 200 + bpow (-52) * (201 / 100 * vS + / 199)).
set (c1 := 201 / 100 * bpow (-52) + 2 * m * bpow (-52)).
assert (Hone : forall p, In p U ->
          Rabs (value (net_of l p) - (exact_paid l p + - vS))
          <= c0 + c1 * exact_paid l p
          /\ Rabs (value (net_of l p))
             <= (1001 / 1000 * vS + / 199) + 1001 / 1000 * exact_paid l p).
{ intros p Hp. rewrite Forall_forall in Hfin. specialize (Hfin p Hp).
  rewrite Hnet in *.
  destruct (round2_error _ Hfin) as [HfD HN].
  destruct (sub_rel _ _ HfD) as (HfP & _ & HD).
  destruct (paid_bounds l p Hval Hlen HfP) as (HAp & mp & Hmp & HP).
  fold vS in HD. fold m in Hmp.
  exact (net_error _ _ _ _ _ m mp HAp HS0 Hmp Hm HP HD HN). }
pose proof (Rsum_close _ (fun p => value (net_of l p))
              (fun p => exact_paid l p + - vS)
              (fun p => c0 + c1 * exact_paid l p) U
              (fun p Hp => proj1 (Hone p Hp))) as Hsum.
pose proof (Rsum_le _ (fun p => Rabs (value (net_of l p)))
              (fun p => (1001 / 1000 * vS + / 199)
                        + 1001 / 1000 * exact_paid l p) U
              (fun p Hp => proj2 (Hone p Hp))) as Hmag.
rewrite !Rsum_plus, !Rsum_const, Rsum_scal in Hsum, Hmag.
assert (HUl : forall e, In e l -> In (paid_by e) U)
  by (intros e He; apply unique_people_In; unfold payers; now apply in_map).
rewrite (exact_paid_sum U l Hnd HUl) in Hsum, Hmag.
fold n A in Hsum, Hmag.
(* the share, times the number of payers *)
apply rel_bounds in HSrel; [|assumption].
assert (HX : (n * vS) * (1 - bpow (-52)) <= vT
             <= (n * vS) * (1 + bpow (-52))).
{ destruct HSrel as [H1 H2].
  replace vT with (vT / n * n) by (field; lra).
  split.
  - rewrite (Rmult_comm n vS), Rmult_assoc, (Rmult_comm n), <- Rmult_assoc.
    apply Rmult_le_compat_r; lra.
  - rewrite (Rmult_comm n vS), Rmult_assoc, (Rmult_comm n), <- Rmult_assoc.
    apply Rmult_le_compat_r; lra. }
assert (HX0 : 0 <= n * vS) by (apply Rmult_le_pos; lra).
assert (HAm0 : 0 <= A * m) by (apply Rmult_le_pos; lra).
assert (HAm : A * m <= A * 1099511627776)
  by (apply Rmult_le_compat_l; lra).
unfold c0, c1 in Hsum. rewrite bpow_52 in *.
split; [|lra].
revert Hsum. unfold Rabs.
repeat match goal with |- context [Rcase_abs ?x] => destruct (Rcase_abs x) end;
  intros Hsum; lra.
Qed.

(** C2, amended.  On binary64 floats, for a snapshot whose amounts
    [validate_amount] accepts, with at most [2^40] expenses, and whose net
    balances are numbers (no infinity and no nan): the exact sum of the net
    balances the reducer returns is 0 within
    [0.005 * n + (4 * m + 6) * 2^-52 * A], and their float sum, as the
    builtin [sum] adds them up, is 0 within
    [0.005 * n + (4 * m + 6 * n + 6) * 2^-52 * A] when it is a number, for
    [n] the number of distinct payers, [m] the number of expenses and [A]
    the exact sum of the amounts. *)
Theorem net_balances_sum_bound (self : ExpenseService float)
    (balances : dict float) :
  validated self ->
  (Z.of_nat (List.length (expenses self)) <= 2 ^ 40)%Z ->
  _calculate_individual_balances self = Ok balances ->
  Forall (fun b => finite (snd b) = true) balances ->
  let n := IZR (count_payers (expenses self)) in
  let m := INR (List.length (expenses self)) in
  let A := exact_total (expenses self) in
  Rabs (exact_sum balances) <= n * / 200 + (4 * m + 6) * bpow (-52) * A
  /\ (finite (py_sum (map snd balances)) = true ->
      Rabs (value (py_sum (map snd balances)))
      <= n * / 200 + (4 * m + 6 * n + 6) * bpow (-52) * A).
Proof.
intros Hval Hlen Hbal Hfin n m A. rewrite reducer_total in Hbal.
injection Hbal as <-. unfold exact_sum.
rewrite <- Forall_map with (f := snd) (P := fun v => finite v = true) in Hfin.
rewrite balances_of_values in *.
set (l := expenses self) in *. set (U := unique_people l) in *.
assert (Hn : n = INR (List.length U)).
{ unfold n, U. now rewrite <- unique_people_count, <- INR_IZR_INZ. }
apply Forall_map in Hfin.
destruct (net_sum_bound l Hval Hlen Hfin) as [Hsum Hmag].
fold U m A in Hsum, Hmag. rewrite <- Hn in Hsum.
rewrite map_map. split; [exact Hsum|].
cbn [py_sum binary64]. intros Hfs.
destruct (length_bound l Hlen) as [Hm0 Hm]. fold m in Hm0, Hm.
assert (Hnm : n <= m).
{ rewrite Hn. apply le_INR. unfold U.
  rewrite <- (length_map (@paid_by float) l).
  apply NoDup_incl_length; [apply set_iter_NoDup|].
  intros p Hp. now apply unique_people_In in Hp. }
assert (Hn0 : 0 <= n) by (rewrite Hn; apply pos_INR).
pose proof (sum_error (map (net_of l) U) Hfs) as Herr.
rewrite length_map, <- Hn, !map_map in Herr.
rewrite bpow_52 in *.
specialize (Herr ltac:(lra)).
set (B := Rsum (map (fun p => Rabs (value (net_of l p))) U)) in *.
set (E := Rsum (map (fun p => value (net_of l p)) U)) in *.
set (v := value (fold_left PrimFloat.add (map (net_of l) U) (float_of_Z 0)))
  in *.
assert (HB0 : 0 <= B).
{ unfold B. apply Rsum_nonneg, Forall_map, Forall_forall.
  intros p _. apply Rabs_pos. }
assert (HnB : n * B <= n * (265 / 100 * A))
  by (apply Rmult_le_compat_l; assumption).
assert (HA0 : 0 <= A) by lra.
assert (HnA : 0 <= n * A) by (apply Rmult_le_pos; assumption).
assert (HmA : 0 <= m * A) by (apply Rmult_le_pos; assumption).
revert Hsum Herr. unfold Rabs.
repeat match goal with |- context [Rcase_abs ?x] => destruct (Rcase_abs x) end;
  intros Hsum Herr; lra.
Qed.

End Balances.

End ZeroSum.

Module ZeroSumExamples.
Import Binary64 Examples ValidatedLedger.
Import FloatValue FloatReal FloatSums ZeroSum.
Local Open Scope string_scope.

Lemma net_balances_sum_bound_witness :
  let balances :=
    [("Ann", 0.02); ("Bob", -0); ("Cid", -0); ("Dan", -0); ("Eve", -0)]%float
  in
  let n := IZR (count_payers (expenses five_payers)) in
  let m := INR (List.length (expenses five_payers)) in
  let A := exact_total (expenses five_payers) in
  (Rabs (exact_sum balances)
   <= n * / 200 + (4 * m + 6) * bpow (-52) * A)%R
  /\ (finite (py_sum (map snd balances)) = true ->
      (Rabs (value (py_sum (map snd balances)))
       <= n * / 200 + (4 * m + 6 * n + 6) * bpow (-52) * A)%R).
Proof.
apply (@net_balances_sum_bound first_seen five_payers).
- repeat (constructor; [vm_compute; reflexivity|]). constructor.
- vm_compute. discriminate.
- vm_compute. reflexivity.
- repeat (constructor; [vm_compute; reflexivity|]). constructor.
Defined.

(** The exact sum of the balances of the five payers is above 0.01,
    too. *)
Lemma five_payers_exact_sum :
  (/ 100
   < exact_sum [("Ann", 0.02); ("Bob", -0); ("Cid", -0); ("Dan", -0);
                ("Eve", -0)]%float)%R.
Proof.
unfold exact_sum. cbn [map snd Rsum]. unfold value.
change (Prim2SF 0.02) with (S754_finite false 5764607523034235 (-58)).
change (Prim2SF (-0)) with (S754_zero true).
cbn [SF2R]. unfold sign.
change (bpow (-58)) with (bpow (- (58))). rewrite (bpow_neg 58) by lia.
change (2 ^ 58)%Z with 288230376151711744%Z. lra.
Qed.

(** One large amount: the float operations round by more than a cent. *)
Definition large_payer : ExpenseService float :=
  snapshot [(1e15, "Ann"); (0.01, "Bob"); (0.01, "Cid")]%float.

Lemma large_payer_sum :
  validated large_payer
  /\ exists balances,
       _calculate_individual_balances large_payer = Ok balances
       /\ py_sum (map snd balances) = 0.125%float
       /\ exact_sum balances = (/ 8)%R.
Proof.
split; [repeat (constructor; [vm_compute; reflexivity|]); constructor|].
exists [("Ann", 666666666666666.75); ("Bob", -333333333333333.31);
        ("Cid", -333333333333333.31)]%float.
split; [vm_compute; reflexivity|]. split; [vm_compute; reflexivity|].
unfold exact_sum. cbn [map snd Rsum]. unfold value.
change (Prim2SF 666666666666666.75)
  with (S754_finite false 5333333333333334 (-3)).
change (Prim2SF (-333333333333333.31))
  with (S754_finite true 5333333333333333 (-4)).
cbn [SF2R]. unfold sign.
change (bpow (-3)) with (bpow (- (3))).
change (bpow (-4)) with (bpow (- (4))).
rewrite (bpow_neg 3), (bpow_neg 4) by lia.
change (2 ^ 3)%Z with 8%Z. change (2 ^ 4)%Z with 16%Z. lra.
Qed.

(** Two amounts that [validate_amount] accepts and whose total overflows:
    the share is infinite, and so are the balances. *)
Definition huge_payers : ExpenseService float :=
  snapshot [(1e308, "Ann"); (1e308, "Bob")]%float.

Lemma huge_payers_balances :
  validated huge_payers
  /\ _calculate_individual_balances huge_payers
     = Ok [("Ann", neg_infinity); ("Bob", neg_infinity)].
Proof.
split; [repeat (constructor; [vm_compute; reflexivity|]); constructor|].
vm_compute. reflexivity.
Qed.

End ZeroSumExamples.
